(** * Scrapar: the pipeline execution engine

    A shallow embedding of the core of the repository:
    - [ScrapeRunnerImpl] (src/core/scrape-runner): dependency resolution,
      sequential step execution, lifecycle hooks;
    - [StepLogger] (src/core/step-logger): the per-run, per-step state store;
    - [LoopController] (src/core/loop-controller): the paced, bounded loop.

    JavaScript numbers are integers of [Z] here (indices, counters, clock
    readings in milliseconds); a value of type [unknown] is a [JsVal]. *)

From Stdlib Require Import ZArith Lia.
From stdpp Require Import base option list strings gmap sorting.

Local Open Scope string_scope.
Local Open Scope Z_scope.
Local Open Scope list_scope.

(** ** Values *)

(** JSON-like values: what a payload, a shared datum or a thrown error holds. *)
#[warnings="-register-all"]
Inductive JsVal : Type :=
| JNull
| JBool (b : bool)
| JNum (n : Z)
| JStr (s : string)
| JObj (fields : gmap string JsVal).

(** Object spread [{ ...a, ...b }]: the keys of [b] win. *)
Definition spread (a b : gmap string JsVal) : gmap string JsVal := b ∪ a.

(** ** Insertion-ordered maps

    A JavaScript [Map] iterates in insertion order, and [set] on a key that
    is already present keeps its position. *)
Module JsMap.

Definition t (V : Type) : Type := list (string * V).

Definition empty {V} : t V := [].

Fixpoint get {V} (k : string) (m : t V) : option V :=
  match m with
  | [] => None
  | (k', v) :: m' => if String.eqb k k' then Some v else get k m'
  end.

Definition has {V} (k : string) (m : t V) : bool :=
  match get k m with Some _ => true | None => false end.

Fixpoint set {V} (k : string) (v : V) (m : t V) : t V :=
  match m with
  | [] => [(k, v)]
  | (k', v') :: m' =>
      if String.eqb k k' then (k', v) :: m' else (k', v') :: set k v m'
  end.

Definition entries {V} (m : t V) : list (string * V) := m.

Definition keys {V} (m : t V) : list string := map fst m.

End JsMap.

(** ** Types of the runner (src/types) *)

Inductive Mode : Type := development | production.

(** [RunnerConfig]; the fields the core never reads (rateLimit, retry,
    telemetry) are carried along in [rest]. *)
Record RunnerConfig : Type := {
  mode : Mode;
  delay : Z;
  maxItems : option Z;
  resumeFromLog : option bool;
  rest : gmap string JsVal;
}.

(** [ScrapeContext]: the readonly identity of a run and its mutable bags. *)
Record ScrapeContext : Type := {
  runId : string;
  config : RunnerConfig;
  data : gmap string JsVal;
  stepState : gmap string JsVal;
  metadata : gmap string JsVal;
}.

(** What the runner can reject with: its own errors, or a value thrown by a
    step body or a hook. *)
Inductive RunnerError : Type :=
| DependencyNotFound (depId stepId : string)
| CircularDependency (missing : list string)
| StepNotFound (startStepId : string)
| InvalidStepIndex (startIndex : Z)
| Thrown (v : JsVal).

(** A callback runs against the shared context, may change it, and either
    returns ([None]) or throws ([Some v]). *)
Definition Callback : Type := ScrapeContext -> ScrapeContext * option JsVal.

(** The event handed to a lifecycle hook, minus its [step] and [context]
    fields: the step is named by its id and the context is the shared one
    the callback runs against. *)
Record StepLifecycleEvent : Type := {
  ev_stepId : string;
  stepIndex : Z;
  totalSteps : Z;
}.

(** [StepErrorEvent] extends the lifecycle event. *)
Record StepErrorEvent : Type := {
  lifecycleEvent : StepLifecycleEvent;
  error : RunnerError;
  attempt : Z;
  willRetry : bool;
}.

Definition StepLifecycleHook : Type := StepLifecycleEvent -> Callback.
Definition StepErrorHook : Type := StepErrorEvent -> Callback.

Record PipelineStep : Type := {
  id : string;
  dependencies : option (list string);
  run : Callback;
  beforeStep : option StepLifecycleHook;
  afterStep : option StepLifecycleHook;
  onError : option StepErrorHook;
}.

Module Lifecycle.
(** [RunnerLifecycle]: the runner-level hooks. *)
Record t : Type := {
  beforeStep : option StepLifecycleHook;
  afterStep : option StepLifecycleHook;
  onError : option StepErrorHook;
}.
Definition none : t := {| beforeStep := None; afterStep := None; onError := None |}.
End Lifecycle.

(** ** Dependency resolution ([ScrapeRunnerImpl.resolveDependencies]) *)

Module Resolver.

(** The three maps of the resolver. *)
Record Maps : Type := {
  stepMap : JsMap.t PipelineStep;
  inDegree : JsMap.t Z;
  graph : JsMap.t (list string);
}.

(** First loop: register every step. *)
Definition register (m : Maps) (step : PipelineStep) : Maps :=
  {| stepMap := JsMap.set (id step) step (stepMap m);
     inDegree := JsMap.set (id step) 0 (inDegree m);
     graph := JsMap.set (id step) [] (graph m) |}.

Definition registerAll (steps : list PipelineStep) : Maps :=
  fold_left register steps
    {| stepMap := JsMap.empty; inDegree := JsMap.empty; graph := JsMap.empty |}.

(** [graph.get(depId)?.push(step.id)] *)
Definition pushDependent (depId stepId : string) (g : JsMap.t (list string))
  : JsMap.t (list string) :=
  match JsMap.get depId g with
  | Some l => JsMap.set depId (l ++ [stepId]) g
  | None => g
  end.

(** [inDegree.get(k) ?? 0] *)
Definition degree (k : string) (d : JsMap.t Z) : Z :=
  default 0 (JsMap.get k d).

(** Second loop, inner body: one declared dependency of [stepId]. *)
Definition addEdge (stepId : string) (m : Maps) (depId : string)
  : RunnerError + Maps :=
  if JsMap.has depId (stepMap m) then
    inr {| stepMap := stepMap m;
           inDegree := JsMap.set stepId (degree stepId (inDegree m) + 1) (inDegree m);
           graph := pushDependent depId stepId (graph m) |}
  else inl (DependencyNotFound depId stepId).

Fixpoint addEdges (stepId : string) (deps : list string) (m : Maps)
  : RunnerError + Maps :=
  match deps with
  | [] => inr m
  | depId :: deps' =>
      match addEdge stepId m depId with
      | inl e => inl e
      | inr m' => addEdges stepId deps' m'
      end
  end.

(** Second loop: [if (step.dependencies) for (const depId of ...)]. *)
Fixpoint linkAll (steps : list PipelineStep) (m : Maps) : RunnerError + Maps :=
  match steps with
  | [] => inr m
  | step :: steps' =>
      match addEdges (id step) (default [] (dependencies step)) m with
      | inl e => inl e
      | inr m' => linkAll steps' m'
      end
  end.

(** The ready queue: ids of in-degree zero, in the iteration order of
    [inDegree.entries()]. *)
Definition initialQueue (d : JsMap.t Z) : list string :=
  map fst (filter (fun e => snd e = 0) (JsMap.entries d)).

(** State of the [while] loop. *)
Record Loop : Type := {
  degrees : JsMap.t Z;
  queue : list string;
  result : list PipelineStep;
}.

(** One dependent of the dequeued step: decrement, enqueue on zero. *)
Definition relax (acc : JsMap.t Z * list string) (dependentId : string)
  : JsMap.t Z * list string :=
  let currentDegree := degree dependentId (fst acc) in
  (JsMap.set dependentId (currentDegree - 1) (fst acc),
   if decide (currentDegree - 1 = 0) then snd acc ++ [dependentId] else snd acc).

(** One iteration of [while (queue.length > 0)]. *)
Definition iterate (m : Maps) (stepId : string) (rest : list string) (st : Loop)
  : Loop :=
  let result' :=
    match JsMap.get stepId (stepMap m) with
    | Some step => result st ++ [step]
    | None => result st
    end in
  let dependents := default [] (JsMap.get stepId (graph m)) in
  let acc := fold_left relax dependents (degrees st, rest) in
  {| degrees := fst acc; queue := snd acc; result := result' |}.

(** The loop, bounded by [fuel] iterations. *)
Fixpoint drain (fuel : nat) (m : Maps) (st : Loop) : Loop :=
  match fuel with
  | O => st
  | S fuel' =>
      match queue st with
      | [] => st
      | stepId :: rest => drain fuel' m (iterate m stepId rest st)
      end
  end.

(** Each iteration removes one id from the queue and a id enters it only
    when its in-degree falls from one to zero, so the number of entries of
    [inDegree] bounds the number of iterations
    (see [Resolver_drain_terminates]). *)
Definition kahn (m : Maps) : Loop :=
  drain (length (JsMap.entries (inDegree m))) m
    {| degrees := inDegree m; queue := initialQueue (inDegree m); result := [] |}.

(** [steps.filter((s) => !result.some((r) => r.id === s.id))] *)
Definition unresolved (steps result : list PipelineStep) : list PipelineStep :=
  filter (fun s => ¬ Exists (fun r => id r = id s) result) steps.

Definition resolveDependencies (steps : list PipelineStep)
  : RunnerError + list PipelineStep :=
  match linkAll steps (registerAll steps) with
  | inl e => inl e
  | inr m =>
      let st := kahn m in
      if decide (length (result st) = length steps) then inr (result st)
      else inl (CircularDependency (map id (unresolved steps (result st))))
  end.

(** Ids whose in-degree is still positive, and the number of iterations
    the loop has left: one per queued id and one per pending id. *)
Definition pending (d : JsMap.t Z) : nat :=
  length (filter (fun e : string * Z => 0 < e.2) (JsMap.entries d)).

Definition measure (st : Loop) : nat :=
  (pending (degrees st) + length (queue st))%nat.

End Resolver.

(** ** The step runner ([ScrapeRunnerImpl]) *)

Module RunnerState.
(** Snapshot of runner progress used by [resume]. *)
Record t : Type := {
  currentStepId : string;
  stepIndex : Z;
  completedStepIds : list string;
  failedStepIds : list string;
  payload : option (gmap string JsVal);
}.
End RunnerState.

Module RunOptions.
Record t : Type := {
  mode : option Mode;
  maxItems : option Z;
  delay : option Z;
  startStepId : option string;
  resumeState : option RunnerState.t;
}.
Definition none : t :=
  {| mode := None; maxItems := None; delay := None; startStepId := None;
     resumeState := None |}.
End RunOptions.

Module RunResult.
(** The wall-clock fields (startedAt, finishedAt, durationMs) are left
    out: no branch of the runner reads them. *)
Record t : Type := {
  totalSteps : Z;
  completedSteps : list string;
  failedSteps : list string;
}.
End RunResult.

(** [new ScrapeContextImpl(config, runId)]; the generated run id is an
    input. *)
Definition ScrapeContextImpl (cfg : RunnerConfig) (rid : string) : ScrapeContext :=
  {| runId := rid; config := cfg; data := ∅; stepState := ∅; metadata := ∅ |}.

(** [context.data = { ...context.data, ...state.payload }] *)
Definition seedData (p : option (gmap string JsVal)) (ctx : ScrapeContext)
  : ScrapeContext :=
  match p with
  | Some payload =>
      {| runId := runId ctx; config := config ctx;
         data := spread (data ctx) payload;
         stepState := stepState ctx; metadata := metadata ctx |}
  | None => ctx
  end.

(** Which function the runner calls. *)
Inductive Callee : Type :=
| RunnerBeforeStep | StepBeforeStep | StepRun
| RunnerAfterStep | StepAfterStep
| RunnerOnError | StepOnError.

Global Instance Callee_eq_dec : EqDecision Callee.
Proof. solve_decision. Defined.

(** One call made by the runner: the callee, the step and event it is
    called for (for [StepRun], the event of the enclosing [executeStep]),
    the [error] field of an error event, the shared context as the callee
    found it and left it, and what the callee threw. *)
Record Call : Type := {
  callee : Callee;
  c_step : PipelineStep;
  c_event : StepLifecycleEvent;
  c_error : option RunnerError;
  c_context : ScrapeContext;
  c_left : ScrapeContext;
  c_thrown : option JsVal;
}.

(** The state a run threads: the shared context, the calls made so far,
    and the two accumulators of [run]/[resume] (kept here so that their
    contents at the moment of a throw can be observed). *)
Record World : Type := {
  context : ScrapeContext;
  calls : list Call;
  completedSteps : list string;
  failedSteps : list string;
}.

(** State and exception monad of the runner. *)
Definition M (A : Type) : Type := World -> World * (RunnerError + A).

Global Instance M_ret : MRet M := fun A a w => (w, inr a).

Global Instance M_bind : MBind M := fun A B k m w =>
  match m w with
  | (w', inl e) => (w', inl e)
  | (w', inr a) => k a w'
  end.

Definition throw {A} (e : RunnerError) : M A := fun w => (w, inl e).

Definition try_catch {A} (m : M A) (handler : RunnerError -> M A) : M A :=
  fun w =>
    match m w with
    | (w', inl e) => handler e w'
    | (w', inr a) => (w', inr a)
    end.

Definition lift {A} (r : RunnerError + A) : M A := fun w => (w, r).

Definition getWorld : M World := fun w => (w, inr w).

(** [await cb(...)]: run the callee against the shared context and record
    the call. *)
Definition invoke (who : Callee) (step : PipelineStep) (ev : StepLifecycleEvent)
    (err : option RunnerError) (cb : Callback) : M unit :=
  fun w =>
    let r := cb (context w) in
    ({| context := r.1;
        calls := calls w ++
          [{| callee := who; c_step := step; c_event := ev; c_error := err;
              c_context := context w; c_left := r.1; c_thrown := r.2 |}];
        completedSteps := completedSteps w;
        failedSteps := failedSteps w |},
     match r.2 with
     | Some v => inl (Thrown v)
     | None => inr ()
     end).

(** A hook applied to its event, when the hook is there. *)
Definition applyHook {A} (hook : option (A -> Callback)) (ev : A) : option Callback :=
  match hook with
  | Some h => Some (h ev)
  | None => None
  end.

(** [if (hook) await hook(event)] *)
Definition fire (who : Callee) (step : PipelineStep) (ev : StepLifecycleEvent)
    (err : option RunnerError) (hook : option Callback) : M unit :=
  match hook with
  | Some cb => invoke who step ev err cb
  | None => mret ()
  end.

Definition pushCompleted (stepId : string) : M unit := fun w =>
  ({| context := context w; calls := calls w;
      completedSteps := completedSteps w ++ [stepId];
      failedSteps := failedSteps w |}, inr ()).

Definition pushFailed (stepId : string) : M unit := fun w =>
  ({| context := context w; calls := calls w;
      completedSteps := completedSteps w;
      failedSteps := failedSteps w ++ [stepId] |}, inr ()).

Definition setAccumulators (completed failed : list string) : M unit := fun w =>
  ({| context := context w; calls := calls w;
      completedSteps := completed; failedSteps := failed |}, inr ()).

(** [Array.prototype.findIndex] *)
Fixpoint findIndex {A} (p : A -> bool) (l : list A) : Z :=
  match l with
  | [] => -1
  | x :: l' =>
      if p x then 0
      else let r := findIndex p l' in if decide (r < 0) then -1 else r + 1
  end.

(** [Array.prototype.slice(start)] for a start that is not negative. *)
Definition slice {A} (start : Z) (l : list A) : list A := drop (Z.to_nat start) l.

Module ScrapeRunnerImpl.

Record t : Type := {
  config : RunnerConfig;
  _steps : list PipelineStep;
  lifecycle : option Lifecycle.t;
}.

Definition setSteps (this : t) (steps : list PipelineStep) : t :=
  {| config := config this; _steps := steps; lifecycle := lifecycle this |}.

Definition registerStep (this : t) (step : PipelineStep) : t :=
  {| config := config this; _steps := _steps this ++ [step];
     lifecycle := lifecycle this |}.

Definition mergedConfig (this : t) (options : RunOptions.t) : RunnerConfig :=
  {| mode := default (mode (config this)) (RunOptions.mode options);
     delay := default (delay (config this)) (RunOptions.delay options);
     maxItems :=
       match RunOptions.maxItems options with
       | Some n => Some n
       | None => maxItems (config this)
       end;
     resumeFromLog := resumeFromLog (config this);
     rest := rest (config this) |}.

(** [this.lifecycle?.hook] *)
Definition runnerHook {A} (this : t) (proj : Lifecycle.t -> option A) : option A :=
  match lifecycle this with
  | Some l => proj l
  | None => None
  end.

Definition errorEvent (ev : StepLifecycleEvent) (e : RunnerError) : StepErrorEvent :=
  {| lifecycleEvent := ev; error := e; attempt := 1; willRetry := false |}.

(** The runner-level then the step-level [onError] hook. *)
Definition fireOnError (this : t) (step : PipelineStep) (ev : StepLifecycleEvent)
    (e : RunnerError) : M unit :=
  fire RunnerOnError step ev (Some e)
    (applyHook (runnerHook this Lifecycle.onError) (errorEvent ev e)) ;;
  fire StepOnError step ev (Some e)
    (applyHook (onError step) (errorEvent ev e)).

Definition executeStep (this : t) (step : PipelineStep) (stepIndex totalSteps : Z)
  : M unit :=
  let lifecycleEvent :=
    {| ev_stepId := id step; stepIndex := stepIndex; totalSteps := totalSteps |} in
  fire RunnerBeforeStep step lifecycleEvent None
    (applyHook (runnerHook this Lifecycle.beforeStep) lifecycleEvent) ;;
  fire StepBeforeStep step lifecycleEvent None
    (applyHook (beforeStep step) lifecycleEvent) ;;
  try_catch (invoke StepRun step lifecycleEvent None (run step))
    (fun e => fireOnError this step lifecycleEvent e ;; throw e) ;;
  fire RunnerAfterStep step lifecycleEvent None
    (applyHook (runnerHook this Lifecycle.afterStep) lifecycleEvent) ;;
  fire StepAfterStep step lifecycleEvent None
    (applyHook (afterStep step) lifecycleEvent).

(** The [for] loop of [run] and of [resume] (the two bodies are the same
    text): [i] is the loop counter, [stepsToRun] what is left to run. *)
Fixpoint stepLoop (this : t) (startIndex totalSteps : Z) (i : nat)
    (stepsToRun : list PipelineStep) : M unit :=
  match stepsToRun with
  | [] => mret ()
  | step :: stepsToRun' =>
      let stepIndex := startIndex + Z.of_nat i in
      try_catch
        (executeStep this step stepIndex totalSteps ;; pushCompleted (id step))
        (fun e =>
           pushFailed (id step) ;;
           fireOnError this step
             {| ev_stepId := id step; stepIndex := stepIndex;
                totalSteps := totalSteps |} e ;;
           throw e) ;;
      stepLoop this startIndex totalSteps (S i) stepsToRun'
  end.

Definition runResult (orderedSteps : list PipelineStep) : M RunResult.t :=
  w ← getWorld;
  mret {| RunResult.totalSteps := Z.of_nat (length orderedSteps);
          RunResult.completedSteps := completedSteps w;
          RunResult.failedSteps := failedSteps w |}.

Definition newWorld (ctx : ScrapeContext) : World :=
  {| context := ctx; calls := []; completedSteps := []; failedSteps := [] |}.

(** [run(options)]; [rid] is the run id the context constructor
    generates. *)
Definition run (this : t) (rid : string) (options : RunOptions.t)
  : World * (RunnerError + RunResult.t) :=
  (orderedSteps ← lift (Resolver.resolveDependencies (_steps this));
   let startIndex :=
     match RunOptions.startStepId options with
     | Some sid =>
         if decide (sid = EmptyString) then 0
         else findIndex (fun s => bool_decide (id s = sid)) orderedSteps
     | None => 0
     end in
   if decide (startIndex < 0)
   then throw (StepNotFound (default EmptyString (RunOptions.startStepId options)))
   else
     setAccumulators [] [] ;;
     stepLoop this startIndex (Z.of_nat (length orderedSteps)) 0
       (slice startIndex orderedSteps) ;;
     runResult orderedSteps)
    (newWorld (ScrapeContextImpl (mergedConfig this options) rid)).

(** [resume(state, options)] *)
Definition resume (this : t) (rid : string) (state : RunnerState.t)
    (options : RunOptions.t) : World * (RunnerError + RunResult.t) :=
  (orderedSteps ← lift (Resolver.resolveDependencies (_steps this));
   let startIndex := RunnerState.stepIndex state in
   if decide (startIndex < 0 ∨ startIndex >= Z.of_nat (length orderedSteps))
   then throw (InvalidStepIndex startIndex)
   else
     setAccumulators (RunnerState.completedStepIds state)
       (RunnerState.failedStepIds state) ;;
     stepLoop this startIndex (Z.of_nat (length orderedSteps)) 0
       (slice startIndex orderedSteps) ;;
     runResult orderedSteps)
    (newWorld
       (seedData (RunnerState.payload state)
          (ScrapeContextImpl (mergedConfig this options) rid))).

(** The two entry points of the runner. *)
Inductive Entry : Type :=
| Run (options : RunOptions.t)
| Resume (state : RunnerState.t) (options : RunOptions.t).

Definition enter (this : t) (rid : string) (entry : Entry)
  : World * (RunnerError + RunResult.t) :=
  match entry with
  | Run options => run this rid options
  | Resume state options => resume this rid state options
  end.

End ScrapeRunnerImpl.

(** ** The resumable state store ([StepLogger]) *)

(** [String.prototype.startsWith] and [endsWith]. *)
Definition startsWith (s p : string) : bool := String.prefix p s.

Definition endsWith (s p : string) : bool :=
  String.eqb (String.substring (String.length s - String.length p) (String.length p) s) p
  && Nat.leb (String.length p) (String.length s).

Module StepLogger.

(** An element of [fails]: [number | string]. *)
Inductive FailureId : Type :=
| FailNum (n : Z)
| FailStr (s : string).

(** [updatedAt] is the clock reading in milliseconds that the ISO string
    of the source encodes. *)
Record StepLogRecord : Type := {
  stepId : string;
  index : Z;
  fails : list FailureId;
  updatedAt : Z;
  payload : option (gmap string JsVal);
}.

(** What a file holds: the JSON of a record (as [writeStep] leaves it), or
    anything [JSON.parse] rejects (the empty file included). *)
Inductive FileBody : Type :=
| Json (record : StepLogRecord)
| Malformed (raw : string).

(** The file system: for every directory that exists, its files by name,
    listed by [readdir] in the order they were created. *)
Definition FS : Type := gmap string (JsMap.t FileBody).

Record t : Type := {
  logDir : string;
  runId : string;
  persistInProductionOnly : bool;
  isProduction : bool;
}.

Module Options.
Record t : Type := {
  logDir : option string;
  runId : option string;
  persistInProductionOnly : option bool;
  isProduction : option bool;
}.
End Options.

(** The constructor; [generated] is the run id built from the clock when
    the options give none, and [logDir] is taken as already resolved. *)
Definition new (options : Options.t) (generated : string) : t :=
  {| logDir := default "./logs" (Options.logDir options);
     runId := default generated (Options.runId options);
     persistInProductionOnly := default true (Options.persistInProductionOnly options);
     isProduction := default false (Options.isProduction options) |}.

Definition shouldPersist (this : t) : bool :=
  if negb (persistInProductionOnly this) then true else isProduction this.

Definition filePrefix (this : t) : string := runId this ++ "-".

(** The file name part of [buildFilePath]; the directory is [logDir]. *)
Definition fileName (this : t) (stepId : string) : string :=
  filePrefix this ++ stepId ++ ".json".

(** [safeReadDir]: a missing directory lists as empty. *)
Definition safeReadDir (dirPath : string) (fs : FS) : list string :=
  match fs !! dirPath with
  | Some dir => JsMap.keys dir
  | None => []
  end.

(** [safeReadFile]: a missing file reads as [undefined]. *)
Definition safeReadFile (dirPath name : string) (fs : FS) : option FileBody :=
  fs !! dirPath ≫= JsMap.get name.

Definition defaultRecord (stepId : string) (now : Z) : StepLogRecord :=
  {| stepId := stepId; index := 0; fails := []; updatedAt := now; payload := None |}.

(** [readStep]; [now] is what [timestamp()] returns. *)
Definition readStep (this : t) (now : Z) (stepId : string) (fs : FS)
  : StepLogRecord :=
  match safeReadFile (logDir this) (fileName this stepId) fs with
  | Some (Json record) => record
  | Some (Malformed _) => defaultRecord stepId now
  | None => defaultRecord stepId now
  end.

(** [writeStep]: create the directory if needed, then (over)write the
    file named after [record.stepId]. *)
Definition writeStep (this : t) (record : StepLogRecord) (fs : FS) : FS :=
  <[logDir this :=
      JsMap.set (fileName this (stepId record)) (Json record)
        (default JsMap.empty (fs !! logDir this))]> fs.

Definition setLogForCurrentStepIndex (this : t) (now : Z) (stepId : string)
    (index : Z) (fs : FS) : FS :=
  if negb (shouldPersist this) then fs
  else
    let record := readStep this now stepId fs in
    writeStep this
      {| stepId := StepLogger.stepId record;
         index := index;
         fails := if decide (index = 0) then [] else fails record;
         updatedAt := now;
         payload := payload record |} fs.

Definition setLogForCurrentStepFails (this : t) (now : Z) (stepId : string)
    (failureId : FailureId) (fs : FS) : FS :=
  if negb (shouldPersist this) then fs
  else
    let record := readStep this now stepId fs in
    writeStep this
      {| stepId := StepLogger.stepId record;
         index := index record;
         fails := fails record ++ [failureId];
         updatedAt := now;
         payload := payload record |} fs.

Definition setStepPayload (this : t) (now : Z) (stepId : string)
    (payload : gmap string JsVal) (fs : FS) : FS :=
  if negb (shouldPersist this) then fs
  else
    let record := readStep this now stepId fs in
    writeStep this
      {| stepId := StepLogger.stepId record;
         index := index record;
         fails := fails record;
         updatedAt := now;
         payload := Some (spread (default ∅ (StepLogger.payload record)) payload) |} fs.

Definition getLogByStep (this : t) (now : Z) (stepId : string) (fs : FS)
  : StepLogRecord :=
  readStep this now stepId fs.

(** [Array.prototype.sort] with the comparator
    [(a, b) => time(a.updatedAt) - time(b.updatedAt)]: a stable sort. *)
Fixpoint insertByTime (r : StepLogRecord) (l : list StepLogRecord)
  : list StepLogRecord :=
  match l with
  | [] => [r]
  | r' :: l' =>
      if decide (updatedAt r <= updatedAt r') then r :: r' :: l'
      else r' :: insertByTime r l'
  end.

Definition sortByTime (l : list StepLogRecord) : list StepLogRecord :=
  foldr insertByTime [] l.

Definition relevant (this : t) (file : string) : bool :=
  startsWith file (filePrefix this) && endsWith file ".json".

Definition getAllLogs (this : t) (fs : FS) : list StepLogRecord :=
  let files := safeReadDir (logDir this) fs in
  let records :=
    omap (fun file =>
            match safeReadFile (logDir this) file fs with
            | Some (Json record) => Some record
            | _ => None
            end)
         (filter (fun file => relevant this file = true) files) in
  sortByTime records.

(** [for (const log of logs) if (log.payload) payload[log.stepId] = log.payload] *)
Definition collectPayload (logs : list StepLogRecord) : gmap string JsVal :=
  fold_left
    (fun acc log =>
       match payload log with
       | Some p => <[stepId log := JObj p]> acc
       | None => acc
       end)
    logs ∅.

(** [Array.prototype.find] *)
Definition find {A} (p : A -> bool) (l : list A) : option A := List.find p l.

Definition buildRunnerState (this : t) (currentStepId : option string) (fs : FS)
  : RunnerState.t :=
  let logs := getAllLogs this fs in
  let completedStepIds :=
    map stepId (filter (fun log => index log = 0) logs) in
  let failedStepIds :=
    map stepId (filter (fun log => (0 < length (fails log))%nat) logs) in
  let reversedLogs := reverse logs in
  let lastInProgress := find (fun log => bool_decide (index log > 0)) reversedLogs in
  let lastLog := last logs in
  let inferredCurrentStep :=
    match currentStepId with
    | Some s => s
    | None =>
        match lastInProgress with
        | Some log => stepId log
        | None =>
            match lastLog with
            | Some log => stepId log
            | None => EmptyString
            end
        end
    end in
  let inferredIndex :=
    match find (fun log => bool_decide (stepId log = inferredCurrentStep)) logs with
    | Some log => index log
    | None => 0
    end in
  {| RunnerState.currentStepId := inferredCurrentStep;
     RunnerState.stepIndex := inferredIndex;
     RunnerState.completedStepIds := completedStepIds;
     RunnerState.failedStepIds := failedStepIds;
     RunnerState.payload := Some (collectPayload logs) |}.

(** [fs.rm(path, { force: true })] *)
Definition rm (dirPath name : string) (fs : FS) : FS :=
  match fs !! dirPath with
  | Some dir => <[dirPath := filter (fun e => e.1 ≠ name) dir]> fs
  | None => fs
  end.

Definition clearStep (this : t) (stepId : string) (fs : FS) : FS :=
  if negb (shouldPersist this) then fs
  else rm (logDir this) (fileName this stepId) fs.

Definition clearAll (this : t) (fs : FS) : FS :=
  if negb (shouldPersist this) then fs
  else
    fold_left (fun acc file => rm (logDir this) file acc)
      (filter (fun file => relevant this file = true)
         (safeReadDir (logDir this) fs))
      fs.

End StepLogger.

(** ** The iteration controller ([LoopController])

    The callbacks are closures over state of their own: [E] is that state
    and [T] the type of the items.  A callback either returns or throws.
    One tick of the timer is modelled as a whole: the callback of a tick has
    settled before the next tick fires. *)

Module LoopController.

Section Controller.
Context {E T : Type}.

(** A callback with a result of type [A] over the captured state. *)
Definition Fn (A : Type) : Type := E -> E * (JsVal + A).

Record LoopFailure : Type := {
  index : Z;
  error : JsVal;
  item : option T;
  timestamp : Z;
}.

Record Options : Type := {
  opt_isProduction : option bool;
  opt_maxItems : option Z;
  opt_onProgress : option (Z -> Z -> Z -> Fn unit);
  opt_onFailure : option (Z -> JsVal -> option T -> Fn unit);
  opt_getCurrentStepValue : option (E -> E * Z);
  opt_setLogForCurrentStepIndex : option (Z -> Fn unit);
}.

Definition DEFAULT_MAX_ITEMS : Z := 10.

(** The fields the constructor fills. *)
Record t : Type := {
  isProduction : bool;
  maxItems : Z;
  onProgress : option (Z -> Z -> Z -> Fn unit);
  onFailure : option (Z -> JsVal -> option T -> Fn unit);
  getCurrentStepValue : option (E -> E * Z);
  setLogForCurrentStepIndex : option (Z -> Fn unit);
}.

Definition new (options : Options) : t :=
  {| isProduction := default false (opt_isProduction options);
     maxItems := default DEFAULT_MAX_ITEMS (opt_maxItems options);
     onProgress := opt_onProgress options;
     onFailure := opt_onFailure options;
     getCurrentStepValue := opt_getCurrentStepValue options;
     setLogForCurrentStepIndex := opt_setLogForCurrentStepIndex options |}.

(** The arguments of [loopDelay] that the timer callback closes over. *)
Record Task : Type := {
  todo : Z -> list T -> E -> E * list T * option JsVal;
  done : list T -> E -> E * list T * option JsVal;
  delay : Z;
}.

(** A call made by the controller, with its arguments. *)
Inductive Event : Type :=
| CallGetCurrentStepValue
| CallTodo (i : Z)
| CallSetLog (index : Z)
| CallOnProgress (current total remainingTime : Z)
| CallOnFailure (index : Z) (error : JsVal) (item : option T)
| CallDone (l : list T).

(** The variables of one [loopDelay] call and of the controller:
    [items] is the shared array [list], [intervalId] tells whether the timer is
    armed, [rejections] collects what a tick rejected with (nothing
    handles it), [trace] the calls made so far. *)
Record State : Type := {
  env : E;
  items : list T;
  adjustedLimit : Z;
  currentIndex : Z;
  remainingTime : Z;
  failures : list LoopFailure;
  intervalId : bool;
  rejections : list JsVal;
  trace : list Event;
}.

Definition setEnv (e : E) (st : State) : State :=
  {| env := e; items := items st; adjustedLimit := adjustedLimit st;
     currentIndex := currentIndex st; remainingTime := remainingTime st;
     failures := failures st; intervalId := intervalId st;
     rejections := rejections st; trace := trace st |}.

Definition setList (l : list T) (st : State) : State :=
  {| env := env st; items := l; adjustedLimit := adjustedLimit st;
     currentIndex := currentIndex st; remainingTime := remainingTime st;
     failures := failures st; intervalId := intervalId st;
     rejections := rejections st; trace := trace st |}.

Definition record (ev : Event) (st : State) : State :=
  {| env := env st; items := items st; adjustedLimit := adjustedLimit st;
     currentIndex := currentIndex st; remainingTime := remainingTime st;
     failures := failures st; intervalId := intervalId st;
     rejections := rejections st; trace := trace st ++ [ev] |}.

Definition setRemainingTime (r : Z) (st : State) : State :=
  {| env := env st; items := items st; adjustedLimit := adjustedLimit st;
     currentIndex := currentIndex st; remainingTime := r;
     failures := failures st; intervalId := intervalId st;
     rejections := rejections st; trace := trace st |}.

(** [currentIndex++] *)
Definition advance (st : State) : State :=
  {| env := env st; items := items st; adjustedLimit := adjustedLimit st;
     currentIndex := currentIndex st + 1; remainingTime := remainingTime st;
     failures := failures st; intervalId := intervalId st;
     rejections := rejections st; trace := trace st |}.

Definition pushFailure (f : LoopFailure) (st : State) : State :=
  {| env := env st; items := items st; adjustedLimit := adjustedLimit st;
     currentIndex := currentIndex st; remainingTime := remainingTime st;
     failures := failures st ++ [f]; intervalId := intervalId st;
     rejections := rejections st; trace := trace st |}.

(** [clearInterval(this.intervalId); this.intervalId = undefined] *)
Definition clearInterval (st : State) : State :=
  {| env := env st; items := items st; adjustedLimit := adjustedLimit st;
     currentIndex := currentIndex st; remainingTime := remainingTime st;
     failures := failures st; intervalId := false;
     rejections := rejections st; trace := trace st |}.

Definition reject (v : JsVal) (st : State) : State :=
  {| env := env st; items := items st; adjustedLimit := adjustedLimit st;
     currentIndex := currentIndex st; remainingTime := remainingTime st;
     failures := failures st; intervalId := intervalId st;
     rejections := rejections st ++ [v]; trace := trace st |}.

(** Call an optional observer; [inl v] when it threw [v]. *)
Definition observe (ev : Event) (cb : option (Fn unit)) (st : State)
  : State * option JsVal :=
  match cb with
  | None => (st, None)
  | Some f =>
      let r := f (env st) in
      (setEnv r.1 (record ev st),
       match r.2 with inl v => Some v | inr _ => None end)
  end.

(** [list[i]] *)
Definition at_index (l : list T) (i : Z) : option T :=
  if decide (0 <= i) then l !! Z.to_nat i else None.

(** The [try] block of a tick. *)
Definition attempt (this : t) (task : Task) (st : State) : State * option JsVal :=
  let i := currentIndex st in
  let r := todo task i (items st) (env st) in
  let st1 := setList r.1.2 (setEnv r.1.1 (record (CallTodo i) st)) in
  match r.2 with
  | Some v => (st1, Some v)
  | None =>
      match observe (CallSetLog i)
              (f ← setLogForCurrentStepIndex this; Some (f i)) st1 with
      | (st2, Some v) => (st2, Some v)
      | (st2, None) =>
          let st3 := setRemainingTime (remainingTime st2 - delay task) st2 in
          match observe
                  (CallOnProgress i (adjustedLimit st3) (remainingTime st3))
                  (f ← onProgress this;
                   Some (f i (adjustedLimit st3) (remainingTime st3))) st3 with
          | (st4, Some v) => (st4, Some v)
          | (st4, None) => (advance st4, None)
          end
      end
  end.

(** The [catch] block of a tick; [now] is what [Date.now()] returns. *)
Definition capture (this : t) (now : Z) (v : JsVal) (st : State) : State :=
  let i := currentIndex st in
  let st1 :=
    pushFailure
      {| index := i; error := v; item := at_index (items st) i; timestamp := now |}
      st in
  match observe (CallOnFailure i v (at_index (items st1) i))
          (f ← onFailure this; Some (f i v (at_index (items st1) i))) st1 with
  | (st2, Some v') => reject v' st2
  | (st2, None) => advance st2
  end.

(** The [else] branch of a tick: the bound is passed. *)
Definition finish (this : t) (task : Task) (st : State) : State :=
  let st1 := clearInterval st in
  match observe (CallSetLog 0)
          (f ← setLogForCurrentStepIndex this; Some (f 0)) st1 with
  | (st2, Some v) => reject v st2
  | (st2, None) =>
      let r := done task (items st2) (env st2) in
      let st3 := setList r.1.2 (setEnv r.1.1 (record (CallDone (items st2)) st2)) in
      match r.2 with
      | Some v => reject v st3
      | None => st3
      end
  end.

(** One firing of the timer; a cleared timer fires nothing. *)
Definition tick (this : t) (task : Task) (now : Z) (st : State) : State :=
  if intervalId st then
    if decide (currentIndex st <= adjustedLimit st) then
      match attempt this task st with
      | (st', Some v) => capture this now v st'
      | (st', None) => st'
      end
    else finish this task st
  else st.

(** The timer fires once per clock reading of [times]. *)
Definition ticks (this : t) (task : Task) (times : list Z) (st : State)
  : State :=
  fold_left (fun s now => tick this task now s) times st.

(** The accessor as [loopDelay] uses it: called once for the test and,
    when positive, once more for the value. *)
Definition currentPosition (this : t) (e : E) : E * option Z :=
  match getCurrentStepValue this with
  | None => (e, None)
  | Some f =>
      let r1 := f e in
      if decide (r1.2 > 0) then let r2 := f r1.1 in (r2.1, Some r2.2)
      else (r1.1, None)
  end.

(** [loopDelay(limit, todo, done, delay, i, list)] up to and including
    [setInterval]; [failures0] is [this.failures] as earlier loops left
    it. *)
Definition loopDelay (this : t) (failures0 : list LoopFailure)
    (limit : Z) (task : Task) (i : Z) (list0 : list T) (e : E) : State :=
  let capped :=
    if negb (isProduction this) && bool_decide (limit > maxItems this)
    then maxItems this else limit in
  let pos := currentPosition this e in
  let startIndex := default i pos.2 in
  let adjusted :=
    match pos.2 with
    | Some p => capped - p
    | None => capped
    end in
  {| env := pos.1; items := list0; adjustedLimit := adjusted;
     currentIndex := startIndex;
     remainingTime := (adjusted + 2) * delay task;
     failures := failures0; intervalId := true; rejections := [];
     trace :=
       match getCurrentStepValue this with
       | None => []
       | Some _ =>
           match pos.2 with
           | Some _ => [CallGetCurrentStepValue; CallGetCurrentStepValue]
           | None => [CallGetCurrentStepValue]
           end
       end |}.

(** [stop()] *)
Definition stop (st : State) : State :=
  if intervalId st then clearInterval st else st.

Definition getFailures (st : State) : list LoopFailure := failures st.

Definition clearFailures (st : State) : State :=
  {| env := env st; items := items st; adjustedLimit := adjustedLimit st;
     currentIndex := currentIndex st; remainingTime := remainingTime st;
     failures := []; intervalId := intervalId st;
     rejections := rejections st; trace := trace st |}.

Definition getRetryQueue (st : State) : list LoopFailure := getFailures st.

End Controller.

Arguments LoopFailure : clear implicits.
Arguments Options : clear implicits.
Arguments t : clear implicits.
Arguments Task : clear implicits.
Arguments Event : clear implicits.
Arguments State : clear implicits.

End LoopController.

(** ** The command line (src/cli/index)

    The helpers of the CLI that prepare a run: configuration overrides, the
    step logger, the lifecycle that persists progress around the hooks of
    the pipeline, and the choice of the step a [resume] starts from. *)

(** A string that JavaScript takes as true: present and not empty. *)
Definition truthy (value : option string) : option string :=
  match value with
  | Some v => if String.eqb v EmptyString then None else Some v
  | None => None
  end.

Module Cli.

(** The errors the helpers throw. *)
Inductive CliError : Type :=
| MissingOption (name : string)
| InvalidMode (mode : string)
| NoStepsToResume.

(** [Partial<Pick<RunnerConfig, 'mode' | 'delay' | 'maxItems'>>] *)
Record Overrides : Type := {
  o_mode : option Mode;
  o_delay : option Z;
  o_maxItems : option Z;
}.

Definition overrideConfig (config : RunnerConfig) (overrides : Overrides)
  : RunnerConfig :=
  {| mode := match o_mode overrides with Some m => m | None => mode config end;
     delay := match o_delay overrides with Some d => d | None => delay config end;
     maxItems :=
       match o_maxItems overrides with
       | Some n => Some n
       | None => maxItems config
       end;
     resumeFromLog := resumeFromLog config;
     rest := rest config |}.

(** [new StepLogger({ ...options, persistInProductionOnly: false })] *)
Definition createStepLogger (options : StepLogger.Options.t) (generated : string)
  : StepLogger.t :=
  StepLogger.new
    {| StepLogger.Options.logDir := StepLogger.Options.logDir options;
       StepLogger.Options.runId := StepLogger.Options.runId options;
       StepLogger.Options.persistInProductionOnly := Some false;
       StepLogger.Options.isProduction := StepLogger.Options.isProduction options |}
    generated.

Definition ensureMode (mode : string) : CliError + Mode :=
  if String.eqb mode "development" then inr development
  else if String.eqb mode "production" then inr production
  else inl (InvalidMode mode).

Definition ensureStringOption (name : string) (value : option string)
  : CliError + string :=
  match value with
  | None => inl (MissingOption name)
  | Some v => if String.eqb v EmptyString then inl (MissingOption name) else inr v
  end.






Definition inferResumeStepId (logs : list StepLogger.StepLogRecord)
    (explicitStepId : option string) (steps : list PipelineStep)
  : CliError + string :=
  match truthy explicitStepId with
  | Some s => inr s
  | None =>
      match StepLogger.find (fun log => bool_decide (StepLogger.index log > 0)) logs with
      | Some inProgress => inr (StepLogger.stepId inProgress)
      | None =>
          match steps with
          | firstStep :: _ => inr (id firstStep)
          | [] => inl NoStepsToResume
          end
      end
  end.

(** What the [resume] command has when it is about to call
    [runner.resume]. *)
Inductive Prepared : Type :=
| NothingToResume
| Failed (e : CliError)
| Ready (state : RunnerState.t).

(** The [resume] command from [stepLogger.getAllLogs()] up to the call of
    [runner.resume(state, ...)]: the state it passes. *)
Definition prepareResume (stepLogger : StepLogger.t) (startStep : option string)
    (steps : list PipelineStep) (fs : StepLogger.FS) : Prepared :=
  let logs := StepLogger.getAllLogs stepLogger fs in
  if decide (length logs = 0%nat) then NothingToResume
  else
    match inferResumeStepId logs startStep steps with
    | inl e => Failed e
    | inr inferredStepId =>
        let state := StepLogger.buildRunnerState stepLogger (Some inferredStepId) fs in
        Ready
          {| RunnerState.currentStepId := inferredStepId;
             RunnerState.stepIndex :=
               Z.max (findIndex (fun step => bool_decide (id step = inferredStepId)) steps) 0;
             RunnerState.completedStepIds := RunnerState.completedStepIds state;
             RunnerState.failedStepIds := RunnerState.failedStepIds state;
             RunnerState.payload := RunnerState.payload state |}
    end.

End Cli.

(** ** The fetchers (src/fetchers/api-fetcher, src/fetchers/html-fetcher)

    The request configuration, the classification of errors and the pacing
    of requests.  The HTTP exchange itself and the retry library are not
    modelled; the numbers of the rate limit, of the delays and of the clock
    are integers, and a quotient is the one number that may not be
    finite. *)

(** [Buffer.from(text).toString('base64')]; a string is the sequence of its
    bytes. *)
Module Base64.

Definition alphabet : string :=
  "ABCDEFGHIJKLMNOPQRSTUVWXYZabcdefghijklmnopqrstuvwxyz0123456789+/".

Definition digit (n : N) : Ascii.ascii :=
  match String.get (N.to_nat n) alphabet with
  | Some c => c
  | None => Ascii.ascii_of_nat 61
  end.

Fixpoint encodeBytes (bytes : list N) : string :=
  match bytes with
  | [] => EmptyString
  | [a] =>
      String (digit (a / 4)) (String (digit ((a mod 4) * 16)) "==")
  | [a; b] =>
      String (digit (a / 4))
        (String (digit ((a mod 4) * 16 + b / 16))
           (String (digit ((b mod 16) * 4)) "="))
  | a :: b :: c :: more =>
      String (digit (a / 4))
        (String (digit ((a mod 4) * 16 + b / 16))
           (String (digit ((b mod 16) * 4 + c / 64))
              (String (digit (c mod 64)) (encodeBytes more))))
  end%N.

Definition encode (text : string) : string :=
  encodeBytes (map Ascii.N_of_ascii (String.list_ascii_of_string text)).

End Base64.

(** [rateLimit], of the options of a fetcher or of the configuration. *)
Record RateLimit : Type := {
  requests : Z;
  perMilliseconds : Z;
}.

(** [context.config.rateLimit]: the configuration carries it among the
    fields the core does not read. *)
Definition configRateLimit (cfg : RunnerConfig) : option RateLimit :=
  match rest cfg !! "rateLimit" with
  | Some (JObj o) =>
      match o !! "requests", o !! "perMilliseconds" with
      | Some (JNum r), Some (JNum p) => Some {| requests := r; perMilliseconds := p |}
      | _, _ => None
      end
  | _ => None
  end.

(** What an [AxiosError] carries of the response. *)
Record AxiosResponse : Type := {
  status : Z;
  statusText : string;
  r_data : JsVal;
}.

(** A value caught by a fetcher: an axios error, another [Error], or
    anything else. *)
Inductive Caught : Type :=
| IsAxiosError (message : string) (code : option string) (response : option AxiosResponse)
| IsError (message : string)
| NotAnError (v : JsVal).

Module Fetcher.

(** The options the pacing reads, and the headers of [options.axios]. *)
Record Options : Type := {
  axiosHeaders : option (gmap string string);
  rateLimit : option RateLimit;
  minDelayMs : option Z;
}.

(** A JavaScript number that may not be finite. *)
Inductive Bound : Type :=
| Finite (b : Z)
| PlusInfinity
| MinusInfinity
| NotANumber.

(** [Math.ceil(a / b)] *)
Definition ceilDiv (a b : Z) : Bound :=
  if decide (b = 0) then
    if decide (a > 0) then PlusInfinity
    else if decide (a < 0) then MinusInfinity else NotANumber
  else Finite (- ((- a) / b)).

(** The number of milliseconds handed to [setTimeout]: a finite one, or
    [Infinity].  What the timer does with it is not modelled. *)
Inductive Duration : Type :=
| Ms (ms : Z)
| InfiniteMs.

(** [isRetryable]: the text is the same in both fetchers. *)
Definition isRetryable (error : Caught) : bool :=
  match error with
  | IsAxiosError _ _ response =>
      match response with
      | Some r =>
          if bool_decide (status r ≠ 0) && bool_decide (status r >= 400)
             && bool_decide (status r < 500) && bool_decide (status r ≠ 429)
          then false else true
      | None => true
      end
  | _ => false
  end.

(** [this.lastRequestAt ?? context.metadata.get(key)], when it is a
    number. *)
Definition lastRequest (key : string) (lastRequestAt : option Z) (ctx : ScrapeContext)
  : option Z :=
  match lastRequestAt with
  | Some t => Some t
  | None =>
      match metadata ctx !! key with
      | Some (JNum t) => Some t
      | _ => None
      end
  end.

(** [if (diff < bound) await this.delay(bound - diff)]: the timer set, if
    any; without a last request the difference is infinite, and no
    comparison with it, or with a bound that is not a number, holds. *)
Definition wait (last : option Z) (now : Z) (bound : Bound) : list Duration :=
  match last with
  | Some t =>
      match bound with
      | Finite b =>
          if decide (now - t < b) then
            if decide (b - (now - t) <= 0) then [] else [Ms (b - (now - t))]
          else []
      | PlusInfinity => [InfiniteMs]
      | MinusInfinity => []
      | NotANumber => []
      end
  | None => []
  end.

(** [applyDelays]: the timers it sets and awaits, in order; [now] is the
    one reading of the clock. *)
Definition applyDelays (key : string) (options : Options) (lastRequestAt : option Z)
    (now : Z) (ctx : ScrapeContext) : list Duration :=
  let rate :=
    match rateLimit options with
    | Some r => Some r
    | None => configRateLimit (config ctx)
    end in
  let last := lastRequest key lastRequestAt ctx in
  match rate with
  | Some r => wait last now (ceilDiv (perMilliseconds r) (requests r))
  | None => []
  end
  ++ match minDelayMs options with
     | Some m => if decide (m ≠ 0 ∧ m > 0) then wait last now (Finite m) else []
     | None => []
     end.

(** [markRequest]: the new [lastRequestAt] and the context. *)
Definition markRequest (key : string) (now : Z) (ctx : ScrapeContext)
  : option Z * ScrapeContext :=
  (Some now,
   {| runId := runId ctx; config := config ctx; data := data ctx;
      stepState := stepState ctx;
      metadata := <[key := JNum now]> (metadata ctx) |}).

End Fetcher.

Module ApiFetcher.

Definition METADATA_LAST_REQUEST : string := "api-fetcher:last-request-at".

Inductive Method : Type := GET | POST | PUT | PATCH | DELETE.

Inductive AuthType : Type := bearer | basic | custom.

Record Auth : Type := {
  type : AuthType;
  token : option string;
  username : option string;
  password : option string;
  header : option string;
  value : option string;
}.

(** [ApiFetcherRequest] without [retry] and [signal]. *)
Record ApiFetcherRequest : Type := {
  url : string;
  method : option Method;
  headers : option (gmap string string);
  params : option (gmap string JsVal);
  data : option JsVal;
  auth : option Auth;
}.

(** The [AxiosRequestConfig] that [buildRequestConfig] returns, without
    [signal]. *)
Record AxiosRequestConfig : Type := {
  c_method : Method;
  c_url : string;
  c_headers : gmap string string;
  c_params : option (gmap string JsVal);
  c_data : option JsVal;
}.

Record ApiFetcherError : Type := {
  e_message : string;
  e_status : option Z;
  e_statusText : option string;
  e_data : option JsVal;
  e_code : option string;
  e_isRetryable : bool;
}.

Definition applyAuth (headers : gmap string string) (auth : Auth)
  : gmap string string :=
  match type auth with
  | bearer =>
      match truthy (token auth) with
      | Some t => <["authorization" := ("Bearer " ++ t)%string]> headers
      | None => headers
      end
  | basic =>
      match truthy (username auth), truthy (password auth) with
      | Some u, Some p =>
          <["authorization" := ("Basic " ++ Base64.encode (u ++ ":" ++ p))%string]> headers
      | _, _ => headers
      end
  | custom =>
      match truthy (header auth), truthy (value auth) with
      | Some h, Some v => <[h := v]> headers
      | _, _ => headers
      end
  end.

Definition buildRequestConfig (options : Fetcher.Options) (request : ApiFetcherRequest)
  : AxiosRequestConfig :=
  let baseHeaders := default ∅ (Fetcher.axiosHeaders options) in
  let headers := default ∅ (headers request) ∪ baseHeaders in
  {| c_method := default GET (method request);
     c_url := url request;
     c_headers :=
       match auth request with
       | Some a => applyAuth headers a
       | None => headers
       end;
     c_params := params request;
     c_data := data request |}.

Definition isRetryable : Caught → bool := Fetcher.isRetryable.

Definition createError (error : Caught) : ApiFetcherError :=
  match error with
  | IsAxiosError message code response =>
      {| e_message := if String.eqb message EmptyString then "API request failed" else message;
         e_status := status <$> response;
         e_statusText := statusText <$> response;
         e_data := r_data <$> response;
         e_code := code;
         e_isRetryable :=
           match response with
           | None => true
           | Some r => bool_decide (status r >= 500) || bool_decide (status r = 429)
           end |}
  | IsError message =>
      {| e_message := message; e_status := None; e_statusText := None; e_data := None;
         e_code := None; e_isRetryable := false |}
  | NotAnError _ =>
      {| e_message := "Unknown API error"; e_status := None; e_statusText := None;
         e_data := None; e_code := None; e_isRetryable := false |}
  end.

(** The [catch] of an attempt: a retryable error is thrown again as it is,
    any other aborts the retries. *)
Inductive Verdict : Type :=
| Rethrow (error : Caught)
| Abort (reason : Caught).

Definition onCaught (error : Caught) : Verdict :=
  if isRetryable error then Rethrow error
  else
    Abort match error with
          | NotAnError _ => IsError "API fetcher aborted"
          | _ => error
          end.

Definition applyDelays := Fetcher.applyDelays METADATA_LAST_REQUEST.
Definition markRequest := Fetcher.markRequest METADATA_LAST_REQUEST.

End ApiFetcher.

Module HtmlFetcher.

Definition METADATA_LAST_REQUEST : string := "html-fetcher:last-request-at".

Definition isRetryable : Caught → bool := Fetcher.isRetryable.
Definition applyDelays := Fetcher.applyDelays METADATA_LAST_REQUEST.
Definition markRequest := Fetcher.markRequest METADATA_LAST_REQUEST.

End HtmlFetcher.

(** ** Vocabulary of the statements *)

(** The dependencies a step declares ([dependencies] may be absent). *)
Definition deps (s : PipelineStep) : list string := default [] (dependencies s).

(** [dependsOn steps a b]: the step of id [a] declares [b]. *)
Definition dependsOn (steps : list PipelineStep) (a b : string) : Prop :=
  ∃ s, s ∈ steps ∧ id s = a ∧ b ∈ deps s.

(** No step reaches itself along declared dependencies. *)
Definition Acyclic (steps : list PipelineStep) : Prop :=
  ∀ x, ¬ tc (dependsOn steps) x x.

(** A step set that forms a valid DAG: the ids are unique, every declared
    dependency names a supplied step, and there is no cycle. *)
Record ValidDAG (steps : list PipelineStep) : Prop := {
  dag_ids : NoDup (map id steps);
  dag_closed : ∀ s d, s ∈ steps → d ∈ deps s → d ∈ map id steps;
  dag_acyclic : Acyclic steps;
}.

(** Every step of [order] comes after all of its dependencies. *)
Definition DepsBefore (order : list PipelineStep) : Prop :=
  ∀ i s d, order !! i = Some s → d ∈ deps s → d ∈ map id (take i order).

(** The declared edges (dependency, dependent) in the order the second
    loop of the resolver meets them. *)
Definition edges (steps : list PipelineStep) : list (string * string) :=
  flat_map (fun s => map (fun d => (d, id s)) (deps s)) steps.

Definition edgesInto (k : string) (ed : list (string * string)) : Z :=
  Z.of_nat (length (filter (fun e => e.2 = k) ed)).

Definition dependentsOf (d : string) (ed : list (string * string)) : list string :=
  map snd (filter (fun e => e.1 = d) ed).

(** The maps of the resolver after the edges [ed] have been entered. *)
Record Linked (steps : list PipelineStep) (ed : list (string * string))
    (m : Resolver.Maps) : Prop := {
  lk_stepMap : Resolver.stepMap m = map (fun s => (id s, s)) steps;
  lk_keys : JsMap.keys (Resolver.inDegree m) = map id steps;
  lk_degree : ∀ k, k ∈ map id steps →
    JsMap.get k (Resolver.inDegree m) = Some (edgesInto k ed);
  lk_graph : ∀ d, d ∈ map id steps →
    JsMap.get d (Resolver.graph m) = Some (dependentsOf d ed);
}.

(** The maps after the first loop, when the ids are unique. *)
Definition mapsOf (l : list PipelineStep) : Resolver.Maps :=
  {| Resolver.stepMap := map (fun s => (id s, s)) l;
     Resolver.inDegree := map (fun s => (id s, 0)) l;
     Resolver.graph := map (fun s => (id s, [])) l |}.

(** Number of occurrences of [k] in [l]. *)
Definition occ (k : string) (l : list string) : nat :=
  length (filter (fun x => x = k) l).

(** Declared dependencies of [s] that are not among [done]. *)
Definition unresolvedDeps (done : list string) (s : PipelineStep) : list string :=
  filter (fun d => d ∉ done) (deps s).

(** What the loop of the resolver maintains on a valid DAG. *)
Record KahnInv (steps : list PipelineStep) (st : Resolver.Loop) : Prop := {
  inv_nodup : NoDup (map id (Resolver.result st) ++ Resolver.queue st);
  inv_known : ∀ k, k ∈ map id (Resolver.result st) ++ Resolver.queue st →
    k ∈ map id steps;
  inv_degree : ∀ s, s ∈ steps →
    Resolver.degree (id s) (Resolver.degrees st) =
    Z.of_nat (length (unresolvedDeps (map id (Resolver.result st)) s));
  inv_ready : ∀ s, s ∈ steps →
    Resolver.degree (id s) (Resolver.degrees st) = 0 →
    id s ∈ map id (Resolver.result st) ++ Resolver.queue st;
  inv_queue : ∀ k, k ∈ Resolver.queue st →
    Resolver.degree k (Resolver.degrees st) = 0;
  inv_before : DepsBefore (Resolver.result st);
  inv_steps : ∀ s, s ∈ Resolver.result st → s ∈ steps;
}.

(** A walk along a relation: every element is related to the next. *)
Fixpoint chain {A} (R : relation A) (l : list A) : Prop :=
  match l with
  | [] => True
  | x :: l' =>
      match l' with
      | [] => True
      | y :: _ => R x y ∧ chain R l'
      end
  end.

(** *** Traces of the runner *)

(** A call that returned. *)
Definition quiet (c : Call) : Prop := c_thrown c = None.

(** A call without the contexts: who was called, for which step, with which
    event and which [error]. *)
Definition Shape : Type :=
  (Callee * PipelineStep * StepLifecycleEvent * option RunnerError)%type.

Definition shape (c : Call) : Shape := (callee c, c_step c, c_event c, c_error c).

Definition isRun (c : Call) : Prop := callee c = StepRun.

Global Instance isRun_dec c : Decision (isRun c).
Proof. unfold isRun. apply _. Defined.

(** The steps whose body was called, in call order. *)
Definition bodies (cs : list Call) : list PipelineStep :=
  map c_step (filter isRun cs).

(** The shared context is handed from one callee to the next. *)
Fixpoint chained (ctx : ScrapeContext) (cs : list Call) : Prop :=
  match cs with
  | [] => True
  | c :: cs' => c_context c = ctx ∧ chained (c_left c) cs'
  end.

Definition eventOf (step : PipelineStep) (i total : Z) : StepLifecycleEvent :=
  {| ev_stepId := id step; stepIndex := i; totalSteps := total |}.

Definition present {A} (hook : option A) (s : Shape) : list Shape :=
  match hook with
  | Some _ => [s]
  | None => []
  end.

(** The hooks before the body: runner-level, then step-level. *)
Definition beforeShapes (this : ScrapeRunnerImpl.t) (step : PipelineStep)
    (ev : StepLifecycleEvent) : list Shape :=
  present (ScrapeRunnerImpl.runnerHook this Lifecycle.beforeStep) (RunnerBeforeStep, step, ev, None)
  ++ present (beforeStep step) (StepBeforeStep, step, ev, None).

(** The hooks after the body: runner-level, then step-level. *)
Definition afterShapes (this : ScrapeRunnerImpl.t) (step : PipelineStep)
    (ev : StepLifecycleEvent) : list Shape :=
  present (ScrapeRunnerImpl.runnerHook this Lifecycle.afterStep) (RunnerAfterStep, step, ev, None)
  ++ present (afterStep step) (StepAfterStep, step, ev, None).

(** One round of [onError]: runner-level, then step-level, with the error
    event of [e]. *)
Definition errorShapes (this : ScrapeRunnerImpl.t) (step : PipelineStep)
    (ev : StepLifecycleEvent) (e : RunnerError) : list Shape :=
  present (ScrapeRunnerImpl.runnerHook this Lifecycle.onError) (RunnerOnError, step, ev, Some e)
  ++ present (onError step) (StepOnError, step, ev, Some e).

(** The calls of a step that runs without error. *)
Definition successShapes (this : ScrapeRunnerImpl.t) (step : PipelineStep)
    (ev : StepLifecycleEvent) : list Shape :=
  beforeShapes this step ev ++ [(StepRun, step, ev, None)] ++ afterShapes this step ev.

(** Calling the callees [exp] in turn: either all returned, or one threw and
    the later ones were not called. *)
Inductive Fired (exp : list Shape) : list Call → RunnerError + unit → Prop :=
| fired_all cs :
    map shape cs = exp → Forall quiet cs → Fired exp cs (inr ())
| fired_threw cs c v :
    map shape (cs ++ [c]) `prefix_of` exp → Forall quiet cs →
    c_thrown c = Some v → Fired exp (cs ++ [c]) (inl (Thrown v)).

(** What is rethrown after a round of hooks: the error at hand, unless a
    hook threw. *)
Definition rethrown (e : RunnerError) (out : RunnerError + unit) : RunnerError :=
  match out with
  | inl e' => e'
  | inr _ => e
  end.

(** The calls of one [executeStep] and how it ends. *)
Inductive ExecTrace (this : ScrapeRunnerImpl.t) (step : PipelineStep)
    (ev : StepLifecycleEvent) : list Call → RunnerError + unit → Prop :=
| exec_before bs e :
    Fired (beforeShapes this step ev) bs (inl e) →
    ExecTrace this step ev bs (inl e)
| exec_body bs rc v es out :
    Fired (beforeShapes this step ev) bs (inr ()) →
    shape rc = (StepRun, step, ev, None) → c_thrown rc = Some v →
    Fired (errorShapes this step ev (Thrown v)) es out →
    ExecTrace this step ev (bs ++ rc :: es) (inl (rethrown (Thrown v) out))
| exec_after bs rc afters out :
    Fired (beforeShapes this step ev) bs (inr ()) →
    shape rc = (StepRun, step, ev, None) → quiet rc →
    Fired (afterShapes this step ev) afters out →
    ExecTrace this step ev (bs ++ rc :: afters) out.

(** The calls of the [for] loop from counter [i] on, what it adds to the
    two accumulators, and how it ends. *)
Inductive LoopTrace (this : ScrapeRunnerImpl.t) (start total : Z)
  : nat → list PipelineStep → list Call → list string → list string →
    RunnerError + unit → Prop :=
| loop_done i :
    LoopTrace this start total i [] [] [] [] (inr ())
| loop_ok i step todo cs later completed failed out :
    ExecTrace this step (eventOf step (start + Z.of_nat i) total) cs (inr ()) →
    LoopTrace this start total (S i) todo later completed failed out →
    LoopTrace this start total i (step :: todo) (cs ++ later)
      (id step :: completed) failed out
| loop_fail i step todo cs e outer out :
    ExecTrace this step (eventOf step (start + Z.of_nat i) total) cs (inl e) →
    Fired (errorShapes this step (eventOf step (start + Z.of_nat i) total) e)
      outer out →
    LoopTrace this start total i (step :: todo) (cs ++ outer) [] [id step]
      (inl (rethrown e out)).

(** The start index an entry point computes from the resolved order. *)
Definition startIndexOf (entry : ScrapeRunnerImpl.Entry) (ordered : list PipelineStep)
  : Z :=
  match entry with
  | ScrapeRunnerImpl.Run options =>
      match RunOptions.startStepId options with
      | Some sid =>
          if decide (sid = EmptyString) then 0
          else findIndex (fun s => bool_decide (id s = sid)) ordered
      | None => 0
      end
  | ScrapeRunnerImpl.Resume state _ => RunnerState.stepIndex state
  end.

(** What the accumulators start from. *)
Definition seedCompleted (entry : ScrapeRunnerImpl.Entry) : list string :=
  match entry with
  | ScrapeRunnerImpl.Run _ => []
  | ScrapeRunnerImpl.Resume state _ => RunnerState.completedStepIds state
  end.

Definition seedFailed (entry : ScrapeRunnerImpl.Entry) : list string :=
  match entry with
  | ScrapeRunnerImpl.Run _ => []
  | ScrapeRunnerImpl.Resume state _ => RunnerState.failedStepIds state
  end.

(** The context a run starts with. *)
Definition initialContext (this : ScrapeRunnerImpl.t) (rid : string)
    (entry : ScrapeRunnerImpl.Entry) : ScrapeContext :=
  match entry with
  | ScrapeRunnerImpl.Run options =>
      ScrapeContextImpl (ScrapeRunnerImpl.mergedConfig this options) rid
  | ScrapeRunnerImpl.Resume state options =>
      seedData (RunnerState.payload state)
        (ScrapeContextImpl (ScrapeRunnerImpl.mergedConfig this options) rid)
  end.

(** The context as the last of the calls [cs] left it. *)
Definition contextAfter (ctx : ScrapeContext) (cs : list Call) : ScrapeContext :=
  match last cs with
  | Some c => c_left c
  | None => ctx
  end.

(** [w'] is [w] after the calls [cs], the accumulators untouched. *)
Record Frame (w w' : World) (cs : list Call) : Prop := {
  fr_calls : calls w' = calls w ++ cs;
  fr_completed : completedSteps w' = completedSteps w;
  fr_failed : failedSteps w' = failedSteps w;
  fr_chained : chained (context w) cs;
  fr_context : context w' = contextAfter (context w) cs;
}.

(** Steps paired with their loop index, counted from [start]. *)
Fixpoint indexed (start : Z) (l : list PipelineStep) : list (PipelineStep * Z) :=
  match l with
  | [] => []
  | s :: l' => (s, start) :: indexed (start + 1) l'
  end.

(** The calls of the steps [l] when each runs without error. *)
Definition successRun (this : ScrapeRunnerImpl.t) (total : Z)
    (l : list (PipelineStep * Z)) : list Shape :=
  flat_map (fun p => successShapes this p.1 (eventOf p.1 p.2 total)) l.

(** A hook call of a step: not a body, and on that step and event. *)
Definition hookOf (step : PipelineStep) (ev : StepLifecycleEvent) (c : Call) : Prop :=
  ¬ isRun c ∧ c_step c = step ∧ c_event c = ev.

(** *** Sample pipelines *)

Definition noop : Callback := fun ctx => (ctx, None).

Definition throwing (v : JsVal) : Callback := fun ctx => (ctx, Some v).

(** A step without hooks. *)
Definition plainStep (stepId : string) (ds : list string) (body : Callback)
  : PipelineStep :=
  {| id := stepId; dependencies := Some ds; run := body;
     beforeStep := None; afterStep := None; onError := None |}.

(** A step with all three hooks, none of which does anything. *)
Definition hookedStep (stepId : string) (ds : list string) (body : Callback)
  : PipelineStep :=
  {| id := stepId; dependencies := Some ds; run := body;
     beforeStep := Some (fun _ => noop); afterStep := Some (fun _ => noop);
     onError := Some (fun _ => noop) |}.

Definition stepA : PipelineStep := plainStep "A" [] noop.
Definition stepB : PipelineStep := plainStep "B" ["A"] noop.
Definition stepC : PipelineStep := plainStep "C" ["B"] noop.

Definition sampleConfig : RunnerConfig :=
  {| mode := development; delay := 100; maxItems := None; resumeFromLog := None;
     rest := ∅ |}.

(** [A -> {}], [B -> {A}], [C -> {B}], supplied as [C, A, B]. *)
Definition sampleRunner : ScrapeRunnerImpl.t :=
  {| ScrapeRunnerImpl.config := sampleConfig;
     ScrapeRunnerImpl._steps := [stepC; stepA; stepB];
     ScrapeRunnerImpl.lifecycle := None |}.

Definition sampleRank (k : string) : nat :=
  if String.eqb k "A" then 0 else if String.eqb k "B" then 1 else 2.

Definition observers : Lifecycle.t :=
  {| Lifecycle.beforeStep := Some (fun _ => noop);
     Lifecycle.afterStep := Some (fun _ => noop);
     Lifecycle.onError := Some (fun _ => noop) |}.

(** The same pipeline with hooks everywhere and a body of [B] that throws. *)
Definition failingB : PipelineStep := hookedStep "B" ["A"] (throwing (JStr "boom")).

Definition failingRunner : ScrapeRunnerImpl.t :=
  {| ScrapeRunnerImpl.config := sampleConfig;
     ScrapeRunnerImpl._steps :=
       [hookedStep "C" ["B"] noop; hookedStep "A" [] noop; failingB];
     ScrapeRunnerImpl.lifecycle := Some observers |}.


(** A mutual cycle, and a cycle next to a dangling dependency. *)
Definition cyclicSteps : list PipelineStep :=
  [plainStep "A" ["B"] noop; plainStep "B" ["A"] noop].

Definition danglingSteps : list PipelineStep :=
  [plainStep "A" ["B"] noop; plainStep "B" ["A"] noop; plainStep "C" ["Z"] noop].

Definition sampleState : RunnerState.t :=
  {| RunnerState.currentStepId := "B"; RunnerState.stepIndex := 1;
     RunnerState.completedStepIds := ["A"]; RunnerState.failedStepIds := [];
     RunnerState.payload := Some {["seen" := JNum 3]} |}.

Definition runnerOf (steps : list PipelineStep) : ScrapeRunnerImpl.t :=
  {| ScrapeRunnerImpl.config := sampleConfig;
     ScrapeRunnerImpl._steps := steps;
     ScrapeRunnerImpl.lifecycle := None |}.



Definition lateState : RunnerState.t :=
  {| RunnerState.currentStepId := "C"; RunnerState.stepIndex := 3;
     RunnerState.completedStepIds := []; RunnerState.failedStepIds := [];
     RunnerState.payload := None |}.

(** *** Sample stores *)

(** A logger of run [r] that persists, and one that, configured to persist
    in production only, runs in development on the same directory. *)
Definition productionLogger : StepLogger.t :=
  {| StepLogger.logDir := "./logs"; StepLogger.runId := "r";
     StepLogger.persistInProductionOnly := true; StepLogger.isProduction := true |}.

Definition developmentLogger : StepLogger.t :=
  {| StepLogger.logDir := "./logs"; StepLogger.runId := "r";
     StepLogger.persistInProductionOnly := true; StepLogger.isProduction := false |}.

(** [step-1] at index [5] with one recorded failure. *)
Definition sampleStore : StepLogger.FS :=
  StepLogger.setLogForCurrentStepFails productionLogger 2 "step-1"
    (StepLogger.FailNum 1)
    (StepLogger.setLogForCurrentStepIndex productionLogger 1 "step-1" 5 ∅).

(** The records [{step1: index=0}], [{step2: index=10}]. *)
Definition twoStepStore : StepLogger.FS :=
  StepLogger.setLogForCurrentStepIndex productionLogger 2 "step2" 10
    (StepLogger.setLogForCurrentStepIndex productionLogger 1 "step1" 0 ∅).

(** A pipeline for those two steps: [step2] depends on [step1]. *)
Definition twoStepPipeline : list PipelineStep :=
  [plainStep "step1" [] noop; plainStep "step2" ["step1"] noop].

(** A log that is not in progress. *)
Definition idle (log : StepLogger.StepLogRecord) : Prop :=
  ¬ 0 < StepLogger.index log.

(** *** Reading the trace of the iteration controller *)

Section LoopVocabulary.
Context {E T : Type}.

(** The indices the item callback was called with, in call order. *)
Definition todoCalls (tr : list (LoopController.Event T)) : list Z :=
  omap (fun ev => match ev with LoopController.CallTodo i => Some i | _ => None end) tr.

(** The indices handed to the persist callback. *)
Definition setLogCalls (tr : list (LoopController.Event T)) : list Z :=
  omap (fun ev => match ev with LoopController.CallSetLog i => Some i | _ => None end) tr.

(** The arguments of the calls of the failure callback. *)
Definition failureCalls (tr : list (LoopController.Event T))
  : list (Z * JsVal * option T) :=
  omap (fun ev =>
          match ev with
          | LoopController.CallOnFailure i v item => Some (i, v, item)
          | _ => None
          end) tr.

(** The lists handed to the completion callback. *)
Definition doneCalls (tr : list (LoopController.Event T)) : list (list T) :=
  omap (fun ev => match ev with LoopController.CallDone l => Some l | _ => None end) tr.

(** An optional callback that, when there, never throws. *)
Definition quietObserver {A} (cb : option (A → LoopController.Fn (E := E) unit)) : Prop :=
  ∀ f a e, cb = Some f → (f a e).2 = inr ().


Definition quietFailure (this : LoopController.t E T) : Prop :=
  ∀ f i v item e, LoopController.onFailure this = Some f → (f i v item e).2 = inr ().

(** The bound after the safety cap. *)
Definition cappedLimit (this : LoopController.t E T) (limit : Z) : Z :=
  if negb (LoopController.isProduction this)
     && bool_decide (limit > LoopController.maxItems this)
  then LoopController.maxItems this else limit.

(** The observable part of a state of the controller. *)
Record View : Type := {
  v_index : Z;
  v_limit : Z;
  v_armed : bool;
  v_todo : list Z;
  v_setLog : list Z;
  v_onFailure : list (Z * JsVal * option T);
  v_done : list (list T);
  v_failures : list (LoopController.LoopFailure T);
}.

Definition view (st : LoopController.State E T) : View :=
  {| v_index := LoopController.currentIndex st;
     v_limit := LoopController.adjustedLimit st;
     v_armed := LoopController.intervalId st;
     v_todo := todoCalls (LoopController.trace st);
     v_setLog := setLogCalls (LoopController.trace st);
     v_onFailure := failureCalls (LoopController.trace st);
     v_done := doneCalls (LoopController.trace st);
     v_failures := LoopController.failures st |}.

Definition whenSome {A B} (cb : option A) (l : list B) : list B :=
  match cb with
  | Some _ => l
  | None => []
  end.



(** The tick that finds the bound passed. *)
Definition finishView (this : LoopController.t E T) (l : list T) (v : View) : View :=
  {| v_index := v_index v; v_limit := v_limit v; v_armed := false;
     v_todo := v_todo v;
     v_setLog := v_setLog v
                 ++ whenSome (LoopController.setLogForCurrentStepIndex this) [0];
     v_onFailure := v_onFailure v; v_done := v_done v ++ [l];
     v_failures := v_failures v |}.

End LoopVocabulary.

(** *** Sample controllers *)

(** Observers that do nothing, over items of type [nat] and no captured
    state. *)
Definition watchedController : LoopController.t unit nat :=
  LoopController.new
    {| LoopController.opt_isProduction := None;
       LoopController.opt_maxItems := None;
       LoopController.opt_onProgress := Some (fun _ _ _ e => (e, inr ()));
       LoopController.opt_onFailure := Some (fun _ _ _ e => (e, inr ()));
       LoopController.opt_getCurrentStepValue := None;
       LoopController.opt_setLogForCurrentStepIndex := Some (fun _ e => (e, inr ())) |}.

(** The same controller with an accessor that reports the position [p]. *)
Definition resumingController (p : Z) : LoopController.t unit nat :=
  LoopController.new
    {| LoopController.opt_isProduction := None;
       LoopController.opt_maxItems := None;
       LoopController.opt_onProgress := Some (fun _ _ _ e => (e, inr ()));
       LoopController.opt_onFailure := Some (fun _ _ _ e => (e, inr ()));
       LoopController.opt_getCurrentStepValue := Some (fun e => (e, p));
       LoopController.opt_setLogForCurrentStepIndex := Some (fun _ e => (e, inr ())) |}.

(** An item callback that fails on index [2] only. *)
Definition failsOnTwo : LoopController.Task unit nat :=
  {| LoopController.todo := fun i l e =>
       (e, l, if decide (i = 2) then Some (JStr "bad item") else None);
     LoopController.done := fun l e => (e, l, None);
     LoopController.delay := 1000 |}.

Definition sevenTicks : list Z := [1000; 2000; 3000; 4000; 5000; 6000; 7000].

(** *** Further vocabulary of the runner *)

(** What the loop of the resolver maintains on any input: an id is dequeued
    at most once, and only once its in-degree has reached zero. *)
Record LoopInv (m : Resolver.Maps) (st : Resolver.Loop) : Prop := {
  li_nodup : NoDup (map id (Resolver.result st) ++ Resolver.queue st);
  li_low : ∀ k, k ∈ map id (Resolver.result st) ++ Resolver.queue st →
    Resolver.degree k (Resolver.degrees st) <= 0;
  li_known : ∀ s, s ∈ Resolver.result st → id s ∈ JsMap.keys (Resolver.stepMap m);
}.

(** The step map holds each step under its own id. *)
Definition keyed (sm : JsMap.t PipelineStep) : Prop :=
  ∀ k s, JsMap.get k sm = Some s → id s = k.

(** The value thrown by the last call that threw. *)
Definition lastThrown (cs : list Call) : option JsVal := last (omap c_thrown cs).

(** How a sequence of calls ended, read off its calls. *)
Definition outcome (cs : list Call) : RunnerError + unit :=
  match lastThrown cs with
  | Some v => inl (Thrown v)
  | None => inr ()
  end.


Definition afterCall (c : Call) : Prop :=
  callee c = RunnerAfterStep ∨ callee c = StepAfterStep.

Global Instance afterCall_dec c : Decision (afterCall c).
Proof. unfold afterCall. apply _. Defined.


(** What the runner rejects with on its own account, before any call. *)
Definition runnerOwnError (e : RunnerError) : Prop :=
  match e with
  | Thrown _ => False
  | _ => True
  end.


(** *** Further sample pipelines *)

(** The sample pipeline with hooks everywhere, where the [beforeStep] hook
    of [B] throws. *)
Definition guardedB : PipelineStep :=
  {| id := "B"; dependencies := Some ["A"]; run := noop;
     beforeStep := Some (fun _ => throwing (JStr "denied"));
     afterStep := Some (fun _ => noop);
     onError := Some (fun _ => noop) |}.

Definition guardedRunner : ScrapeRunnerImpl.t :=
  {| ScrapeRunnerImpl.config := sampleConfig;
     ScrapeRunnerImpl._steps :=
       [hookedStep "C" ["B"] noop; hookedStep "A" [] noop; guardedB];
     ScrapeRunnerImpl.lifecycle := Some observers |}.




(** Options that start the run at step [B]. *)
Definition fromB : RunOptions.t :=
  {| RunOptions.mode := None; RunOptions.maxItems := None; RunOptions.delay := None;
     RunOptions.startStepId := Some "B"; RunOptions.resumeState := None |}.

(** *** The operations of the state store *)

(** The operations of [StepLogger] that write for one step. *)
Inductive StoreOp : Type :=
| SetIndex (index : Z)
| RecordFailure (failureId : StepLogger.FailureId)
| SetPayload (payload : gmap string JsVal)
| ClearStep.

(** The operation [op] for step [sid], at the clock reading [now]. *)
Definition perform (this : StepLogger.t) (now : Z) (sid : string) (op : StoreOp)
    (fs : StepLogger.FS) : StepLogger.FS :=
  match op with
  | SetIndex index => StepLogger.setLogForCurrentStepIndex this now sid index fs
  | RecordFailure failureId => StepLogger.setLogForCurrentStepFails this now sid failureId fs
  | SetPayload payload => StepLogger.setStepPayload this now sid payload fs
  | ClearStep => StepLogger.clearStep this sid fs
  end.

(** The file of step [sid] holds nothing, or a record of that step. *)
Definition ownRecord (this : StepLogger.t) (sid : string) (fs : StepLogger.FS) : Prop :=
  ∀ now, StepLogger.stepId (StepLogger.getLogByStep this now sid fs) = sid.

(** The payload of the last record of step [s] that has one. *)
Definition lastPayload (s : string) (logs : list StepLogger.StepLogRecord)
  : option (gmap string JsVal) :=
  last (omap (fun log =>
                if decide (StepLogger.stepId log = s) then StepLogger.payload log
                else None) logs).


(** *** Further sample stores *)

(** [step-1] with a payload, next to a file that does not parse and a file
    of another name. *)
Definition payloadStore : StepLogger.FS :=
  StepLogger.setStepPayload productionLogger 3 "step-1" {["page" := JNum 4]}
    (StepLogger.setLogForCurrentStepFails productionLogger 2 "step-1"
       (StepLogger.FailNum 1)
       (StepLogger.setLogForCurrentStepIndex productionLogger 1 "step-1" 5
          {["./logs" := [("r-broken.json", StepLogger.Malformed "{");
                         ("notes.txt", StepLogger.Malformed "hello")]]})).

(** *** Further vocabulary of the iteration controller *)

Section LoopEffects.
Context {E T : Type}.

(** What one tick added to the trace and to the failures. *)
Record TickEffect (st st' : LoopController.State E T)
    (new : list (LoopController.Event T))
    (captured : list (LoopController.LoopFailure T)) : Prop := {
  te_trace : LoopController.trace st' = LoopController.trace st ++ new;
  te_failures : LoopController.failures st' = LoopController.failures st ++ captured;
  te_limit : LoopController.adjustedLimit st' = LoopController.adjustedLimit st;
  te_index :
    LoopController.currentIndex st <= LoopController.currentIndex st'
    <= LoopController.currentIndex st + 1;
  te_armed :
    LoopController.intervalId st' = true →
    LoopController.intervalId st = true ∧ doneCalls new = [];
  te_todo :
    todoCalls new = [] ∧ captured = []
    ∨ todoCalls new = [LoopController.currentIndex st] ∧
      LoopController.currentIndex st <= LoopController.adjustedLimit st ∧
      (captured = [] ∨
       ∃ f, captured = [f] ∧ LoopController.index f = LoopController.currentIndex st);
  te_done :
    doneCalls new = []
    ∨ ∃ earlier l, new = earlier ++ [LoopController.CallDone l] ∧
                   doneCalls earlier = [] ∧
                   LoopController.intervalId st' = false;
}.

(** Every tick of a stalled loop retries the same index. *)
Definition stalledAt (i : Z) (task : LoopController.Task E T)
    (this : LoopController.t E T) : Prop :=
  (∀ l e, ∃ v, (LoopController.todo task i l e).2 = Some v) ∧
  (∃ f, LoopController.onFailure this = Some f ∧
        ∀ v item e, ∃ v', (f i v item e).2 = inl v').

End LoopEffects.

(** *** Further sample controllers *)

(** A controller whose persist callback always throws. *)
Definition brittleController : LoopController.t unit nat :=
  LoopController.new
    {| LoopController.opt_isProduction := None;
       LoopController.opt_maxItems := None;
       LoopController.opt_onProgress := Some (fun _ _ _ e => (e, inr ()));
       LoopController.opt_onFailure := Some (fun _ _ _ e => (e, inr ()));
       LoopController.opt_getCurrentStepValue := None;
       LoopController.opt_setLogForCurrentStepIndex :=
         Some (fun _ e => (e, inl (JStr "disk full"))) |}.

(** A controller whose failure callback always throws. *)
Definition stubbornController : LoopController.t unit nat :=
  LoopController.new
    {| LoopController.opt_isProduction := None;
       LoopController.opt_maxItems := None;
       LoopController.opt_onProgress := None;
       LoopController.opt_onFailure := Some (fun _ _ _ e => (e, inl (JStr "again")));
       LoopController.opt_getCurrentStepValue := None;
       LoopController.opt_setLogForCurrentStepIndex := None |}.

(** *** Sample command-line runs *)

(** Options without any field. *)
Definition noLoggerOptions : StepLogger.Options.t :=
  {| StepLogger.Options.logDir := None; StepLogger.Options.runId := None;
     StepLogger.Options.persistInProductionOnly := None;
     StepLogger.Options.isProduction := None |}.

(** The logger the CLI creates for run [r] in development mode. *)
Definition cliLogger : StepLogger.t :=
  Cli.createStepLogger
    {| StepLogger.Options.logDir := Some "./logs"; StepLogger.Options.runId := Some "r";
       StepLogger.Options.persistInProductionOnly := None;
       StepLogger.Options.isProduction := Some false |} "development-0".

(** Three steps in an order that is already the resolved one. *)
Definition chainPipeline : list PipelineStep := [stepA; stepB; stepC].

(** A pipeline whose resolved order, [A, C, B], differs from the order it is
    supplied in. *)
Definition forkPipeline : list PipelineStep :=
  [stepA; stepB; plainStep "C" [] noop].

(** Step [B] in progress at index 1, step [A] done. *)
Definition interruptedStore : StepLogger.FS :=
  StepLogger.setLogForCurrentStepIndex cliLogger 3 "B" 1
    (StepLogger.setLogForCurrentStepIndex cliLogger 2 "A" 0
       (StepLogger.setLogForCurrentStepIndex cliLogger 1 "A" 0 ∅)).


(** The state the [resume] command builds for the chain pipeline from the
    interrupted store. *)
Definition resumedState : RunnerState.t :=
  {| RunnerState.currentStepId := "B"; RunnerState.stepIndex := 1;
     RunnerState.completedStepIds := ["A"]; RunnerState.failedStepIds := [];
     RunnerState.payload := Some ∅ |}.

(** *** Vocabulary of the fetchers *)

(** The timer is set for a positive number of milliseconds. *)
Definition waits (d : Fetcher.Duration) : Prop :=
  match d with
  | Fetcher.Ms ms => 0 < ms
  | Fetcher.InfiniteMs => True
  end.

(** The bound has elapsed once [d] milliseconds have passed. *)
Definition elapsed (bound : Fetcher.Bound) (d : Z) : Prop :=
  match bound with
  | Fetcher.Finite b => b <= d
  | Fetcher.PlusInfinity => False
  | Fetcher.MinusInfinity => True
  | Fetcher.NotANumber => True
  end.

(** *** Sample requests *)

Definition basicAuth (u p : option string) : ApiFetcher.Auth :=
  {| ApiFetcher.type := ApiFetcher.basic; ApiFetcher.token := None;
     ApiFetcher.username := u; ApiFetcher.password := p;
     ApiFetcher.header := None; ApiFetcher.value := None |}.

Definition bearerAuth (t : option string) : ApiFetcher.Auth :=
  {| ApiFetcher.type := ApiFetcher.bearer; ApiFetcher.token := t;
     ApiFetcher.username := None; ApiFetcher.password := None;
     ApiFetcher.header := None; ApiFetcher.value := None |}.

(** A request with an [authorization] header of its own. *)
Definition sampleRequest (a : option ApiFetcher.Auth) : ApiFetcher.ApiFetcherRequest :=
  {| ApiFetcher.url := "https://example.org/items"; ApiFetcher.method := None;
     ApiFetcher.headers := Some {["authorization" := "none"; "x-trace" := "1"]};
     ApiFetcher.params := None; ApiFetcher.data := None; ApiFetcher.auth := a |}.

Definition sampleFetcherOptions : Fetcher.Options :=
  {| Fetcher.axiosHeaders := Some {["accept" := "text/plain"; "x-trace" := "0"]};
     Fetcher.rateLimit := Some {| requests := 4; perMilliseconds := 1000 |};
     Fetcher.minDelayMs := Some 100 |}.

(** A not-modified response. *)
Definition notModified : Caught :=
  IsAxiosError "Request failed with status code 304" (Some "ERR_BAD_REQUEST")
    (Some {| status := 304; statusText := "Not Modified"; r_data := JNull |}).


(** * Part II: properties *)

(** ** Insertion-ordered maps *)

Section JsMapFacts.
Context {V : Type}.
Implicit Types (m : JsMap.t V) (k : string) (v : V).

Lemma JsMap_get_set_eq k v m : JsMap.get k (JsMap.set k v m) = Some v.
Proof.
  induction m as [|[k' v'] m IH]; simpl.
  - by rewrite String.eqb_refl.
  - destruct (String.eqb_spec k k') as [->|Hne]; simpl.
    + by rewrite String.eqb_refl.
    + by destruct (String.eqb_spec k k').
Qed.

Lemma JsMap_get_set_ne k k' v m :
  k ≠ k' → JsMap.get k' (JsMap.set k v m) = JsMap.get k' m.
Proof.
  intros Hne. induction m as [|[k0 v0] m IH]; simpl.
  - by destruct (String.eqb_spec k' k) as [->|].
  - destruct (String.eqb_spec k k0) as [Hk|Hk]; simpl.
    + subst k0. by destruct (String.eqb_spec k' k) as [->|].
    + by rewrite IH.
Qed.

Lemma JsMap_get_Some_keys k v m : JsMap.get k m = Some v → k ∈ JsMap.keys m.
Proof.
  induction m as [|[k' v'] m IH]; simpl; [done|].
  destruct (String.eqb_spec k k') as [->|Hne]; intros H.
  - apply elem_of_cons; by left.
  - apply elem_of_cons; right; auto.
Qed.

Lemma JsMap_keys_get k m : k ∈ JsMap.keys m → is_Some (JsMap.get k m).
Proof.
  induction m as [|[k' v'] m IH]; simpl.
  - intros H. by apply elem_of_nil in H.
  - intros [->|H]%elem_of_cons.
    + rewrite String.eqb_refl. eauto.
    + destruct (String.eqb_spec k k'); eauto.
Qed.

Lemma JsMap_get_None_keys k m : JsMap.get k m = None ↔ k ∉ JsMap.keys m.
Proof.
  split.
  - intros H Hin. apply JsMap_keys_get in Hin as [v Hv]. congruence.
  - intros H. destruct (JsMap.get k m) eqn:E; [|done].
    apply JsMap_get_Some_keys in E. done.
Qed.

(** [set] on a key that is present keeps the iteration order. *)
Lemma JsMap_keys_set_present k v m :
  k ∈ JsMap.keys m → JsMap.keys (JsMap.set k v m) = JsMap.keys m.
Proof.
  induction m as [|[k' v'] m IH]; simpl.
  - intros H. by apply elem_of_nil in H.
  - intros H. destruct (String.eqb_spec k k') as [->|Hne]; simpl; [done|].
    f_equal. apply IH. apply elem_of_cons in H as [?|?]; done.
Qed.

(** [set] on a new key appends it. *)
Lemma JsMap_set_absent k v m :
  k ∉ JsMap.keys m → JsMap.set k v m = m ++ [(k, v)].
Proof.
  induction m as [|[k' v'] m IH]; simpl; [done|].
  intros H. apply not_elem_of_cons in H as [Hne H].
  destruct (String.eqb_spec k k'); [done|]. f_equal. auto.
Qed.

Lemma JsMap_length_set k v m :
  (length m ≤ length (JsMap.set k v m))%nat.
Proof.
  induction m as [|[k' v'] m IH]; simpl; [lia|].
  destruct (String.eqb k k'); simpl; lia.
Qed.

(** Two maps with the same keys in the same order and the same bindings
    are the same list of entries. *)
Lemma JsMap_ext m m' :
  NoDup (JsMap.keys m) →
  JsMap.keys m = JsMap.keys m' →
  (∀ k, k ∈ JsMap.keys m → JsMap.get k m = JsMap.get k m') →
  m = m'.
Proof.
  revert m'. induction m as [|[k v] m IH]; intros [|[k' v'] m']; simpl; try done.
  intros Hnd [= <- Hk] Hget. apply NoDup_cons in Hnd as [Hk1 Hnd].
  pose proof (Hget k (list_elem_of_here _ _)) as Hkk.
  rewrite String.eqb_refl in Hkk. injection Hkk as <-.
  f_equal. apply IH; [done..|].
  intros k0 Hin. specialize (Hget k0 (list_elem_of_further _ _ _ Hin)).
  destruct (String.eqb_spec k0 k) as [Heq|]; [by subst|done].
Qed.

End JsMapFacts.

(** ** The resolver's loop terminates *)

Section ResolverTermination.
Import Resolver.

Lemma pending_set_Some k v v' (d : JsMap.t Z) :
  JsMap.get k d = Some v →
  (pending (JsMap.set k v' d) + (if decide (0 < v)%Z then 1 else 0)
   = pending d + (if decide (0 < v')%Z then 1 else 0))%nat.
Proof.
  unfold pending, JsMap.entries. induction d as [|[k0 v0] d IH]; simpl; [done|].
  destruct (String.eqb_spec k k0) as [Heq|Hne].
  - intros [= ->]. rewrite ?filter_cons; simpl.
    repeat case_decide; simpl; lia.
  - intros H. specialize (IH H). rewrite ?filter_cons; simpl.
    repeat case_decide; simpl in *; lia.
Qed.

Lemma pending_set_None k v' (d : JsMap.t Z) :
  JsMap.get k d = None →
  pending (JsMap.set k v' d) = (pending d + (if decide (0 < v')%Z then 1 else 0))%nat.
Proof.
  intros H. apply JsMap_get_None_keys in H.
  rewrite JsMap_set_absent by done. unfold pending, JsMap.entries.
  rewrite filter_app, length_app, filter_cons. simpl.
  case_decide; simpl; lia.
Qed.

Lemma relax_measure acc k :
  (pending (relax acc k).1 + length (relax acc k).2
   = pending acc.1 + length acc.2)%nat.
Proof.
  unfold relax, degree. simpl.
  destruct (JsMap.get k acc.1) as [v|] eqn:E; simpl.
  - pose proof (pending_set_Some k v (v - 1) _ E) as H.
    repeat case_decide; rewrite ?length_app; simpl in *; lia.
  - rewrite pending_set_None by done. simpl.
    repeat case_decide; rewrite ?length_app; simpl in *; lia.
Qed.

Lemma relax_all_measure ks acc :
  (pending (fold_left relax ks acc).1 + length (fold_left relax ks acc).2
   = pending acc.1 + length acc.2)%nat.
Proof.
  revert acc. induction ks as [|k ks IH]; intros acc; simpl; [done|].
  rewrite IH. apply relax_measure.
Qed.

Lemma iterate_measure m k rest st :
  queue st = k :: rest → S (measure (iterate m k rest st)) = measure st.
Proof.
  intros Hq. unfold measure, iterate. simpl.
  rewrite relax_all_measure, Hq. simpl. lia.
Qed.

(** With fuel for [measure st] iterations the queue is drained. *)
Lemma Resolver_drain_terminates fuel m st :
  (measure st ≤ fuel)%nat → queue (drain fuel m st) = [].
Proof.
  revert st. induction fuel as [|fuel IH]; intros st Hm; simpl.
  - unfold measure in Hm. destruct (queue st); [done|simpl in Hm; lia].
  - destruct (queue st) as [|k rest] eqn:Hq; [done|].
    apply IH. pose proof (iterate_measure m k rest st Hq). lia.
Qed.

(** Once drained, more fuel changes nothing: the bound on the iterations
    never cuts the loop short. *)
Lemma Resolver_drain_stable fuel extra m st :
  queue (drain fuel m st) = [] → drain (fuel + extra) m st = drain fuel m st.
Proof.
  revert st. induction fuel as [|fuel IH]; intros st; simpl.
  - intros Hq. destruct extra; simpl; [done|]. by rewrite Hq.
  - destruct (queue st) as [|k rest] eqn:Hq; [done|]. apply IH.
Qed.

Lemma initial_measure (d : JsMap.t Z) :
  (pending d + length (initialQueue d) ≤ length d)%nat.
Proof.
  unfold pending, initialQueue, JsMap.entries. rewrite length_map.
  induction d as [|[k v] d IH]; simpl; [done|].
  rewrite ?filter_cons; simpl. repeat case_decide; simpl; lia.
Qed.

Lemma Resolver_kahn_drains m : queue (kahn m) = [].
Proof.
  unfold kahn. apply Resolver_drain_terminates. unfold measure. simpl.
  apply initial_measure.
Qed.

End ResolverTermination.

(** ** The maps the resolver builds *)

Section ResolverLinking.
Import Resolver.

Lemma keys_map_id {V} (f : PipelineStep → V) l :
  JsMap.keys (map (fun s => (id s, f s)) l) = map id l.
Proof. unfold JsMap.keys. rewrite map_map. done. Qed.

Lemma registerAll_from pre steps :
  NoDup (map id (pre ++ steps)) →
  fold_left register steps (mapsOf pre) = mapsOf (pre ++ steps).
Proof.
  revert pre. induction steps as [|s steps IH]; intros pre Hnd; simpl.
  - by rewrite app_nil_r.
  - replace (pre ++ s :: steps) with ((pre ++ [s]) ++ steps) in *
      by (by rewrite <- app_assoc).
    rewrite <- IH by done. f_equal.
    assert (id s ∉ map id pre) as Hs.
    { rewrite !map_app in Hnd. apply NoDup_app in Hnd as [Hnd _].
      apply NoDup_app in Hnd as (_ & Hnd & _). intros Hin.
      apply (Hnd _ Hin). simpl. apply list_elem_of_here. }
    unfold register, mapsOf. simpl.
    rewrite !JsMap_set_absent by (by rewrite keys_map_id).
    by rewrite !map_app.
Qed.

Lemma registerAll_unique steps :
  NoDup (map id steps) → registerAll steps = mapsOf steps.
Proof. intros H. apply (registerAll_from [] steps H). Qed.

Lemma get_map_id {V} (f : PipelineStep → V) l s :
  NoDup (map id l) → s ∈ l →
  JsMap.get (id s) (map (fun s => (id s, f s)) l) = Some (f s).
Proof.
  induction l as [|x l IH]; simpl; intros Hnd Hin.
  - by apply elem_of_nil in Hin.
  - apply NoDup_cons in Hnd as [Hx Hnd].
    apply elem_of_cons in Hin as [->|Hin].
    + by rewrite String.eqb_refl.
    + destruct (String.eqb_spec (id s) (id x)) as [Heq|Hne]; [|auto].
      exfalso. apply Hx. rewrite <- Heq. by apply list_elem_of_fmap_2.
Qed.

Lemma Linked_initial steps :
  NoDup (map id steps) → Linked steps [] (mapsOf steps).
Proof.
  intros Hnd. split; simpl.
  - done.
  - apply keys_map_id.
  - intros k [s [-> Hs]]%list_elem_of_fmap.
    by rewrite (get_map_id (fun _ => 0)).
  - intros k [s [-> Hs]]%list_elem_of_fmap.
    by rewrite (get_map_id (fun _ => [])).
Qed.

Lemma edgesInto_snoc k d k' ed :
  edgesInto k (ed ++ [(d, k')]) =
  edgesInto k ed + (if decide (k' = k) then 1 else 0).
Proof.
  unfold edgesInto. rewrite filter_app, length_app, filter_cons. simpl.
  case_decide; simpl; lia.
Qed.

Lemma dependentsOf_snoc d d' k ed :
  dependentsOf d (ed ++ [(d', k)]) =
  dependentsOf d ed ++ (if decide (d' = d) then [k] else []).
Proof.
  unfold dependentsOf. rewrite filter_app, map_app, filter_cons. simpl.
  by case_decide.
Qed.

Lemma Linked_has steps ed m d :
  Linked steps ed m → d ∈ map id steps → JsMap.has d (stepMap m) = true.
Proof.
  intros [Hm _ _ _] Hd. unfold JsMap.has. rewrite Hm.
  destruct (JsMap.get d _) eqn:E; [done|].
  apply JsMap_get_None_keys in E. by rewrite keys_map_id in E.
Qed.

Lemma addEdge_Linked steps ed m k d :
  Linked steps ed m → k ∈ map id steps → d ∈ map id steps →
  ∃ m', addEdge k m d = inr m' ∧ Linked steps (ed ++ [(d, k)]) m'.
Proof.
  intros HL Hk Hd. unfold addEdge. rewrite (Linked_has _ _ _ _ HL Hd).
  eexists; split; [done|]. destruct HL as [Hm Hkeys Hdeg Hgr].
  split; simpl.
  - done.
  - rewrite JsMap_keys_set_present; [done|]. by rewrite Hkeys.
  - intros k0 Hk0. rewrite edgesInto_snoc. unfold degree.
    destruct (decide (k = k0)) as [->|Hne].
    + rewrite JsMap_get_set_eq, (Hdeg _ Hk0). done.
    + rewrite JsMap_get_set_ne by done. rewrite (Hdeg _ Hk0). f_equal. lia.
  - intros d0 Hd0. rewrite dependentsOf_snoc. unfold pushDependent.
    rewrite (Hgr _ Hd). destruct (decide (d = d0)) as [->|Hne].
    + by rewrite JsMap_get_set_eq.
    + rewrite JsMap_get_set_ne by done. rewrite (Hgr _ Hd0).
      by rewrite app_nil_r.
Qed.

Lemma addEdges_Linked steps ds : ∀ ed m k,
  Linked steps ed m → k ∈ map id steps → (∀ d, d ∈ ds → d ∈ map id steps) →
  ∃ m', addEdges k ds m = inr m' ∧
        Linked steps (ed ++ map (fun d => (d, k)) ds) m'.
Proof.
  induction ds as [|d ds IH]; intros ed m k HL Hk Hds; simpl.
  - exists m. by rewrite app_nil_r.
  - destruct (addEdge_Linked steps ed m k d HL Hk) as (m1 & -> & HL1).
    { apply Hds, list_elem_of_here. }
    destruct (IH _ _ k HL1 Hk) as (m2 & -> & HL2).
    { intros d' Hd'. by apply Hds, list_elem_of_further. }
    exists m2. split; [done|]. by rewrite <- app_assoc in HL2.
Qed.

Lemma linkAll_Linked steps todo : ∀ ed m,
  Linked steps ed m →
  (∀ s, s ∈ todo → s ∈ steps) →
  (∀ s d, s ∈ steps → d ∈ deps s → d ∈ map id steps) →
  ∃ m', linkAll todo m = inr m' ∧ Linked steps (ed ++ edges todo) m'.
Proof.
  induction todo as [|s todo IH]; intros ed m HL Hsub Hcl; simpl.
  - exists m. by rewrite app_nil_r.
  - assert (s ∈ steps) as Hs by apply Hsub, list_elem_of_here.
    destruct (addEdges_Linked steps (deps s) ed m (id s) HL) as (m1 & E & HL1).
    { by apply list_elem_of_fmap_2. }
    { intros d Hd. by apply (Hcl s). }
    unfold deps in E. rewrite E.
    destruct (IH _ _ HL1) as (m2 & -> & HL2); [|done|].
    { intros s' Hs'. by apply Hsub, list_elem_of_further. }
    exists m2. split; [done|]. by rewrite <- app_assoc in HL2.
Qed.

(** On a step set with unique ids and no dangling dependency the second
    loop succeeds, and the maps hold exactly the declared edges. *)
Lemma Resolver_link_ok steps :
  NoDup (map id steps) →
  (∀ s d, s ∈ steps → d ∈ deps s → d ∈ map id steps) →
  ∃ m, linkAll steps (registerAll steps) = inr m ∧ Linked steps (edges steps) m.
Proof.
  intros Hnd Hcl. rewrite registerAll_unique by done.
  apply (linkAll_Linked steps steps [] _ (Linked_initial steps Hnd)); auto.
Qed.

End ResolverLinking.

(** ** Counting edges *)

Section EdgeCounting.

Lemma occ_pos_elem k l : (0 < occ k l)%nat → k ∈ l.
Proof.
  unfold occ. induction l as [|x l IH]; simpl; [lia|].
  rewrite filter_cons. case_decide as Hx; simpl; intros H.
  - subst. apply list_elem_of_here.
  - apply list_elem_of_further. auto.
Qed.

Lemma occ_cons k x l :
  occ k (x :: l) = ((if decide (x = k) then 1 else 0) + occ k l)%nat.
Proof. unfold occ. rewrite filter_cons. by case_decide. Qed.

Lemma occ_app k l1 l2 : occ k (l1 ++ l2) = (occ k l1 + occ k l2)%nat.
Proof. unfold occ. by rewrite filter_app, length_app. Qed.

Lemma filter_into_same (ds : list string) k :
  filter (fun e : string * string => e.2 = k) (map (fun d => (d, k)) ds)
  = map (fun d => (d, k)) ds.
Proof.
  induction ds as [|d ds IH]; simpl; [done|].
  rewrite filter_cons. simpl. rewrite decide_True by done. by f_equal.
Qed.

Lemma filter_into_other (ds : list string) k k' :
  k' ≠ k →
  filter (fun e : string * string => e.2 = k) (map (fun d => (d, k')) ds) = [].
Proof.
  intros Hne. induction ds as [|d ds IH]; simpl; [done|].
  rewrite filter_cons. simpl. by rewrite decide_False.
Qed.

(** Edges into a step that is not in the list. *)
Lemma edges_into_absent l k :
  k ∉ map id l → filter (fun e : string * string => e.2 = k) (edges l) = [].
Proof.
  induction l as [|x l IH]; simpl; [done|].
  intros H. apply not_elem_of_cons in H as [Hne H].
  unfold edges in *. simpl. rewrite filter_app, IH, app_nil_r by done.
  by apply filter_into_other.
Qed.

(** Edges into a supplied step: one per declared dependency. *)
Lemma edges_into_step l s :
  NoDup (map id l) → s ∈ l →
  filter (fun e : string * string => e.2 = id s) (edges l)
  = map (fun d => (d, id s)) (deps s).
Proof.
  induction l as [|x l IH]; simpl; intros Hnd Hin.
  - by apply elem_of_nil in Hin.
  - apply NoDup_cons in Hnd as [Hx Hnd]. unfold edges in *. simpl.
    rewrite filter_app. apply elem_of_cons in Hin as [->|Hin].
    + fold (edges l). rewrite edges_into_absent, app_nil_r by done.
      apply filter_into_same.
    + rewrite IH by done.
      assert (id x ≠ id s) as Hne.
      { intros Heq. apply Hx. rewrite Heq. by apply list_elem_of_fmap_2. }
      by rewrite filter_into_other.
Qed.

Lemma edgesInto_step l s :
  NoDup (map id l) → s ∈ l →
  edgesInto (id s) (edges l) = Z.of_nat (length (deps s)).
Proof.
  intros Hnd Hin. unfold edgesInto.
  by rewrite edges_into_step, length_map.
Qed.

Lemma filter_swap {A} (P Q : A → Prop) `{∀ x, Decision (P x)} `{∀ x, Decision (Q x)}
    (l : list A) :
  filter P (filter Q l) = filter Q (filter P l).
Proof.
  induction l as [|x l IH]; [done|].
  rewrite !filter_cons. repeat case_decide; rewrite ?filter_cons;
    repeat case_decide; try done; by rewrite IH.
Qed.

(** The id of a step occurs among the dependents of [d] as often as [d]
    occurs among the step's dependencies. *)
Lemma occ_dependentsOf l s d :
  NoDup (map id l) → s ∈ l →
  occ (id s) (dependentsOf d (edges l)) = occ d (deps s).
Proof.
  intros Hnd Hin. unfold occ, dependentsOf.
  transitivity (length (filter (fun e : string * string => e.2 = id s)
                          (filter (fun e : string * string => e.1 = d) (edges l)))).
  { generalize (filter (fun e : string * string => e.1 = d) (edges l)).
    intros ed. induction ed as [|e ed IH]; [done|].
    simpl. rewrite !filter_cons. repeat case_decide; simpl; congruence. }
  rewrite filter_swap, edges_into_step by done.
  induction (deps s) as [|d' ds IH]; [done|].
  simpl. rewrite !filter_cons. simpl. repeat case_decide; simpl; congruence.
Qed.

Lemma dependentsOf_known l d k :
  k ∈ dependentsOf d (edges l) → k ∈ map id l.
Proof.
  unfold dependentsOf. intros [e [-> He]]%list_elem_of_fmap.
  apply list_elem_of_filter in He as [_ He].
  unfold edges in He. apply list_elem_of_In, in_flat_map in He as (s & Hs & He).
  apply in_map_iff in He as (d' & <- & _). simpl.
  apply list_elem_of_fmap_2. by apply list_elem_of_In.
Qed.

(** Marking [q] as done removes its occurrences from what is unresolved. *)
Lemma unresolvedDeps_snoc done q s :
  q ∉ done →
  (length (unresolvedDeps (done ++ [q]) s) + occ q (deps s)
   = length (unresolvedDeps done s))%nat.
Proof.
  intros Hq. unfold unresolvedDeps, occ.
  induction (deps s) as [|d ds IH]; [done|].
  rewrite !filter_cons.
  destruct (decide (d = q)) as [->|Hne].
  - rewrite decide_False, (decide_True (P := q ∉ done)) by set_solver.
    simpl. lia.
  - destruct (decide (d ∈ done)) as [Hd|Hd].
    + rewrite !decide_False by set_solver. done.
    + rewrite !decide_True by set_solver. simpl. lia.
Qed.

End EdgeCounting.

(** ** One iteration of the resolver's loop *)

Section ResolverRelax.
Import Resolver.

Lemma degree_set k k' v (d : JsMap.t Z) :
  degree k' (JsMap.set k v d) = if decide (k = k') then v else degree k' d.
Proof.
  unfold degree. case_decide as Hk.
  - subst. by rewrite JsMap_get_set_eq.
  - by rewrite JsMap_get_set_ne.
Qed.

(** In-degrees after the dependents [ks] have been relaxed. *)
Lemma relax_all_degree ks : ∀ acc k,
  degree k (fold_left relax ks acc).1 = degree k acc.1 - Z.of_nat (occ k ks).
Proof.
  induction ks as [|k1 ks IH]; intros acc k; simpl.
  - unfold occ. simpl. lia.
  - rewrite IH, occ_cons. unfold relax. simpl. rewrite degree_set.
    repeat case_decide; subst; try done; lia.
Qed.

(** What enters the queue: each id whose in-degree was positive and is
    exhausted by [ks], once. *)
Lemma relax_all_queue ks : ∀ acc,
  ∃ new,
    (fold_left relax ks acc).2 = acc.2 ++ new ∧
    NoDup new ∧
    ∀ k, k ∈ new ↔ 0 < degree k acc.1 ∧ degree k acc.1 - Z.of_nat (occ k ks) <= 0.
Proof.
  induction ks as [|k1 ks IH]; intros acc; simpl.
  - exists []. rewrite app_nil_r. split; [done|]. split; [constructor|].
    intros k. unfold occ. simpl. split; [by intros ?%elem_of_nil|lia].
  - destruct (IH (relax acc k1)) as (new & Hq & Hnd & Hiff).
    assert (∀ k, degree k (relax acc k1).1
                 = degree k acc.1 - (if decide (k1 = k) then 1 else 0)) as Hdeg.
    { intros k. unfold relax. simpl. rewrite degree_set.
      case_decide; subst; lia. }
    destruct (decide (degree k1 acc.1 - 1 = 0)) as [H1|H1].
    + exists (k1 :: new). split; [|split].
      * rewrite Hq. unfold relax. simpl. case_decide; [|done].
        by rewrite <- app_assoc.
      * apply NoDup_cons. split; [|done]. rewrite Hiff, Hdeg.
        case_decide; [lia|done].
      * intros k. rewrite elem_of_cons, Hiff, Hdeg, occ_cons.
        destruct (decide (k1 = k)) as [->|Hne].
        -- split; [lia|]. intros _. by left.
        -- split.
           ++ intros [?|?]; [congruence|]. simpl. lia.
           ++ intros ?. right. simpl in *. lia.
    + exists new. split; [|split; [done|]].
      * rewrite Hq. unfold relax. simpl. by case_decide.
      * intros k. rewrite Hiff, Hdeg, occ_cons.
        destruct (decide (k1 = k)) as [->|Hne]; simpl; lia.
Qed.

End ResolverRelax.

(** ** The invariant of the resolver's loop *)

Section ResolverInvariant.
Import Resolver.

Variable steps : list PipelineStep.
Variable m : Maps.
Hypothesis Hids : NoDup (map id steps).
Hypothesis Hlinked : Linked steps (edges steps) m.

Lemma step_of_id k : k ∈ map id steps → ∃ s, s ∈ steps ∧ id s = k.
Proof. intros [s [-> Hs]]%list_elem_of_fmap. eauto. Qed.

Lemma stepMap_get s : s ∈ steps → JsMap.get (id s) (stepMap m) = Some s.
Proof.
  intros Hs. rewrite (lk_stepMap _ _ _ Hlinked).
  by rewrite (get_map_id (fun s => s)).
Qed.

Lemma graph_get d :
  d ∈ map id steps →
  default [] (JsMap.get d (graph m)) = dependentsOf d (edges steps).
Proof. intros Hd. by rewrite (lk_graph _ _ _ Hlinked). Qed.

Lemma inDegree_entries :
  inDegree m = map (fun s => (id s, Z.of_nat (length (deps s)))) steps.
Proof.
  apply JsMap_ext.
  - by rewrite (lk_keys _ _ _ Hlinked).
  - by rewrite (lk_keys _ _ _ Hlinked), keys_map_id.
  - rewrite (lk_keys _ _ _ Hlinked). intros k Hk.
    rewrite (lk_degree _ _ _ Hlinked) by done.
    destruct (step_of_id k Hk) as (s & Hs & <-).
    rewrite (get_map_id (fun s => Z.of_nat (length (deps s)))) by done.
    by rewrite edgesInto_step.
Qed.

(** The ready queue starts as the steps without dependencies, in supply
    order. *)
Lemma initialQueue_supply_order :
  initialQueue (inDegree m) = map id (filter (fun s => deps s = []) steps).
Proof.
  rewrite inDegree_entries. unfold initialQueue, JsMap.entries.
  clear. induction steps as [|s l IH]; [done|].
  simpl. rewrite !filter_cons. simpl.
  destruct (deps s) eqn:E; repeat case_decide; simpl in *;
    try done; try lia; by f_equal.
Qed.

Lemma unresolved_nil_iff done s :
  length (unresolvedDeps done s) = 0%nat ↔ ∀ d, d ∈ deps s → d ∈ done.
Proof.
  unfold unresolvedDeps. rewrite length_zero_iff_nil. split.
  - intros H d Hd. destruct (decide (d ∈ done)) as [|Hn]; [done|].
    assert (d ∈ filter (fun d => d ∉ done) (deps s)) as Hin
      by (by apply list_elem_of_filter).
    rewrite H in Hin. by apply elem_of_nil in Hin.
  - intros H. induction (deps s) as [|d ds IH]; [done|].
    rewrite filter_cons. rewrite decide_False.
    + apply IH. intros d' Hd'. by apply H, list_elem_of_further.
    + intros Hn. apply Hn, H, list_elem_of_here.
Qed.

Lemma KahnInv_initial :
  KahnInv steps
    {| degrees := inDegree m; queue := initialQueue (inDegree m); result := [] |}.
Proof.
  split; simpl.
  - rewrite initialQueue_supply_order.
    apply (NoDup_fmap_2_strong id).
    + intros x y Hx Hy Hxy. apply list_elem_of_filter in Hx as [_ Hx].
      apply list_elem_of_filter in Hy as [_ Hy].
      pose proof (stepMap_get x Hx) as E. rewrite Hxy, stepMap_get in E by done.
      congruence.
    + apply NoDup_filter. eapply NoDup_fmap_1, Hids.
  - intros k. rewrite initialQueue_supply_order.
    intros [s [-> Hs]]%list_elem_of_fmap.
    apply list_elem_of_filter in Hs as [_ Hs]. by apply list_elem_of_fmap_2.
  - intros s Hs. unfold degree.
    rewrite (lk_degree _ _ _ Hlinked) by (by apply list_elem_of_fmap_2).
    simpl. rewrite edgesInto_step by done. unfold unresolvedDeps.
    f_equal. f_equal. induction (deps s) as [|d ds IH]; [done|].
    rewrite filter_cons, decide_True by apply not_elem_of_nil. by f_equal.
  - intros s Hs. unfold degree.
    rewrite (lk_degree _ _ _ Hlinked) by (by apply list_elem_of_fmap_2).
    simpl. rewrite edgesInto_step by done. intros H0.
    rewrite initialQueue_supply_order. apply list_elem_of_fmap_2.
    apply list_elem_of_filter. split; [|done].
    apply length_zero_iff_nil. lia.
  - intros k. rewrite initialQueue_supply_order.
    intros [s [-> Hs]]%list_elem_of_fmap.
    apply list_elem_of_filter in Hs as [Hd Hs]. unfold degree.
    rewrite (lk_degree _ _ _ Hlinked) by (by apply list_elem_of_fmap_2).
    simpl. rewrite edgesInto_step by done. by rewrite Hd.
  - intros i s d Hi. by rewrite lookup_nil in Hi.
  - intros s Hs. by apply elem_of_nil in Hs.
Qed.

Lemma KahnInv_done st k :
  KahnInv steps st → k ∈ map id (result st) → degree k (degrees st) = 0.
Proof.
  intros Hinv [s [-> Hs]]%list_elem_of_fmap.
  rewrite (inv_degree _ _ Hinv) by (by apply (inv_steps _ _ Hinv)).
  apply list_elem_of_lookup in Hs as [i Hi].
  apply (f_equal Z.of_nat (y := 0%nat)), unresolved_nil_iff. intros d Hd.
  pose proof (inv_before _ _ Hinv i s d Hi Hd) as Hin.
  rewrite <- (take_drop i (result st)), map_app. apply elem_of_app. by left.
Qed.

(** One iteration keeps the invariant. *)
Lemma KahnInv_iterate st q rest :
  KahnInv steps st → queue st = q :: rest →
  KahnInv steps (iterate m q rest st).
Proof.
  intros Hinv Hq.
  assert (q ∈ map id steps) as Hqk.
  { apply (inv_known _ _ Hinv). rewrite Hq. apply elem_of_app. right.
    apply list_elem_of_here. }
  destruct (step_of_id q Hqk) as (sq & Hsq & <-).
  pose proof (inv_nodup _ _ Hinv) as Hnd. rewrite Hq in Hnd.
  assert (id sq ∉ map id (result st)) as Hfresh.
  { apply NoDup_app in Hnd as (_ & Hnd & _). intros Hin.
    apply (Hnd _ Hin), list_elem_of_here. }
  assert (degree (id sq) (degrees st) = 0) as Hq0.
  { apply (inv_queue _ _ Hinv). rewrite Hq. apply list_elem_of_here. }
  unfold iterate. rewrite stepMap_get, graph_get by done.
  set (L := dependentsOf (id sq) (edges steps)).
  pose proof (relax_all_degree L (degrees st, rest)) as Hdeg.
  destruct (relax_all_queue L (degrees st, rest)) as (new & Hnew & Hndn & Hiff).
  simpl in Hdeg, Hnew, Hiff.
  assert (∀ k, k ∈ map id (result st) ++ id sq :: rest →
               degree k (degrees st) = 0) as Hzero.
  { intros k [Hk|Hk]%elem_of_app.
    - by apply KahnInv_done.
    - apply (inv_queue _ _ Hinv). by rewrite Hq. }
  assert (∀ s, s ∈ steps →
            degree (id s) (fold_left relax L (degrees st, rest)).1 =
            Z.of_nat (length (unresolvedDeps (map id (result st) ++ [id sq]) s)))
    as Hdeg'.
  { intros s Hs. rewrite Hdeg, (inv_degree _ _ Hinv) by done.
    unfold L. rewrite occ_dependentsOf by done.
    pose proof (unresolvedDeps_snoc (map id (result st)) (id sq) s Hfresh). lia. }
  assert (∀ k, k ∈ new → k ∈ map id steps) as Hnewk.
  { intros k [Hk1 Hk2]%Hiff. apply (dependentsOf_known _ (id sq)).
    apply occ_pos_elem. fold L. lia. }
  split; simpl; rewrite ?map_app; simpl.
  - rewrite Hnew.
    replace ((map id (result st) ++ [id sq]) ++ rest ++ new)
      with ((map id (result st) ++ id sq :: rest) ++ new)
      by (by rewrite <- !app_assoc).
    apply NoDup_app. split; [done|]. split; [|done].
    intros k Hk [Hk1 _]%Hiff. rewrite (Hzero k Hk) in Hk1. lia.
  - rewrite Hnew. intros k.
    replace ((map id (result st) ++ [id sq]) ++ rest ++ new)
      with ((map id (result st) ++ id sq :: rest) ++ new)
      by (by rewrite <- !app_assoc).
    intros [Hk|Hk]%elem_of_app; [|by apply Hnewk].
    apply (inv_known _ _ Hinv). by rewrite Hq.
  - done.
  - intros s Hs H0. rewrite Hnew.
    replace ((map id (result st) ++ [id sq]) ++ rest ++ new)
      with ((map id (result st) ++ id sq :: rest) ++ new)
      by (by rewrite <- !app_assoc).
    apply elem_of_app. rewrite Hdeg in H0.
    destruct (decide (degree (id s) (degrees st) = 0)) as [Hz|Hnz].
    + left. rewrite <- Hq. by apply (inv_ready _ _ Hinv).
    + right. apply Hiff. rewrite (inv_degree _ _ Hinv) in * by done. lia.
  - rewrite Hnew. intros k Hk.
    assert (k ∈ map id steps) as Hkk.
    { apply elem_of_app in Hk as [Hk|Hk]; [|by apply Hnewk].
      apply (inv_known _ _ Hinv). rewrite Hq. apply elem_of_app. right.
      by apply list_elem_of_further. }
    destruct (step_of_id k Hkk) as (s & Hs & <-).
    pose proof (Hdeg' s Hs) as Hge. rewrite Hdeg in Hge |- *.
    apply elem_of_app in Hk as [Hk|Hk].
    + assert (degree (id s) (degrees st) = 0) as Hz.
      { apply Hzero. apply elem_of_app. right. by apply list_elem_of_further. }
      lia.
    + apply Hiff in Hk. lia.
  - intros i s d Hi Hd.
    destruct (decide (i < length (result st))%nat) as [Hlt|Hge].
    + rewrite lookup_app_l in Hi by done.
      rewrite take_app_le by lia. by apply (inv_before _ _ Hinv i s).
    + apply lookup_lt_Some in Hi as Hlen. rewrite length_app in Hlen.
      simpl in Hlen. assert (i = length (result st)) as -> by lia.
      rewrite list_lookup_middle in Hi by done. injection Hi as <-.
      rewrite take_app_length.
      rewrite (inv_degree _ _ Hinv) in Hq0 by done.
      eapply unresolved_nil_iff; [|done]. lia.
  - intros s [Hs|Hs]%elem_of_app.
    + by apply (inv_steps _ _ Hinv).
    + apply list_elem_of_singleton in Hs as ->. done.
Qed.

Lemma KahnInv_drain fuel : ∀ st,
  KahnInv steps st → KahnInv steps (drain fuel m st).
Proof.
  induction fuel as [|fuel IH]; intros st Hinv; simpl; [done|].
  destruct (queue st) as [|q rest] eqn:Hq; [done|].
  apply IH. by apply KahnInv_iterate.
Qed.

Lemma KahnInv_kahn : KahnInv steps (kahn m).
Proof. apply KahnInv_drain, KahnInv_initial. Qed.

(** The loop is first-in first-out: what is queued is output next, in
    queue order. *)
Lemma drain_fifo fuel : ∀ st,
  KahnInv steps st → (measure st ≤ fuel)%nat →
  ∃ queued later,
    map id queued = queue st ∧
    result (drain fuel m st) = result st ++ queued ++ later.
Proof.
  induction fuel as [|fuel IH]; intros st Hinv Hm; simpl.
  - unfold measure in Hm. destruct (queue st) eqn:Hq; [|simpl in Hm; lia].
    exists [], []. by rewrite app_nil_r.
  - destruct (queue st) as [|q rest] eqn:Hq.
    + exists [], []. by rewrite app_nil_r.
    + pose proof (iterate_measure m q rest st Hq) as Hm'.
      destruct (IH (iterate m q rest st)) as (queued & later & Hqd & Hres).
      { by apply KahnInv_iterate. }
      { lia. }
      assert (q ∈ map id steps) as Hqk.
      { apply (inv_known _ _ Hinv). rewrite Hq. apply elem_of_app. right.
        apply list_elem_of_here. }
      destruct (step_of_id q Hqk) as (sq & Hsq & <-).
      destruct (relax_all_queue (default [] (JsMap.get (id sq) (graph m)))
                  (degrees st, rest)) as (new & Hnew & _).
      unfold iterate in Hqd, Hres |- *. simpl in Hqd, Hres, Hnew |- *.
      rewrite stepMap_get in Hres |- * by done. rewrite Hnew in Hqd.
      apply fmap_app_inv in Hqd as (q1 & q2 & Hq1 & Hq2 & ->).
      exists (sq :: q1), (q2 ++ later). split.
      * simpl. by rewrite Hq1.
      * rewrite Hres. by rewrite <- !app_assoc.
Qed.

End ResolverInvariant.

(** ** Finite graphs without sinks have cycles *)

Section Cycles.
Context {A : Type} `{EqDecision A} (R : relation A).

Lemma chain_tail x l : chain R (x :: l) → chain R l.
Proof. destruct l; simpl; tauto. Qed.

Lemma chain_reach l : ∀ x y, chain R (x :: l) → y ∈ l → tc R x y.
Proof.
  induction l as [|z l IH]; intros x y Hc Hy.
  - by apply elem_of_nil in Hy.
  - destruct Hc as [Hxz Hc]. apply elem_of_cons in Hy as [->|Hy].
    + by apply tc_once.
    + eapply tc_l; [done|]. by apply IH.
Qed.

Lemma chain_NoDup_or_cycle l : chain R l → NoDup l ∨ ∃ x, tc R x x.
Proof.
  induction l as [|x l IH]; intros Hc.
  - left. constructor.
  - destruct (IH (chain_tail _ _ Hc)) as [Hnd|Hcy]; [|by right].
    destruct (decide (x ∈ l)) as [Hin|Hnin].
    + right. exists x. by apply (chain_reach l).
    + left. by apply NoDup_cons.
Qed.

Lemma chain_walk (V : list A) :
  (∀ x, x ∈ V → ∃ y, y ∈ V ∧ R x y) →
  ∀ n x, x ∈ V →
    ∃ l, length l = S n ∧ chain R l ∧ (∀ y, y ∈ l → y ∈ V) ∧ head l = Some x.
Proof.
  intros Hnext. induction n as [|n IH]; intros x Hx.
  - exists [x]. split; [done|]. split; [done|]. split; [|done].
    by intros y ->%list_elem_of_singleton.
  - destruct (Hnext x Hx) as (y & Hy & Hxy).
    destruct (IH y Hy) as (l & Hlen & Hc & HV & Hhd).
    destruct l as [|y' l]; [done|]. injection Hhd as ->.
    exists (x :: y :: l). split; [simpl in *; lia|].
    split; [done|]. split; [|done].
    intros z [->|Hz]%elem_of_cons; [done|]. by apply HV.
Qed.

(** If every vertex of a finite, non-empty set has a successor in the
    set, some vertex reaches itself. *)
Lemma no_sink_cycle (V : list A) :
  V ≠ [] → (∀ x, x ∈ V → ∃ y, y ∈ V ∧ R x y) → ∃ x, tc R x x.
Proof.
  intros Hne Hnext. destruct V as [|v V]; [done|].
  destruct (chain_walk (v :: V) Hnext (length (v :: V)) v)
    as (l & Hlen & Hc & HV & _); [apply list_elem_of_here|].
  destruct (chain_NoDup_or_cycle l Hc) as [Hnd|Hcy]; [|done].
  exfalso. assert (l ⊆+ v :: V) as Hsub by (by apply NoDup_submseteq).
  apply submseteq_length in Hsub. lia.
Qed.

End Cycles.

(** ** Dependency resolution on a valid DAG *)

Section ResolverCorrect.
Import Resolver.

Lemma id_inj_on (l : list PipelineStep) x y :
  NoDup (map id l) → x ∈ l → y ∈ l → id x = id y → x = y.
Proof.
  intros Hnd Hx Hy Heq.
  pose proof (get_map_id (fun s => s) l x Hnd Hx) as E.
  rewrite Heq, get_map_id in E by done. congruence.
Qed.

Lemma map_id_inj_on (l l1 l2 : list PipelineStep) :
  NoDup (map id l) →
  (∀ x, x ∈ l1 → x ∈ l) → (∀ x, x ∈ l2 → x ∈ l) →
  map id l1 = map id l2 → l1 = l2.
Proof.
  intros Hnd. revert l2. induction l1 as [|x l1 IH]; intros [|y l2] H1 H2;
    simpl; try done.
  intros [= Hxy Hrest]. f_equal.
  - apply (id_inj_on l); try done; [apply H1|apply H2]; apply list_elem_of_here.
  - apply IH; [| |done]; intros z Hz; [apply H1|apply H2];
      by apply list_elem_of_further.
Qed.

(** A numbering that decreases along every dependency rules out cycles. *)
Lemma Acyclic_by_rank steps (rank : string → nat) :
  (∀ s d, s ∈ steps → d ∈ deps s → (rank d < rank (id s))%nat) →
  Acyclic steps.
Proof.
  intros Hrank x Hx.
  assert (∀ a b, tc (dependsOn steps) a b → (rank b < rank a)%nat) as Hlt.
  { induction 1 as [a b (s & Hs & <- & Hd)|a b c (s & Hs & <- & Hd) _ IH].
    - by apply Hrank.
    - specialize (Hrank s b Hs Hd). lia. }
  specialize (Hlt _ _ Hx). lia.
Qed.

Lemma KahnInv_complete steps st :
  ValidDAG steps → KahnInv steps st → queue st = [] →
  ∀ s, s ∈ steps → id s ∈ map id (result st).
Proof.
  intros [Hids Hcl Hac] Hinv Hq.
  set (D := map id (result st)).
  set (V := filter (fun k => k ∉ D) (map id steps)).
  destruct (decide (V = [])) as [HV|HV].
  - intros s Hs. destruct (decide (id s ∈ D)) as [|Hn]; [done|].
    assert (id s ∈ V) as Hin.
    { apply list_elem_of_filter. split; [done|]. by apply list_elem_of_fmap_2. }
    rewrite HV in Hin. by apply elem_of_nil in Hin.
  - exfalso. destruct (no_sink_cycle (dependsOn steps) V HV) as [x Hx];
      [|by apply (Hac x)].
    intros x [Hx Hxs]%list_elem_of_filter.
    apply list_elem_of_fmap in Hxs as (s & -> & Hs).
    assert (length (unresolvedDeps D s) ≠ 0%nat) as Hun.
    { intros H0. apply Hx. pose proof (inv_ready _ _ Hinv s Hs) as Hr.
      rewrite Hq, app_nil_r in Hr. apply Hr.
      rewrite (inv_degree _ _ Hinv) by done. fold D. lia. }
    destruct (unresolvedDeps D s) as [|d ds] eqn:E; [done|].
    assert (d ∈ unresolvedDeps D s) as Hd by (rewrite E; apply list_elem_of_here).
    apply list_elem_of_filter in Hd as [HdD Hd].
    exists d. split.
    + apply list_elem_of_filter. split; [done|]. by apply (Hcl s).
    + by exists s.
Qed.

(** On a valid DAG the resolver returns every supplied step exactly once,
    each after all of its dependencies, the steps without dependencies
    first and in supply order. *)
Lemma Resolver_valid_dag steps :
  ValidDAG steps →
  ∃ order,
    resolveDependencies steps = inr order ∧
    order ≡ₚ steps ∧
    DepsBefore order ∧
    ∃ later, order = filter (fun s => deps s = []) steps ++ later.
Proof.
  intros Hdag. pose proof Hdag as [Hids Hcl Hac].
  destruct (Resolver_link_ok steps Hids Hcl) as (m & Hlink & HL).
  pose proof (KahnInv_kahn steps m Hids HL) as Hinv.
  pose proof (Resolver_kahn_drains m) as Hq.
  pose proof (KahnInv_complete steps _ Hdag Hinv Hq) as Hall.
  assert (result (kahn m) ≡ₚ steps) as Hperm.
  { apply NoDup_Permutation.
    - pose proof (inv_nodup _ _ Hinv) as H. rewrite Hq, app_nil_r in H.
      by apply NoDup_fmap_1 in H.
    - by apply NoDup_fmap_1 in Hids.
    - intros x. split; [apply (inv_steps _ _ Hinv)|].
      intros Hx. pose proof (Hall x Hx) as Hid.
      apply list_elem_of_fmap in Hid as (y & Hxy & Hy).
      assert (x = y) as ->; [|done].
      apply (id_inj_on steps); try done. by apply (inv_steps _ _ Hinv). }
  exists (result (kahn m)). split; [|split; [done|split]].
  - unfold resolveDependencies. rewrite Hlink. simpl.
    rewrite decide_True; [done|]. by rewrite Hperm.
  - apply (inv_before _ _ Hinv).
  - destruct (drain_fifo steps m Hids HL (length (JsMap.entries (inDegree m)))
                {| degrees := inDegree m; queue := initialQueue (inDegree m);
                   result := [] |})
      as (queued & later & Hqd & Hres).
    { by apply KahnInv_initial. }
    { unfold measure. simpl. apply initial_measure. }
    exists later. unfold kahn. rewrite Hres. simpl in *. f_equal.
    rewrite (initialQueue_supply_order steps m Hids HL) in Hqd.
    apply (map_id_inj_on steps); try done.
    + intros x Hx. apply (inv_steps _ _ Hinv). unfold kahn. rewrite Hres.
      simpl. apply elem_of_app. by left.
    + intros x Hx. by apply list_elem_of_filter in Hx as [_ Hx].
Qed.

End ResolverCorrect.

(** ** Traces of the runner *)

Section RunnerTraces.

Lemma chained_app ctx cs1 cs2 :
  chained ctx (cs1 ++ cs2) ↔ chained ctx cs1 ∧ chained (contextAfter ctx cs1) cs2.
Proof.
  revert ctx. induction cs1 as [|c cs1 IH]; intros ctx; simpl.
  - unfold contextAfter. simpl. tauto.
  - rewrite IH. unfold contextAfter. rewrite last_cons.
    destruct (last cs1); tauto.
Qed.

Lemma contextAfter_app ctx cs1 cs2 :
  contextAfter ctx (cs1 ++ cs2) = contextAfter (contextAfter ctx cs1) cs2.
Proof.
  unfold contextAfter. rewrite last_app. by destruct (last cs2).
Qed.

Lemma Frame_refl w : Frame w w [].
Proof. split; simpl; try done. by rewrite app_nil_r. Qed.

Lemma Frame_trans w w1 w2 cs1 cs2 :
  Frame w w1 cs1 → Frame w1 w2 cs2 → Frame w w2 (cs1 ++ cs2).
Proof.
  intros [H1 H2 H3 H4 H5] [G1 G2 G3 G4 G5]. split.
  - by rewrite G1, H1, app_assoc.
  - congruence.
  - congruence.
  - apply chained_app. split; [done|]. by rewrite <- H5.
  - by rewrite contextAfter_app, <- H5.
Qed.

Lemma Fired_nil : Fired [] [] (inr ()).
Proof. by constructor. Qed.

Lemma Fired_app_ok exp1 exp2 cs1 cs2 out :
  Fired exp1 cs1 (inr ()) → Fired exp2 cs2 out →
  Fired (exp1 ++ exp2) (cs1 ++ cs2) out.
Proof.
  intros H1 H2. inversion H1 as [? Hs1 Hq1|]; subst.
  inversion H2 as [? Hs2 Hq2|cs c v Hp Hq Hv]; subst.
  - constructor; [by rewrite map_app|by apply Forall_app].
  - rewrite app_assoc. constructor; [|by apply Forall_app|done].
    rewrite <- app_assoc, map_app. by apply prefix_app.
Qed.

Lemma Fired_app_threw exp1 exp2 cs1 e :
  Fired exp1 cs1 (inl e) → Fired (exp1 ++ exp2) cs1 (inl e).
Proof.
  intros H1. inversion H1 as [|cs c v Hp Hq Hv]; subst.
  constructor; [|done..]. by apply prefix_app_r.
Qed.

Lemma present_applyHook {A} (hook : option (A → Callback)) ev s :
  present (applyHook hook ev) s = present hook s.
Proof. by destruct hook. Qed.

(** One optional hook. *)
Lemma fire_trace who step ev err hook w :
  ∃ cs,
    Frame w (fire who step ev err hook w).1 cs ∧
    Fired (present hook (who, step, ev, err)) cs (fire who step ev err hook w).2.
Proof.
  destruct hook as [cb|]; simpl.
  - unfold invoke. simpl.
    set (c := {| callee := who; c_step := step; c_event := ev; c_error := err;
                 c_context := context w; c_left := (cb (context w)).1;
                 c_thrown := (cb (context w)).2 |}).
    exists [c]. split; [by split|].
    destruct (cb (context w)).2 as [v|] eqn:E.
    + apply (fired_threw _ [] c v); [done|constructor|done].
    + apply fired_all; [done|]. by repeat constructor.
  - exists []. split; [apply Frame_refl|apply Fired_nil].
Qed.

(** Two optional hooks in a row. *)
Lemma fire2_trace who1 who2 step ev err hook1 hook2 w :
  ∃ cs,
    Frame w ((fire who1 step ev err hook1 ;; fire who2 step ev err hook2) w).1 cs ∧
    Fired (present hook1 (who1, step, ev, err) ++ present hook2 (who2, step, ev, err))
      cs ((fire who1 step ev err hook1 ;; fire who2 step ev err hook2) w).2.
Proof.
  unfold mbind, M_bind.
  destruct (fire_trace who1 step ev err hook1 w) as (cs1 & F1 & H1).
  destruct (fire who1 step ev err hook1 w) as [w1 [e|[]]]; simpl in *.
  - exists cs1. split; [done|]. by apply Fired_app_threw.
  - destruct (fire_trace who2 step ev err hook2 w1) as (cs2 & F2 & H2).
    exists (cs1 ++ cs2). split; [by eapply Frame_trans|].
    by apply Fired_app_ok.
Qed.

Lemma fireOnError_trace this step ev e w :
  ∃ cs,
    Frame w (ScrapeRunnerImpl.fireOnError this step ev e w).1 cs ∧
    Fired (errorShapes this step ev e) cs
      (ScrapeRunnerImpl.fireOnError this step ev e w).2.
Proof.
  unfold ScrapeRunnerImpl.fireOnError, errorShapes.
  destruct (fire2_trace RunnerOnError StepOnError step ev (Some e)
              (applyHook (ScrapeRunnerImpl.runnerHook this Lifecycle.onError)
                 (ScrapeRunnerImpl.errorEvent ev e))
              (applyHook (onError step) (ScrapeRunnerImpl.errorEvent ev e)) w)
    as (cs & F & H).
  exists cs. split; [done|]. by rewrite !present_applyHook in H.
Qed.

Lemma invoke_trace who step ev err cb w :
  ∃ c,
    Frame w (invoke who step ev err cb w).1 [c] ∧
    shape c = (who, step, ev, err) ∧
    (invoke who step ev err cb w).2
    = match c_thrown c with Some v => inl (Thrown v) | None => inr () end.
Proof.
  unfold invoke. simpl.
  eexists {| callee := who; c_step := step; c_event := ev; c_error := err;
             c_context := context w; c_left := (cb (context w)).1;
             c_thrown := (cb (context w)).2 |}.
  split; [by split|]. by split.
Qed.

(** [executeStep]: its calls and its outcome. *)
Lemma executeStep_trace this step i total w :
  ∃ cs,
    Frame w (ScrapeRunnerImpl.executeStep this step i total w).1 cs ∧
    ExecTrace this step (eventOf step i total) cs
      (ScrapeRunnerImpl.executeStep this step i total w).2.
Proof.
  unfold ScrapeRunnerImpl.executeStep. fold (eventOf step i total).
  set (ev := eventOf step i total).
  unfold mbind, M_bind.
  destruct (fire_trace RunnerBeforeStep step ev None
              (applyHook (ScrapeRunnerImpl.runnerHook this Lifecycle.beforeStep) ev) w)
    as (cs1 & F1 & H1).
  rewrite present_applyHook in H1.
  destruct (fire RunnerBeforeStep _ _ _ _ w) as [w1 [e|[]]]; simpl in *.
  { exists cs1. split; [done|]. apply exec_before. by apply Fired_app_threw. }
  destruct (fire_trace StepBeforeStep step ev None
              (applyHook (beforeStep step) ev) w1)
    as (cs2 & F2 & H2).
  rewrite present_applyHook in H2.
  destruct (fire StepBeforeStep _ _ _ _ w1) as [w2 [e|[]]]; simpl in *.
  { exists (cs1 ++ cs2). split; [by eapply Frame_trans|].
    apply exec_before. by apply Fired_app_ok. }
  pose proof (Fired_app_ok _ _ _ _ _ H1 H2) as Hb.
  pose proof (Frame_trans _ _ _ _ _ F1 F2) as Fb.
  fold (beforeShapes this step ev) in Hb.
  unfold try_catch.
  destruct (invoke_trace StepRun step ev None (run step) w2) as (rc & F3 & Hrc & Hout).
  destruct (invoke StepRun step ev None (run step) w2) as [w3 out3]; simpl in *.
  destruct (c_thrown rc) as [v|] eqn:Hv; subst out3.
  - destruct (fireOnError_trace this step ev (Thrown v) w3) as (es & F4 & H4).
    destruct (ScrapeRunnerImpl.fireOnError this step ev (Thrown v) w3)
      as [w4 out4]; simpl in *.
    exists ((cs1 ++ cs2) ++ rc :: es). split.
    + destruct out4 as [e|[]]; simpl;
        eapply Frame_trans; try done; by apply (Frame_trans _ _ _ [rc] es F3).
    + destruct out4 as [e|[]]; simpl.
      * by apply (exec_body this step ev _ rc v es (inl e)).
      * by apply (exec_body this step ev _ rc v es (inr ())).
  - destruct (fire2_trace RunnerAfterStep StepAfterStep step ev None
                (applyHook (ScrapeRunnerImpl.runnerHook this Lifecycle.afterStep) ev)
                (applyHook (afterStep step) ev) w3)
      as (cs4 & F4 & H4).
    rewrite !present_applyHook in H4.
    fold (afterShapes this step ev) in H4.
    unfold mbind, M_bind in F4, H4.
    exists ((cs1 ++ cs2) ++ rc :: cs4). split.
    + eapply Frame_trans; [done|]. by apply (Frame_trans _ _ _ [rc] cs4 F3).
    + by apply exec_after.
Qed.

(** The [for] loop: its calls, what it adds to the accumulators, its
    outcome. *)
Lemma stepLoop_trace this start total todo : ∀ i w,
  ∃ cs completed failed,
    calls (ScrapeRunnerImpl.stepLoop this start total i todo w).1 = calls w ++ cs ∧
    completedSteps (ScrapeRunnerImpl.stepLoop this start total i todo w).1
      = completedSteps w ++ completed ∧
    failedSteps (ScrapeRunnerImpl.stepLoop this start total i todo w).1
      = failedSteps w ++ failed ∧
    chained (context w) cs ∧
    LoopTrace this start total i todo cs completed failed
      (ScrapeRunnerImpl.stepLoop this start total i todo w).2.
Proof.
  induction todo as [|step todo IH]; intros i w; simpl.
  - exists [], [], []. rewrite !app_nil_r. repeat split; constructor.
  - unfold mbind, M_bind, try_catch.
    destruct (executeStep_trace this step (start + Z.of_nat i) total w)
      as (cs & F & HE).
    destruct (ScrapeRunnerImpl.executeStep this step (start + Z.of_nat i) total w)
      as [w1 [e|[]]]; simpl in *.
    + set (w2 := {| context := context w1; calls := calls w1;
                    completedSteps := completedSteps w1;
                    failedSteps := failedSteps w1 ++ [id step] |}).
      destruct (fireOnError_trace this step
                  (eventOf step (start + Z.of_nat i) total) e w2)
        as (outer & F2 & HF).
      unfold eventOf in F2, HF.
      destruct (ScrapeRunnerImpl.fireOnError this step _ e w2) as [w3 out3];
        simpl in *.
      destruct F as [F_1 F_2 F_3 F_4 F_5], F2 as [G1 G2 G3 G4 G5]; simpl in *.
      exists (cs ++ outer), [], [id step].
      destruct out3 as [e'|[]]; simpl.
      * rewrite G1, F_1, G2, F_2, G3, F_3, app_nil_r, app_assoc.
        repeat split; try done.
        -- apply chained_app. split; [done|]. by rewrite <- F_5.
        -- by apply (loop_fail this start total i step todo cs e outer (inl e')).
      * rewrite G1, F_1, G2, F_2, G3, F_3, app_nil_r, app_assoc.
        repeat split; try done.
        -- apply chained_app. split; [done|]. by rewrite <- F_5.
        -- by apply (loop_fail this start total i step todo cs e outer (inr ())).
    + set (w2 := {| context := context w1; calls := calls w1;
                    completedSteps := completedSteps w1 ++ [id step];
                    failedSteps := failedSteps w1 |}).
      destruct (IH (S i) w2) as (later & completed & failed & H1 & H2 & H3 & H4 & H5).
      destruct F as [F_1 F_2 F_3 F_4 F_5]; simpl in *.
      exists (cs ++ later), (id step :: completed), failed.
      rewrite H1, H2, H3, F_1, F_2, F_3, <- !app_assoc. simpl.
      repeat split; try done.
      * apply chained_app. split; [done|]. by rewrite <- F_5.
      * by apply loop_ok.
Qed.

(** An entry point either rejects before any call, or runs the loop over
    the resolved order from its start index. *)
Lemma enter_cases this rid entry :
  (∃ e, ScrapeRunnerImpl.enter this rid entry
        = (ScrapeRunnerImpl.newWorld (initialContext this rid entry), inl e) ∧
        match Resolver.resolveDependencies (ScrapeRunnerImpl._steps this) with
        | inl e' => e = e'
        | inr ordered =>
            match entry with
            | ScrapeRunnerImpl.Run options =>
                startIndexOf entry ordered < 0 ∧
                e = StepNotFound (default EmptyString (RunOptions.startStepId options))
            | ScrapeRunnerImpl.Resume state _ =>
                (RunnerState.stepIndex state < 0 ∨
                 RunnerState.stepIndex state >= Z.of_nat (length ordered)) ∧
                e = InvalidStepIndex (RunnerState.stepIndex state)
            end
        end)
  ∨
  (∃ ordered cs completed failed out,
     Resolver.resolveDependencies (ScrapeRunnerImpl._steps this) = inr ordered ∧
     0 <= startIndexOf entry ordered ∧
     match entry with
     | ScrapeRunnerImpl.Run _ => True
     | ScrapeRunnerImpl.Resume _ _ =>
         startIndexOf entry ordered < Z.of_nat (length ordered)
     end ∧
     calls (ScrapeRunnerImpl.enter this rid entry).1 = cs ∧
     completedSteps (ScrapeRunnerImpl.enter this rid entry).1
       = seedCompleted entry ++ completed ∧
     failedSteps (ScrapeRunnerImpl.enter this rid entry).1
       = seedFailed entry ++ failed ∧
     chained (initialContext this rid entry) cs ∧
     LoopTrace this (startIndexOf entry ordered) (Z.of_nat (length ordered)) 0
       (slice (startIndexOf entry ordered) ordered) cs completed failed out ∧
     (ScrapeRunnerImpl.enter this rid entry).2
     = match out with
       | inl e => inl e
       | inr _ =>
           inr {| RunResult.totalSteps := Z.of_nat (length ordered);
                  RunResult.completedSteps := seedCompleted entry ++ completed;
                  RunResult.failedSteps := seedFailed entry ++ failed |}
       end).
Proof.
  destruct entry as [options|state options]; simpl.
  - unfold ScrapeRunnerImpl.run, mbind, M_bind, lift. simpl.
    destruct (Resolver.resolveDependencies (ScrapeRunnerImpl._steps this))
      as [e|ordered] eqn:E; simpl.
    { left. by exists e. }
    set (start := match RunOptions.startStepId options with
                  | Some sid => _ | None => 0 end).
    destruct (decide (start < 0)) as [Hneg|Hpos]; simpl.
    { left. eexists. split; [done|]. by split. }
    right.
    set (w0 := {| context := _; calls := []; completedSteps := [];
                  failedSteps := [] |}).
    destruct (stepLoop_trace this start (Z.of_nat (length ordered))
                (slice start ordered) 0%nat w0)
      as (cs & completed & failed & H1 & H2 & H3 & H4 & H5).
    destruct (ScrapeRunnerImpl.stepLoop this start _ 0 _ w0) as [w1 out];
      simpl in *.
    exists ordered, cs, completed, failed, out.
    destruct out as [e|[]]; simpl; repeat split; try done; try lia.
    unfold ScrapeRunnerImpl.runResult, mbind, M_bind, getWorld, mret, M_ret.
    simpl. by rewrite H2, H3.
  - unfold ScrapeRunnerImpl.resume, mbind, M_bind, lift. simpl.
    destruct (Resolver.resolveDependencies (ScrapeRunnerImpl._steps this))
      as [e|ordered] eqn:E; simpl.
    { left. by exists e. }
    destruct (decide (RunnerState.stepIndex state < 0 ∨
                      RunnerState.stepIndex state >= Z.of_nat (length ordered)))
      as [Hout|Hin]; simpl.
    { left. eexists. split; [done|]. by split. }
    right.
    set (w0 := {| context := _; calls := [];
                  completedSteps := RunnerState.completedStepIds state;
                  failedSteps := RunnerState.failedStepIds state |}).
    destruct (stepLoop_trace this (RunnerState.stepIndex state)
                (Z.of_nat (length ordered))
                (slice (RunnerState.stepIndex state) ordered) 0%nat w0)
      as (cs & completed & failed & H1 & H2 & H3 & H4 & H5).
    destruct (ScrapeRunnerImpl.stepLoop this _ _ 0 _ w0) as [w1 out];
      simpl in *.
    exists ordered, cs, completed, failed, out.
    destruct out as [e|[]]; simpl; repeat split; try done; try lia.
    unfold ScrapeRunnerImpl.runResult, mbind, M_bind, getWorld, mret, M_ret.
    simpl. by rewrite H2, H3.
Qed.

End RunnerTraces.

(** ** What the traces of the loop look like *)

Section LoopTraces.

Lemma Fired_quiet exp cs out :
  Fired exp cs out → Forall quiet cs → out = inr () ∧ map shape cs = exp.
Proof.
  intros H Hq. inversion H as [|cs0 c v Hp Hq0 Hv]; subst; [done|].
  apply Forall_app in Hq as [_ Hq]. apply Forall_inv in Hq.
  unfold quiet in Hq. congruence.
Qed.

Lemma Fired_shapes exp cs out c :
  Fired exp cs out → c ∈ cs → shape c ∈ exp.
Proof.
  intros H Hc. inversion H as [? Hs|cs0 c0 v Hp _ _]; subst.
  - by apply list_elem_of_fmap_2.
  - destruct Hp as [k ->]. apply elem_of_app. left.
    by apply list_elem_of_fmap_2.
Qed.

Lemma Fired_threw_inv exp cs e :
  Fired exp cs (inl e) → ∃ c v, c ∈ cs ∧ c_thrown c = Some v ∧ e = Thrown v.
Proof.
  inversion 1 as [|cs0 c v _ _ Hv]; subst. exists c, v.
  split; [|done]. apply elem_of_app. right. apply list_elem_of_here.
Qed.

Lemma present_hook {A} (h : option A) who step ev err c :
  who ≠ StepRun → shape c ∈ present h (who, step, ev, err) → hookOf step ev c.
Proof.
  intros Hw. destruct h; simpl; [|by intros ?%elem_of_nil].
  intros [= Hc Hs He _]%list_elem_of_singleton.
  unfold hookOf, isRun. rewrite Hc. done.
Qed.

Lemma beforeShapes_hook this step ev c :
  shape c ∈ beforeShapes this step ev → hookOf step ev c.
Proof. intros [H|H]%elem_of_app; by eapply present_hook in H. Qed.

Lemma afterShapes_hook this step ev c :
  shape c ∈ afterShapes this step ev → hookOf step ev c.
Proof. intros [H|H]%elem_of_app; by eapply present_hook in H. Qed.

Lemma errorShapes_hook this step ev e c :
  shape c ∈ errorShapes this step ev e → hookOf step ev c.
Proof. intros [H|H]%elem_of_app; by eapply present_hook in H. Qed.

Lemma bodies_hooks step ev cs : Forall (hookOf step ev) cs → bodies cs = [].
Proof.
  unfold bodies. induction 1 as [|c cs [Hc _] _ IH]; [done|].
  rewrite filter_cons, decide_False by done. done.
Qed.

Lemma bodies_app cs1 cs2 : bodies (cs1 ++ cs2) = bodies cs1 ++ bodies cs2.
Proof. unfold bodies. by rewrite filter_app, map_app. Qed.

Lemma bodies_run rc step ev cs :
  shape rc = (StepRun, step, ev, None) → bodies (rc :: cs) = step :: bodies cs.
Proof.
  intros [= Hc Hs _ _]. unfold bodies.
  rewrite filter_cons, decide_True by done. simpl. by rewrite Hs.
Qed.

Lemma Fired_before_hooks this step ev cs out :
  Fired (beforeShapes this step ev) cs out → Forall (hookOf step ev) cs.
Proof.
  intros H. apply Forall_forall. intros c Hc.
  eapply beforeShapes_hook, Fired_shapes; done.
Qed.

Lemma Fired_after_hooks this step ev cs out :
  Fired (afterShapes this step ev) cs out → Forall (hookOf step ev) cs.
Proof.
  intros H. apply Forall_forall. intros c Hc.
  eapply afterShapes_hook, Fired_shapes; done.
Qed.

Lemma Fired_error_hooks this step ev e cs out :
  Fired (errorShapes this step ev e) cs out → Forall (hookOf step ev) cs.
Proof.
  intros H. apply Forall_forall. intros c Hc.
  eapply errorShapes_hook, Fired_shapes; done.
Qed.

(** A step that ran without error: exactly the calls of [successShapes],
    all of which returned. *)
Lemma ExecTrace_ok this step ev cs :
  ExecTrace this step ev cs (inr ()) →
  map shape cs = successShapes this step ev ∧ Forall quiet cs ∧ bodies cs = [step].
Proof.
  inversion 1 as [| |bs rc afters out Hb Hrc Hq Ha]; subst.
  apply Fired_quiet in Hb as Hb'; [|by inversion Hb].
  assert (Forall quiet bs) as Hqb by (by inversion Hb).
  assert (Forall quiet afters) as Hqa by (by inversion Ha).
  apply Fired_quiet in Ha as Ha'; [|done].
  destruct Hb' as [_ Hb'], Ha' as [_ Ha'].
  split; [|split].
  - rewrite map_app. simpl. unfold successShapes. by rewrite Hb', Hrc, Ha'.
  - apply Forall_app. split; [done|]. by constructor.
  - rewrite bodies_app, (bodies_run rc step ev) by done.
    rewrite (bodies_hooks step ev bs) by (by eapply Fired_before_hooks).
    by rewrite (bodies_hooks step ev afters) by (by eapply Fired_after_hooks).
Qed.

(** A step that failed: some call threw, every call is on that step, and
    the error is a thrown value. *)
Lemma ExecTrace_failed this step ev cs e :
  ExecTrace this step ev cs (inl e) →
  (∃ c, c ∈ cs ∧ ¬ quiet c) ∧
  Forall (fun c => c_step c = step ∧ c_event c = ev) cs ∧
  (bodies cs = [] ∨ bodies cs = [step]) ∧
  ∃ v, e = Thrown v.
Proof.
  inversion 1 as [bs ? Hb|bs rc v es out Hb Hrc Hv He|bs rc afters out Hb Hrc Hq Ha];
    subst.
  - destruct (Fired_threw_inv _ _ _ Hb) as (c & v & Hc & Hv & ->).
    pose proof (Fired_before_hooks _ _ _ _ _ Hb) as Hh.
    split; [|split; [|split]].
    + exists c. split; [done|]. unfold quiet. congruence.
    + eapply Forall_impl; [done|]. by intros ? (_ & ? & ?).
    + left. by eapply bodies_hooks.
    + by exists v.
  - pose proof (Fired_before_hooks _ _ _ _ _ Hb) as Hh.
    pose proof (Fired_error_hooks _ _ _ _ _ _ He) as Hh'.
    split; [|split; [|split]].
    + exists rc. split; [|unfold quiet; congruence].
      apply elem_of_app. right. apply list_elem_of_here.
    + apply Forall_app. split; [|constructor].
      * eapply Forall_impl; [done|]. by intros ? (_ & ? & ?).
      * by injection Hrc as _ -> -> _.
      * eapply Forall_impl; [done|]. by intros ? (_ & ? & ?).
    + right. rewrite bodies_app, (bodies_run rc step ev) by done.
      by rewrite (bodies_hooks step ev bs), (bodies_hooks step ev es).
    + destruct out as [e'|[]]; simpl; [|by exists v].
      destruct (Fired_threw_inv _ _ _ He) as (c & v' & _ & _ & ->). by exists v'.
  - destruct (Fired_threw_inv _ _ _ Ha) as (c & v & Hc & Hv & ->).
    pose proof (Fired_before_hooks _ _ _ _ _ Hb) as Hh.
    pose proof (Fired_after_hooks _ _ _ _ _ Ha) as Hh'.
    split; [|split; [|split]].
    + exists c. split; [|unfold quiet; congruence].
      apply elem_of_app. right. by apply list_elem_of_further.
    + apply Forall_app. split; [|constructor].
      * eapply Forall_impl; [done|]. by intros ? (_ & ? & ?).
      * by injection Hrc as _ -> -> _.
      * eapply Forall_impl; [done|]. by intros ? (_ & ? & ?).
    + right. rewrite bodies_app, (bodies_run rc step ev) by done.
      by rewrite (bodies_hooks step ev bs), (bodies_hooks step ev afters).
    + by exists v.
Qed.

End LoopTraces.

Section LoopSegments.

Lemma rethrown_thrown e out exp cs :
  (∃ v, e = Thrown v) → Fired exp cs out → ∃ v, rethrown e out = Thrown v.
Proof.
  intros He HF. destruct out as [e'|[]]; simpl; [|done].
  destruct (Fired_threw_inv _ _ _ HF) as (c & v & _ & _ & ->). by exists v.
Qed.

(** The calls of the loop split into the segments of the steps that ran
    without error, followed by the calls of the step that failed, if any. *)
Lemma LoopTrace_segments this start total i todo cs completed failed out :
  LoopTrace this start total i todo cs completed failed out →
  ∃ n done tail,
    cs = done ++ tail ∧
    completed = map id (take n todo) ∧
    map shape done
      = successRun this total (indexed (start + Z.of_nat i) (take n todo)) ∧
    Forall quiet done ∧
    bodies done = take n todo ∧
    match out with
    | inr _ => tail = [] ∧ n = length todo ∧ failed = []
    | inl e =>
        ∃ step,
          todo !! n = Some step ∧ failed = [id step] ∧
          Forall (fun c => c_step c = step ∧
                           c_event c = eventOf step (start + Z.of_nat (i + n)) total)
            tail ∧
          (bodies tail = [] ∨ bodies tail = [step]) ∧
          (∃ c, c ∈ tail ∧ ¬ quiet c) ∧
          ∃ v, e = Thrown v
    end.
Proof.
  induction 1 as [i|i step todo cs later completed failed out HE HL IH
                  |i step todo cs e outer out HE HF].
  - exists 0%nat, [], []. by repeat split.
  - destruct IH as (n & done & tail & -> & -> & Hsh & Hq & Hb & Hout).
    destruct (ExecTrace_ok _ _ _ _ HE) as (Hs1 & Hq1 & Hb1).
    exists (S n), (cs ++ done), tail. simpl.
    split; [by rewrite app_assoc|]. split; [done|].
    split; [|split; [by apply Forall_app|split]].
    + rewrite map_app, Hs1, Hsh. unfold successRun. simpl.
      do 3 f_equal. lia.
    + by rewrite bodies_app, Hb1, Hb.
    + destruct out as [e|[]].
      * destruct Hout as (s & H1 & H2 & H3 & H4).
        exists s. split; [done|]. split; [done|]. split; [|done].
        eapply Forall_impl; [done|]. intros c [? ->]. split; [done|].
        f_equal. lia.
      * destruct Hout as (-> & -> & ->). done.
  - destruct (ExecTrace_failed _ _ _ _ _ HE) as ((c & Hc & Hnq) & Hall & Hbod & Hv).
    pose proof (Fired_error_hooks _ _ _ _ _ _ HF) as Hh.
    exists 0%nat, [], (cs ++ outer). simpl.
    repeat split; try done; try constructor.
    exists step. split; [done|]. split; [done|].
    rewrite Nat.add_0_r. split; [|split; [|split]].
    + apply Forall_app. split; [done|].
      eapply Forall_impl; [done|]. by intros ? (_ & ? & ?).
    + rewrite bodies_app, (bodies_hooks _ _ outer Hh), app_nil_r. done.
    + exists c. split; [|done]. apply elem_of_app. by left.
    + by eapply rethrown_thrown.
Qed.

(** Bodies are called in the order of the steps to run; when every callee
    returns, all of them are, and the loop ends normally. *)
Lemma LoopTrace_bodies this start total i todo cs completed failed out :
  LoopTrace this start total i todo cs completed failed out →
  bodies cs `prefix_of` todo ∧
  (Forall quiet cs →
   out = inr () ∧ bodies cs = todo ∧ completed = map id todo ∧ failed = []).
Proof.
  intros HL.
  destruct (LoopTrace_segments _ _ _ _ _ _ _ _ _ HL)
    as (n & done & tail & -> & -> & _ & Hq & Hb & Hout).
  destruct out as [e|[]].
  - destruct Hout as (step & Hn & -> & Hall & Hbod & (c & Hc & Hnq) & _).
    split.
    + rewrite bodies_app, Hb. rewrite <- (take_drop n todo) at 2.
      apply prefix_app. destruct Hbod as [->| ->]; [apply prefix_nil|].
      rewrite (drop_S _ _ _ Hn). by exists (drop (S n) todo).
    + intros Hall'. apply Forall_app in Hall' as [_ Hall'].
      exfalso. apply Hnq. by eapply Forall_forall in Hall'.
  - destruct Hout as (-> & -> & ->). rewrite app_nil_r, firstn_all in *.
    split; [by rewrite Hb|done].
Qed.





End LoopSegments.

(** ** Properties of [run] and [resume] *)

Section RunnerClaims.

Lemma map_fst_indexed start l : map fst (indexed start l) = l.
Proof. revert start. induction l as [|s l IH]; intros start; simpl; [done|]. by rewrite IH. Qed.

Lemma lookup_slice {A} (start : Z) (l : list A) (k : nat) :
  0 <= start → slice start l !! k = l !! Z.to_nat (start + Z.of_nat k).
Proof.
  intros H. unfold slice. rewrite lookup_drop. f_equal. lia.
Qed.



Lemma LoopTrace_thrown this start total i todo cs completed failed e :
  LoopTrace this start total i todo cs completed failed (inl e) →
  ∃ v, e = Thrown v.
Proof.
  intros HL. destruct (LoopTrace_segments _ _ _ _ _ _ _ _ _ HL)
    as (n & done & tail & _ & _ & _ & _ & _ & step & _ & _ & _ & _ & _ & Hv).
  done.
Qed.

Lemma LoopTrace_first this start total i step todo cs completed failed out :
  LoopTrace this start total i (step :: todo) cs completed failed out →
  ∃ c cs', cs = c :: cs' ∧ c_step c = step ∧
           c_event c = eventOf step (start + Z.of_nat i) total.
Proof.
  inversion 1 as [|? ? ? seg later ? ? ? HE HL|? ? ? seg e outer out' HE HF]; subst.
  - destruct (ExecTrace_ok _ _ _ _ HE) as (Hs & _ & _).
    destruct seg as [|c seg].
    { unfold successShapes in Hs. simpl in Hs. by destruct (beforeShapes _ _ _). }
    exists c, (seg ++ later). split; [done|].
    assert (shape c ∈ successShapes this step
                        (eventOf step (start + Z.of_nat i) total)) as Hin.
    { rewrite <- Hs. apply list_elem_of_here. }
    unfold successShapes in Hin.
    apply elem_of_app in Hin as [Hin|Hin].
    { apply beforeShapes_hook in Hin as (_ & ? & ?). done. }
    apply elem_of_cons in Hin as [Hin|Hin].
    { by injection Hin as _ ? ? _. }
    apply afterShapes_hook in Hin as (_ & ? & ?). done.
  - destruct (ExecTrace_failed _ _ _ _ _ HE) as ((c0 & Hc0 & _) & Hall & _).
    destruct seg as [|c seg]; [by apply elem_of_nil in Hc0|].
    exists c, (seg ++ outer). split; [done|].
    by apply Forall_inv in Hall.
Qed.

(** C9: once the steps are resolved, [resume] with a step index outside
    [[0, number of ordered steps)] rejects with the invalid-step-index
    error before any call; with an index inside, the first call is made for
    the step at that index, against a context whose [data] is the payload
    of the state, and [resume] does not reject with that error. *)
Theorem resume_step_index (this : ScrapeRunnerImpl.t) (rid : string)
    (state : RunnerState.t) (options : RunOptions.t) (ordered : list PipelineStep) :
  Resolver.resolveDependencies (ScrapeRunnerImpl._steps this) = inr ordered →
  let index := RunnerState.stepIndex state in
  (index < 0 ∨ index >= Z.of_nat (length ordered) →
   ScrapeRunnerImpl.resume this rid state options
   = (ScrapeRunnerImpl.newWorld
        (initialContext this rid (ScrapeRunnerImpl.Resume state options)),
      inl (InvalidStepIndex index)))
  ∧
  (0 <= index < Z.of_nat (length ordered) →
   (ScrapeRunnerImpl.resume this rid state options).2 ≠ inl (InvalidStepIndex index) ∧
   ∃ c later,
     calls (ScrapeRunnerImpl.resume this rid state options).1 = c :: later ∧
     ordered !! Z.to_nat index = Some (c_step c) ∧
     stepIndex (c_event c) = index ∧
     data (c_context c) = default ∅ (RunnerState.payload state)).
Proof.
  intros Hres index.
  destruct (enter_cases this rid (ScrapeRunnerImpl.Resume state options))
    as [(e & He & Hcase)
       |(ordered' & cs & completed & failed & out & Hres' & H0 & Hlt & Hcs & Hc &
         Hf & Hch & HL & Hout)]; simpl in *.
  - rewrite Hres in Hcase. destruct Hcase as [Hrange ->].
    split; [done|]. fold index in Hrange. lia.
  - rewrite Hres in Hres'. injection Hres' as <-. fold index in H0, Hlt.
    split; [lia|]. intros _. split.
    + rewrite Hout. destruct out as [e|[]]; [|done].
      destruct (LoopTrace_thrown _ _ _ _ _ _ _ _ _ HL) as [v ->]. done.
    + destruct (slice index ordered) as [|step todo] eqn:Hsl.
      { apply (f_equal length) in Hsl. unfold slice in Hsl.
        rewrite length_drop in Hsl. simpl in Hsl. lia. }
      unfold index in Hsl. rewrite Hsl in HL. fold index in Hsl, HL.
      destruct (LoopTrace_first _ _ _ _ _ _ _ _ _ _ HL) as (c & cs' & -> & Hst & Hev).
      exists c, cs'. split; [done|]. split; [|split].
      * pose proof (lookup_slice index ordered 0 H0) as Hl.
        rewrite Hsl in Hl. simpl in Hl. rewrite Z.add_0_r in Hl. congruence.
      * rewrite Hev. simpl. lia.
      * destruct Hch as [-> _]. unfold seedData, ScrapeContextImpl.
        destruct (RunnerState.payload state) as [p|]; simpl; [|done].
        unfold spread. apply (right_id_L ∅ (∪)).
Qed.

End RunnerClaims.

(** ** Failures of the resolver *)

Section ResolverFailures.
Import Resolver.

Lemma JsMap_keys_set {V} k k' (v : V) (m : JsMap.t V) :
  k' ∈ JsMap.keys (JsMap.set k v m) ↔ k' = k ∨ k' ∈ JsMap.keys m.
Proof.
  induction m as [|[k0 v0] m IH]; simpl.
  - rewrite list_elem_of_singleton, elem_of_nil. tauto.
  - destruct (String.eqb_spec k k0) as [->|Hne]; simpl.
    + rewrite !elem_of_cons. tauto.
    + rewrite !elem_of_cons, IH. tauto.
Qed.

Lemma JsMap_has_keys {V} k (m : JsMap.t V) :
  JsMap.has k m = true ↔ k ∈ JsMap.keys m.
Proof.
  unfold JsMap.has. destruct (JsMap.get k m) eqn:E.
  - apply JsMap_get_Some_keys in E. tauto.
  - apply JsMap_get_None_keys in E. split; [done|tauto].
Qed.

Lemma register_keys l : ∀ m d,
  d ∈ JsMap.keys (stepMap (fold_left register l m)) ↔
  d ∈ JsMap.keys (stepMap m) ∨ d ∈ map id l.
Proof.
  induction l as [|s l IH]; intros m d; simpl.
  - rewrite elem_of_nil. tauto.
  - rewrite IH. simpl. rewrite JsMap_keys_set, elem_of_cons. tauto.
Qed.

(** After the first loop, [stepMap.has] tells the supplied ids. *)
Lemma registerAll_has steps d :
  JsMap.has d (stepMap (registerAll steps)) = true ↔ d ∈ map id steps.
Proof.
  rewrite JsMap_has_keys. unfold registerAll. rewrite register_keys. simpl.
  rewrite elem_of_nil. tauto.
Qed.

Lemma addEdges_cases k ds : ∀ m,
  (∃ m', addEdges k ds m = inr m' ∧ stepMap m' = stepMap m ∧
         ∀ d, d ∈ ds → JsMap.has d (stepMap m) = true)
  ∨ (∃ d, d ∈ ds ∧ JsMap.has d (stepMap m) = false ∧
          addEdges k ds m = inl (DependencyNotFound d k)).
Proof.
  induction ds as [|d ds IH]; intros m; simpl.
  - left. exists m. repeat split. by intros ? ?%elem_of_nil.
  - unfold addEdge. destruct (JsMap.has d (stepMap m)) eqn:Hd.
    + set (m1 := {| stepMap := stepMap m; inDegree := _; graph := _ |}).
      destruct (IH m1) as [(m' & E & Hm & Hall)|(d' & Hin & Hno & E)].
      * left. exists m'. split; [done|]. split; [done|].
        intros d0 [->|H0]%elem_of_cons; [done|]. by apply Hall.
      * right. exists d'. split; [by apply list_elem_of_further|]. by split.
    + right. exists d. split; [apply list_elem_of_here|]. by split.
Qed.

Lemma linkAll_cases todo : ∀ m,
  (∃ m', linkAll todo m = inr m' ∧ stepMap m' = stepMap m ∧
         ∀ s d, s ∈ todo → d ∈ deps s → JsMap.has d (stepMap m) = true)
  ∨ (∃ s d, s ∈ todo ∧ d ∈ deps s ∧ JsMap.has d (stepMap m) = false ∧
            linkAll todo m = inl (DependencyNotFound d (id s))).
Proof.
  induction todo as [|s todo IH]; intros m; simpl.
  - left. exists m. repeat split. by intros ? ? ?%elem_of_nil.
  - destruct (addEdges_cases (id s) (default [] (dependencies s)) m)
      as [(m1 & E1 & Hm1 & Hall1)|(d & Hin & Hno & E1)]; rewrite E1.
    + destruct (IH m1) as [(m' & E & Hm & Hall)|(s' & d' & Hs' & Hd' & Hno & E)].
      * left. exists m'. split; [done|]. split; [congruence|].
        intros s0 d0 [->|H0]%elem_of_cons Hd0; [by apply Hall1|].
        rewrite <- Hm1. by apply (Hall s0).
      * right. exists s', d'. split; [by apply list_elem_of_further|].
        split; [done|]. split; [congruence|done].
    + right. exists s, d. split; [apply list_elem_of_here|]. by split.
Qed.

(** Along dependencies, positions in an order with [DepsBefore] go down. *)
Lemma DepsBefore_tc steps order a b :
  NoDup (map id steps) → (∀ s, s ∈ order → s ∈ steps) → DepsBefore order →
  tc (dependsOn steps) a b →
  ∀ i s, order !! i = Some s → id s = a →
    ∃ j s', (j < i)%nat ∧ order !! j = Some s' ∧ id s' = b.
Proof.
  intros Hnd Hsub Hbefore. induction 1 as [a b Hab|a b c Hab _ IH]; intros i s Hi Hs.
  - destruct Hab as (s0 & Hs0 & Ha & Hb).
    assert (s = s0) as ->.
    { apply (id_inj_on steps); try done; [|congruence].
      apply Hsub. by eapply list_elem_of_lookup_2. }
    pose proof (Hbefore i s0 b Hi Hb) as Hin.
    apply list_elem_of_fmap in Hin as (s' & -> & Hin).
    apply list_elem_of_lookup in Hin as [j Hj].
    apply lookup_take_Some in Hj as [Hj Hlt]. by exists j, s'.
  - destruct Hab as (s0 & Hs0 & Ha & Hb).
    assert (s = s0) as ->.
    { apply (id_inj_on steps); try done; [|congruence].
      apply Hsub. by eapply list_elem_of_lookup_2. }
    pose proof (Hbefore i s0 b Hi Hb) as Hin.
    apply list_elem_of_fmap in Hin as (s' & -> & Hin).
    apply list_elem_of_lookup in Hin as [j Hj].
    apply lookup_take_Some in Hj as [Hj Hlt].
    destruct (IH j s' Hj eq_refl) as (j' & s'' & Hlt' & Hj' & Hc).
    exists j', s''. split; [lia|done].
Qed.

(** A step on a cycle is never output. *)
Lemma cycle_unresolved steps m x :
  NoDup (map id steps) → Linked steps (edges steps) m →
  tc (dependsOn steps) x x → x ∉ map id (result (kahn m)).
Proof.
  intros Hnd HL Hx Hin.
  pose proof (KahnInv_kahn steps m Hnd HL) as Hinv.
  apply list_elem_of_fmap in Hin as (s & -> & Hs).
  apply list_elem_of_lookup in Hs as [i Hi].
  destruct (DepsBefore_tc steps (result (kahn m)) _ _ Hnd
              (inv_steps _ _ Hinv) (inv_before _ _ Hinv) Hx i s Hi eq_refl)
    as (j & s' & Hlt & Hj & Heq).
  pose proof (inv_nodup _ _ Hinv) as Hnd'.
  rewrite Resolver_kahn_drains, app_nil_r in Hnd'.
  assert (i = j); [|lia].
  eapply NoDup_lookup; [exact Hnd'| |].
  - rewrite list_lookup_fmap, Hi. done.
  - rewrite list_lookup_fmap, Hj. simpl. by rewrite Heq.
Qed.

End ResolverFailures.

(** ** Dependency resolution and [run]: main properties *)

Section ResolutionClaims.

(** C1: on a step set that forms a valid DAG the resolver returns an order
    that holds every supplied step exactly once, each step after all of
    its dependencies, the steps without dependencies first and in supply
    order; [run] calls the bodies in that order, and when every callee
    returns it calls all of them and returns the ids in that order as
    [completedSteps], with no failed step. *)
Theorem resolution_order_and_run (this : ScrapeRunnerImpl.t) (rid : string)
    (options : RunOptions.t) :
  ValidDAG (ScrapeRunnerImpl._steps this) →
  RunOptions.startStepId options = None →
  ∃ order,
    Resolver.resolveDependencies (ScrapeRunnerImpl._steps this) = inr order ∧
    order ≡ₚ ScrapeRunnerImpl._steps this ∧
    DepsBefore order ∧
    (∃ later,
       order = filter (fun s => deps s = []) (ScrapeRunnerImpl._steps this) ++ later) ∧
    bodies (calls (ScrapeRunnerImpl.run this rid options).1) `prefix_of` order ∧
    (Forall quiet (calls (ScrapeRunnerImpl.run this rid options).1) →
     bodies (calls (ScrapeRunnerImpl.run this rid options).1) = order ∧
     (ScrapeRunnerImpl.run this rid options).2
     = inr {| RunResult.totalSteps := Z.of_nat (length order);
              RunResult.completedSteps := map id order;
              RunResult.failedSteps := [] |}).
Proof.
  intros Hdag Hstart.
  destruct (Resolver_valid_dag _ Hdag) as (order & Hres & Hperm & Hbefore & Hties).
  exists order. split; [done|]. split; [done|]. split; [done|]. split; [done|].
  destruct (enter_cases this rid (ScrapeRunnerImpl.Run options))
    as [(e & He & Hcase)
       |(ordered & cs & completed & failed & out & Hres' & H0 & _ & Hcs & Hc &
         Hf & Hch & HL & Hout)]; simpl in *.
  { rewrite Hres, Hstart in Hcase. destruct Hcase as [Hneg _]. lia. }
  rewrite Hres in Hres'. injection Hres' as <-.
  rewrite Hstart in HL. unfold slice in HL. simpl in HL.
  destruct (LoopTrace_bodies _ _ _ _ _ _ _ _ _ HL) as [Hpre Hall].
  rewrite Hcs. split; [done|]. intros Hq.
  destruct (Hall Hq) as (-> & Hb & -> & ->). split; [done|].
  by rewrite Hout.
Qed.

Lemma sample_ValidDAG : ValidDAG [stepC; stepA; stepB].
Proof.
  split.
  - apply (bool_decide_unpack _). by vm_compute.
  - intros s d Hs Hd. simpl.
    repeat (apply elem_of_cons in Hs as [->|Hs]);
      [| | |by apply elem_of_nil in Hs]; simpl in Hd;
      repeat (apply elem_of_cons in Hd as [->|Hd]);
      try (by apply elem_of_nil in Hd);
      apply (bool_decide_unpack _); by vm_compute.
  - apply (Acyclic_by_rank _ sampleRank). intros s d Hs Hd.
    repeat (apply elem_of_cons in Hs as [->|Hs]);
      [| | |by apply elem_of_nil in Hs]; simpl in Hd;
      repeat (apply elem_of_cons in Hd as [->|Hd]);
      try (by apply elem_of_nil in Hd); vm_compute; lia.
Qed.

Lemma resolution_order_and_run_witness :
  ValidDAG (ScrapeRunnerImpl._steps sampleRunner) ∧
  RunOptions.startStepId RunOptions.none = None ∧
  ∃ order,
    Resolver.resolveDependencies (ScrapeRunnerImpl._steps sampleRunner) = inr order ∧
    order ≡ₚ ScrapeRunnerImpl._steps sampleRunner ∧
    DepsBefore order ∧
    (∃ later,
       order = filter (fun s => deps s = []) (ScrapeRunnerImpl._steps sampleRunner)
               ++ later) ∧
    bodies (calls (ScrapeRunnerImpl.run sampleRunner "run-1" RunOptions.none).1)
      `prefix_of` order ∧
    (Forall quiet (calls (ScrapeRunnerImpl.run sampleRunner "run-1" RunOptions.none).1) →
     bodies (calls (ScrapeRunnerImpl.run sampleRunner "run-1" RunOptions.none).1)
     = order ∧
     (ScrapeRunnerImpl.run sampleRunner "run-1" RunOptions.none).2
     = inr {| RunResult.totalSteps := Z.of_nat (length order);
              RunResult.completedSteps := map id order;
              RunResult.failedSteps := [] |}).
Proof.
  split; [exact sample_ValidDAG|]. split; [reflexivity|].
  apply (resolution_order_and_run sampleRunner "run-1" RunOptions.none);
    [exact sample_ValidDAG|reflexivity].
Defined.

(** The steps [A -> {}], [B -> {A}], [C -> {B}] supplied as [C, A, B]: the
    bodies run in the order [A, B, C]. *)
Example run_C_A_B :
  let r := ScrapeRunnerImpl.run sampleRunner "run-1" RunOptions.none in
  map id (bodies (calls r.1)) = ["A"; "B"; "C"] ∧
  r.2 = inr {| RunResult.totalSteps := 3;
               RunResult.completedSteps := ["A"; "B"; "C"];
               RunResult.failedSteps := [] |}.
Proof. by vm_compute. Qed.

End ResolutionClaims.

Section ResolutionFailureClaims.

(** C2: resolution fails as a whole.  If some declared dependency names
    no supplied step, the resolver rejects with the missing-dependency
    error of such a dependency and of the step that declares it, cycles
    or not; otherwise, if the sequence the loop produced is shorter than
    the input, it rejects with the circular-dependency error that lists
    the ids of the steps left out, and that is the case as soon as (with
    unique ids) some step lies on a cycle, which is then listed.  Whenever
    the resolver rejects, [run]/[resume] reject with the same error, no
    callee is called and no accumulator is filled. *)
Theorem resolution_fails_atomically (this : ScrapeRunnerImpl.t) (rid : string)
    (entry : ScrapeRunnerImpl.Entry) :
  let steps := ScrapeRunnerImpl._steps this in
  ((∃ s d, s ∈ steps ∧ d ∈ deps s ∧ d ∉ map id steps) →
   ∃ s d, s ∈ steps ∧ d ∈ deps s ∧ (d ∉ map id steps) ∧
          Resolver.resolveDependencies steps = inl (DependencyNotFound d (id s)))
  ∧
  (∀ m, Resolver.linkAll steps (Resolver.registerAll steps) = inr m →
        length (Resolver.result (Resolver.kahn m)) ≠ length steps →
        Resolver.resolveDependencies steps
        = inl (CircularDependency
                 (map id (Resolver.unresolved steps
                            (Resolver.result (Resolver.kahn m))))))
  ∧
  (NoDup (map id steps) →
   (∀ s d, s ∈ steps → d ∈ deps s → d ∈ map id steps) →
   ∀ x, tc (dependsOn steps) x x →
     ∃ missing, Resolver.resolveDependencies steps = inl (CircularDependency missing) ∧
                x ∈ missing)
  ∧
  (∀ e, Resolver.resolveDependencies steps = inl e →
        ScrapeRunnerImpl.enter this rid entry
        = (ScrapeRunnerImpl.newWorld (initialContext this rid entry), inl e)).
Proof.
  intros steps. split; [|split; [|split]].
  - intros (s & d & Hs & Hd & Hno).
    destruct (linkAll_cases steps (Resolver.registerAll steps))
      as [(m' & E & Hm & Hall)|(s' & d' & Hs' & Hd' & Hno' & E)].
    + exfalso. apply Hno. apply registerAll_has. by apply (Hall s).
    + exists s', d'. split; [done|]. split; [done|]. split.
      * intros Hin. apply registerAll_has in Hin. congruence.
      * unfold Resolver.resolveDependencies. by rewrite E.
  - intros m Hm Hlen. unfold Resolver.resolveDependencies. rewrite Hm. simpl.
    by rewrite decide_False.
  - intros Hnd Hcl x Hx.
    destruct (Resolver_link_ok steps Hnd Hcl) as (m & Hm & HL).
    pose proof (cycle_unresolved steps m x Hnd HL Hx) as Hout.
    pose proof (KahnInv_kahn steps m Hnd HL) as Hinv.
    assert (∃ s, s ∈ steps ∧ id s = x) as (s & Hs & <-).
    { inversion Hx as [? ? (s & Hs & Hid & _)|? ? ? (s & Hs & Hid & _) _];
        by exists s. }
    assert (s ∈ Resolver.unresolved steps (Resolver.result (Resolver.kahn m)))
      as Hun.
    { apply list_elem_of_filter. split; [|done].
      intros (r & Hr & Hid)%Exists_exists. apply Hout. rewrite <- Hid.
      by apply list_elem_of_fmap_2. }
    exists (map id (Resolver.unresolved steps (Resolver.result (Resolver.kahn m)))).
    split; [|by apply list_elem_of_fmap_2].
    unfold Resolver.resolveDependencies. rewrite Hm. simpl.
    rewrite decide_False; [done|].
    pose proof (inv_nodup _ _ Hinv) as Hnd'.
    rewrite Resolver_kahn_drains, app_nil_r in Hnd'. apply NoDup_fmap_1 in Hnd'.
    assert (s ∉ Resolver.result (Resolver.kahn m)) as Hs'.
    { intros Hin. apply Hout. by apply list_elem_of_fmap_2. }
    assert (s :: Resolver.result (Resolver.kahn m) ⊆+ steps) as Hsub.
    { apply NoDup_submseteq; [by apply NoDup_cons|].
      intros y [->|Hy]%elem_of_cons; [done|]. by apply (inv_steps _ _ Hinv). }
    apply submseteq_length in Hsub. simpl in Hsub. lia.
  - intros e He.
    destruct (enter_cases this rid entry)
      as [(e' & -> & Hcase)|(ordered & ? & ? & ? & ? & Hres & _)].
    + fold steps in Hcase. rewrite He in Hcase. by subst.
    + fold steps in Hres. congruence.
Qed.

Lemma cyclicSteps_cycle : tc (dependsOn cyclicSteps) "A" "A".
Proof.
  apply (tc_l _ _ "B").
  - exists (plainStep "A" ["B"] noop). split; [apply list_elem_of_here|].
    split; [done|]. apply list_elem_of_here.
  - apply tc_once. exists (plainStep "B" ["A"] noop).
    split; [apply list_elem_of_further, list_elem_of_here|].
    split; [done|]. apply list_elem_of_here.
Qed.

Lemma cyclicSteps_closed s d :
  s ∈ cyclicSteps → d ∈ deps s → d ∈ map id cyclicSteps.
Proof.
  intros Hs Hd.
  repeat (apply elem_of_cons in Hs as [->|Hs]);
    [| |by apply elem_of_nil in Hs]; simpl in Hd;
    repeat (apply elem_of_cons in Hd as [->|Hd]);
    try (by apply elem_of_nil in Hd);
    apply (bool_decide_unpack _); by vm_compute.
Qed.

Lemma danglingSteps_dangling :
  ∃ s d, s ∈ danglingSteps ∧ d ∈ deps s ∧ d ∉ map id danglingSteps.
Proof.
  exists (plainStep "C" ["Z"] noop), "Z". split; [|split].
  - do 2 apply list_elem_of_further. apply list_elem_of_here.
  - apply list_elem_of_here.
  - apply (bool_decide_unpack _). by vm_compute.
Qed.

End ResolutionFailureClaims.

Section RunnerWitnesses.

Lemma resolution_fails_atomically_witness :
  (* a dangling dependency next to a cycle *)
  ((∃ s d, s ∈ danglingSteps ∧ d ∈ deps s ∧ d ∉ map id danglingSteps) ∧
   ∃ s d, s ∈ danglingSteps ∧ d ∈ deps s ∧ (d ∉ map id danglingSteps) ∧
          Resolver.resolveDependencies danglingSteps
          = inl (DependencyNotFound d (id s)))
  ∧
  (* a mutual cycle *)
  (NoDup (map id cyclicSteps) ∧
   (∀ s d, s ∈ cyclicSteps → d ∈ deps s → d ∈ map id cyclicSteps) ∧
   tc (dependsOn cyclicSteps) "A" "A" ∧
   ∃ missing,
     Resolver.resolveDependencies cyclicSteps = inl (CircularDependency missing) ∧
     "A" ∈ missing)
  ∧
  (* no call is made *)
  (Resolver.resolveDependencies cyclicSteps = inl (CircularDependency ["A"; "B"]) ∧
   ScrapeRunnerImpl.enter (runnerOf cyclicSteps) "run-1"
     (ScrapeRunnerImpl.Run RunOptions.none)
   = (ScrapeRunnerImpl.newWorld
        (initialContext (runnerOf cyclicSteps) "run-1"
           (ScrapeRunnerImpl.Run RunOptions.none)),
      inl (CircularDependency ["A"; "B"]))).
Proof.
  split; [|split].
  - split; [exact danglingSteps_dangling|].
    apply (resolution_fails_atomically (runnerOf danglingSteps) "run-1"
             (ScrapeRunnerImpl.Run RunOptions.none)).
    exact danglingSteps_dangling.
  - assert (NoDup (map id cyclicSteps)) as Hnd
      by (apply (bool_decide_unpack _); by vm_compute).
    split; [exact Hnd|]. split; [exact cyclicSteps_closed|].
    split; [exact cyclicSteps_cycle|].
    apply (resolution_fails_atomically (runnerOf cyclicSteps) "run-1"
             (ScrapeRunnerImpl.Run RunOptions.none));
      [exact Hnd|exact cyclicSteps_closed|exact cyclicSteps_cycle].
  - assert (Resolver.resolveDependencies cyclicSteps
            = inl (CircularDependency ["A"; "B"])) as Hres by (by vm_compute).
    split; [exact Hres|].
    apply (resolution_fails_atomically (runnerOf cyclicSteps) "run-1"
             (ScrapeRunnerImpl.Run RunOptions.none)).
    exact Hres.
Defined.

(** A dangling dependency is reported even when the steps also hold a
    cycle: the check comes first. *)
Example dangling_before_cycle :
  tc (dependsOn danglingSteps) "A" "A" ∧
  Resolver.resolveDependencies danglingSteps = inl (DependencyNotFound "Z" "C").
Proof.
  split; [|by vm_compute].
  apply (tc_l _ _ "B").
  - exists (plainStep "A" ["B"] noop). split; [apply list_elem_of_here|].
    split; [done|]. apply list_elem_of_here.
  - apply tc_once. exists (plainStep "B" ["A"] noop).
    split; [apply list_elem_of_further, list_elem_of_here|].
    split; [done|]. apply list_elem_of_here.
Qed.




Lemma resume_step_index_witness :
  Resolver.resolveDependencies (ScrapeRunnerImpl._steps sampleRunner)
  = inr [stepA; stepB; stepC] ∧
  (* index 3 of 3 steps: rejected before any call *)
  ScrapeRunnerImpl.resume sampleRunner "run-1" lateState RunOptions.none
  = (ScrapeRunnerImpl.newWorld
       (initialContext sampleRunner "run-1"
          (ScrapeRunnerImpl.Resume lateState RunOptions.none)),
     inl (InvalidStepIndex 3)) ∧
  (* index 1: starts at [B] with the payload as data *)
  ∃ c later,
    calls (ScrapeRunnerImpl.resume sampleRunner "run-1" sampleState RunOptions.none).1
    = c :: later ∧
    [stepA; stepB; stepC] !! Z.to_nat 1 = Some (c_step c) ∧
    stepIndex (c_event c) = 1 ∧
    data (c_context c) = {["seen" := JNum 3]}.
Proof.
  assert (Resolver.resolveDependencies (ScrapeRunnerImpl._steps sampleRunner)
          = inr [stepA; stepB; stepC]) as Hres by (by vm_compute).
  split; [exact Hres|]. split.
  - apply (resume_step_index sampleRunner "run-1" lateState RunOptions.none
             [stepA; stepB; stepC] Hres).
    right. simpl. lia.
  - apply (resume_step_index sampleRunner "run-1" sampleState RunOptions.none
             [stepA; stepB; stepC] Hres).
    simpl. lia.
Defined.

(** If the body of [B] throws, [run] rejects with what it threw, both
    [onError] hooks fire, runner first, and only [A] is completed. *)
Example run_B_throws :
  let r := ScrapeRunnerImpl.run failingRunner "run-1" RunOptions.none in
  map (fun c => (callee c, id (c_step c), c_thrown c)) (calls r.1)
  = [(RunnerBeforeStep, "A", None); (StepBeforeStep, "A", None);
     (StepRun, "A", None); (RunnerAfterStep, "A", None);
     (StepAfterStep, "A", None);
     (RunnerBeforeStep, "B", None); (StepBeforeStep, "B", None);
     (StepRun, "B", Some (JStr "boom"));
     (RunnerOnError, "B", None); (StepOnError, "B", None);
     (RunnerOnError, "B", None); (StepOnError, "B", None)] ∧
  r.2 = inl (Thrown (JStr "boom")) ∧
  completedSteps r.1 = ["A"] ∧ failedSteps r.1 = ["B"].
Proof. by vm_compute. Qed.

End RunnerWitnesses.

(** ** The state store *)

Section StoreFacts.
Import StepLogger.

(** Reading back what [writeStep] wrote. *)
Lemma safeReadFile_writeStep this record fs :
  safeReadFile (logDir this) (fileName this (stepId record)) (writeStep this record fs)
  = Some (Json record).
Proof.
  unfold safeReadFile, writeStep, FS in *. rewrite lookup_insert_eq. simpl.
  apply JsMap_get_set_eq.
Qed.

Lemma readStep_writeStep this now sid record fs :
  stepId record = sid →
  readStep this now sid (writeStep this record fs) = record.
Proof. intros <-. unfold readStep. by rewrite safeReadFile_writeStep. Qed.

(** The record read for a step that none is persisted for. *)
Lemma readStep_absent this now sid fs :
  safeReadFile (logDir this) (fileName this sid) fs = None →
  readStep this now sid fs = defaultRecord sid now.
Proof. unfold readStep. by intros ->. Qed.

(** [readStep] does not look at the clock when a record is persisted. *)
Lemma readStep_clock this now now' sid fs record :
  safeReadFile (logDir this) (fileName this sid) fs = Some (Json record) →
  readStep this now sid fs = readStep this now' sid fs.
Proof. unfold readStep. by intros ->. Qed.

(** C4: on a store that persists, for a step whose file holds its own
    record: [setLogForCurrentStepIndex] with index [0] leaves a record with
    no failure; with any other index (so with every [n > 0]) it leaves
    [fails] as it was; [setLogForCurrentStepFails] puts the failure id at
    the end of [fails], the earlier entries kept in order, and leaves
    [index] as it was; each of the three stamps [updatedAt] with the clock
    reading of the call. *)
Theorem store_progress_and_failures (this : StepLogger.t) (now later : Z)
    (sid : string) (fs : FS) :
  shouldPersist this = true →
  stepId (getLogByStep this now sid fs) = sid →
  let before := getLogByStep this now sid fs in
  (let after := getLogByStep this later sid
                  (setLogForCurrentStepIndex this now sid 0 fs) in
   fails after = [] ∧ index after = 0 ∧ updatedAt after = now)
  ∧
  (∀ n, n ≠ 0 →
     let after := getLogByStep this later sid
                    (setLogForCurrentStepIndex this now sid n fs) in
     fails after = fails before ∧ index after = n ∧ updatedAt after = now)
  ∧
  (∀ failureId,
     let after := getLogByStep this later sid
                    (setLogForCurrentStepFails this now sid failureId fs) in
     fails after = fails before ++ [failureId] ∧ index after = index before ∧
     updatedAt after = now).
Proof.
  intros Hp Hid before. unfold getLogByStep in *.
  unfold setLogForCurrentStepIndex, setLogForCurrentStepFails. rewrite Hp. simpl.
  split; [|split].
  - by rewrite readStep_writeStep.
  - intros n Hn. rewrite readStep_writeStep by done. simpl.
    by rewrite decide_False.
  - intros failureId. by rewrite readStep_writeStep.
Qed.

(** The hypothesis of C4 on the files is kept by the store itself: it
    holds where nothing is persisted, and after each mutation. *)
Lemma getLogByStep_own_id_absent this now sid fs :
  safeReadFile (logDir this) (fileName this sid) fs = None →
  stepId (getLogByStep this now sid fs) = sid.
Proof. intros H. unfold getLogByStep. by rewrite readStep_absent. Qed.

Lemma getLogByStep_own_id_index this now later sid n fs :
  shouldPersist this = true →
  stepId (getLogByStep this now sid fs) = sid →
  stepId (getLogByStep this later sid (setLogForCurrentStepIndex this now sid n fs))
  = sid.
Proof.
  intros Hp Hid. unfold getLogByStep, setLogForCurrentStepIndex in *.
  rewrite Hp. simpl. by rewrite readStep_writeStep.
Qed.

Lemma getLogByStep_own_id_fails this now later sid f fs :
  shouldPersist this = true →
  stepId (getLogByStep this now sid fs) = sid →
  stepId (getLogByStep this later sid (setLogForCurrentStepFails this now sid f fs))
  = sid.
Proof.
  intros Hp Hid. unfold getLogByStep, setLogForCurrentStepFails in *.
  rewrite Hp. simpl. by rewrite readStep_writeStep.
Qed.

End StoreFacts.

Section StoreClaims.
Import StepLogger.

Lemma store_progress_and_failures_witness :
  shouldPersist productionLogger = true ∧
  stepId (getLogByStep productionLogger 3 "step-1" sampleStore) = "step-1" ∧
  fails (getLogByStep productionLogger 3 "step-1" sampleStore) = [FailNum 1] ∧
  (let after := getLogByStep productionLogger 4 "step-1"
                  (setLogForCurrentStepIndex productionLogger 3 "step-1" 0 sampleStore) in
   fails after = [] ∧ index after = 0 ∧ updatedAt after = 3) ∧
  (let after := getLogByStep productionLogger 4 "step-1"
                  (setLogForCurrentStepIndex productionLogger 3 "step-1" 7 sampleStore) in
   fails after = [FailNum 1] ∧ index after = 7 ∧ updatedAt after = 3) ∧
  (let after := getLogByStep productionLogger 4 "step-1"
                  (setLogForCurrentStepFails productionLogger 3 "step-1"
                     (FailStr "item-123") sampleStore) in
   fails after = [FailNum 1; FailStr "item-123"] ∧ index after = 5 ∧
   updatedAt after = 3).
Proof.
  assert (stepId (getLogByStep productionLogger 3 "step-1" sampleStore) = "step-1")
    as Hid by (by vm_compute).
  destruct (store_progress_and_failures productionLogger 3 4 "step-1" sampleStore
              eq_refl Hid) as (H0 & Hn & Hf).
  split; [reflexivity|]. split; [exact Hid|]. split; [by vm_compute|].
  split; [exact H0|]. split; [apply (Hn 7); lia|apply (Hf (FailStr "item-123"))].
Defined.

(** C7 as stated fails for reads: a logger that persists in production only
    and runs in development still reads what is on disk. *)
Lemma store_development_read_counterexample :
  persistInProductionOnly developmentLogger = true ∧
  isProduction developmentLogger = false ∧
  index (getLogByStep developmentLogger 3 "step-1" sampleStore) = 5 ∧
  fails (getLogByStep developmentLogger 3 "step-1" sampleStore) = [FailNum 1] ∧
  getLogByStep developmentLogger 3 "step-1" sampleStore ≠ defaultRecord "step-1" 3.
Proof. repeat split; by vm_compute. Qed.

(** C7, amended: when the store persists in production only and the mode is
    not production, every write operation (progress, failure, payload, the
    two clear operations) leaves the persisted state as it is, and a read of
    a step that no record is persisted for returns the default record
    ([index = 0], [fails = []]). *)
Theorem store_development_mode (this : StepLogger.t) (now : Z) (fs : FS) :
  persistInProductionOnly this = true →
  isProduction this = false →
  (∀ sid n, setLogForCurrentStepIndex this now sid n fs = fs) ∧
  (∀ sid failureId, setLogForCurrentStepFails this now sid failureId fs = fs) ∧
  (∀ sid p, setStepPayload this now sid p fs = fs) ∧
  (∀ sid, clearStep this sid fs = fs) ∧
  clearAll this fs = fs ∧
  (∀ sid, safeReadFile (logDir this) (fileName this sid) fs = None →
          getLogByStep this now sid fs = defaultRecord sid now ∧
          index (getLogByStep this now sid fs) = 0 ∧
          fails (getLogByStep this now sid fs) = []).
Proof.
  intros Hp Hd.
  assert (shouldPersist this = false) as Hs
    by (unfold shouldPersist; by rewrite Hp, Hd).
  unfold setLogForCurrentStepIndex, setLogForCurrentStepFails, setStepPayload,
    clearStep, clearAll. rewrite Hs. simpl.
  repeat split; try done;
    unfold getLogByStep; by rewrite readStep_absent.
Qed.

Lemma store_development_mode_witness :
  persistInProductionOnly developmentLogger = true ∧
  isProduction developmentLogger = false ∧
  setLogForCurrentStepIndex developmentLogger 3 "step-1" 9 sampleStore = sampleStore ∧
  setLogForCurrentStepFails developmentLogger 3 "step-1" (FailNum 4) sampleStore
  = sampleStore ∧
  clearAll developmentLogger sampleStore = sampleStore ∧
  getLogByStep developmentLogger 3 "step-2" sampleStore = defaultRecord "step-2" 3.
Proof.
  destruct (store_development_mode developmentLogger 3 sampleStore eq_refl eq_refl)
    as (H1 & H2 & _ & _ & H5 & H6).
  split; [reflexivity|]. split; [reflexivity|]. split; [apply H1|].
  split; [apply H2|]. split; [exact H5|]. apply H6. by vm_compute.
Defined.

End StoreClaims.

Section ResumeState.
Import StepLogger.

Lemma find_split {A} (p : A → bool) (l : list A) x :
  find p l = Some x →
  ∃ before after, l = before ++ x :: after ∧ p x = true ∧
                  Forall (fun y => p y = false) before.
Proof.
  unfold find. induction l as [|y l IH]; simpl; [done|].
  destruct (p y) eqn:E.
  - intros [= ->]. exists [], l. by repeat split.
  - intros H. destruct (IH H) as (before & after & -> & Hx & Hb).
    exists (y :: before), after. repeat split; try done. by constructor.
Qed.

Lemma find_none {A} (p : A → bool) (l : list A) :
  find p l = None → Forall (fun y => p y = false) l.
Proof.
  unfold find. induction l as [|y l IH]; simpl; [by constructor|].
  destruct (p y) eqn:E; [done|]. intros H. constructor; auto.
Qed.

(** The last match: the first one of the reversed list. *)
Lemma find_reverse_split {A} (p : A → bool) (l : list A) x :
  find p (reverse l) = Some x →
  ∃ before after, l = before ++ x :: after ∧ p x = true ∧
                  Forall (fun y => p y = false) after.
Proof.
  intros H. destruct (find_split p _ x H) as (b & a & Hl & Hx & Hb).
  exists (reverse a), (reverse b). split; [|split; [done|]].
  - apply (f_equal reverse) in Hl. rewrite reverse_involutive in Hl.
    by rewrite Hl, reverse_app, reverse_cons, <- app_assoc.
  - apply Forall_reverse. done.
Qed.

Lemma find_reverse_none {A} (p : A → bool) (l : list A) :
  find p (reverse l) = None → Forall (fun y => p y = false) l.
Proof. intros H. apply find_none in H. by apply Forall_reverse. Qed.

Lemma insertByTime_perm r l : insertByTime r l ≡ₚ r :: l.
Proof.
  induction l as [|r' l IH]; simpl; [done|].
  case_decide; [done|]. rewrite IH. apply Permutation_swap.
Qed.


Lemma insertByTime_sorted r l :
  StronglySorted (fun a b => updatedAt a <= updatedAt b) l →
  StronglySorted (fun a b => updatedAt a <= updatedAt b) (insertByTime r l).
Proof.
  induction 1 as [|r' l Hs IH Hall]; simpl.
  - repeat constructor.
  - case_decide as Hle.
    + constructor; [by constructor|]. constructor; [done|].
      eapply Forall_impl; [done|]. simpl. intros. lia.
    + constructor; [done|]. rewrite insertByTime_perm.
      constructor; [lia|done].
Qed.

(** [getAllLogs] lists the records by [updatedAt], oldest first. *)
Lemma getAllLogs_sorted this fs :
  StronglySorted (fun a b => updatedAt a <= updatedAt b) (getAllLogs this fs).
Proof.
  unfold getAllLogs.
  match goal with |- StronglySorted _ (sortByTime ?l) => generalize l end.
  intros l. induction l as [|r l IH]; [constructor|].
  unfold sortByTime in *. simpl. by apply insertByTime_sorted.
Qed.

(** C5 as stated fails for [stepIndex]: with the records
    [{step1: index=0}], [{step2: index=10}] the current step is [step2],
    whose position in dependency order is [1], and [stepIndex] is [10]. *)
Lemma buildRunnerState_stepIndex_counterexample :
  let state := buildRunnerState productionLogger None twoStepStore in
  Resolver.resolveDependencies twoStepPipeline
  = inr [plainStep "step1" [] noop; plainStep "step2" ["step1"] noop] ∧
  RunnerState.currentStepId state = "step2" ∧
  findIndex (fun s => bool_decide (id s = RunnerState.currentStepId state))
    [plainStep "step1" [] noop; plainStep "step2" ["step1"] noop] = 1 ∧
  RunnerState.stepIndex state = 10 ∧
  RunnerState.stepIndex state ≠ 1.
Proof. repeat split; by vm_compute. Qed.

(** C5, amended: over the records of the run, oldest update first,
    [buildRunnerState] without an explicit step takes as current step the
    last record in progress ([index > 0]), else the most recently updated
    record, else the empty id; [stepIndex] is the [index] recorded for that
    step ([0] when there is no record of it); [completedStepIds] are the
    steps whose record has [index = 0] and [failedStepIds] those whose
    [fails] is not empty; with no record the state is the empty id and index 0. *)
Theorem buildRunnerState_aggregates (this : StepLogger.t) (fs : FS) :
  let logs := getAllLogs this fs in
  let state := buildRunnerState this None fs in
  StronglySorted (fun a b => updatedAt a <= updatedAt b) logs ∧
  ((∃ before log after,
      logs = before ++ log :: after ∧ 0 < index log ∧ Forall idle after ∧
      RunnerState.currentStepId state = stepId log)
   ∨ (Forall idle logs ∧
      RunnerState.currentStepId state = from_option stepId EmptyString (last logs))) ∧
  ((∃ before log after,
      logs = before ++ log :: after ∧
      stepId log = RunnerState.currentStepId state ∧
      Forall (fun l => stepId l ≠ RunnerState.currentStepId state) before ∧
      RunnerState.stepIndex state = index log)
   ∨ (Forall (fun l => stepId l ≠ RunnerState.currentStepId state) logs ∧
      RunnerState.stepIndex state = 0)) ∧
  RunnerState.completedStepIds state
  = map stepId (filter (fun log => index log = 0) logs) ∧
  RunnerState.failedStepIds state
  = map stepId (filter (fun log => fails log ≠ []) logs) ∧
  (logs = [] →
   RunnerState.currentStepId state = EmptyString ∧ RunnerState.stepIndex state = 0).
Proof.
  intros logs state. split; [apply getAllLogs_sorted|].
  unfold state, buildRunnerState. fold logs. simpl.
  split; [|split; [|split; [done|split]]].
  - destruct (find _ (reverse logs)) as [log|] eqn:E.
    + left. destruct (find_reverse_split _ _ _ E) as (b & a & Hl & Hx & Ha).
      exists b, log, a. split; [done|].
      split; [apply bool_decide_eq_true in Hx; lia|].
      split; [|done]. eapply Forall_impl; [done|]. simpl. intros l Hl'.
      apply bool_decide_eq_false in Hl'. unfold idle. lia.
    + right. split.
      * apply find_reverse_none in E. eapply Forall_impl; [done|]. simpl.
        intros l Hl'. apply bool_decide_eq_false in Hl'. unfold idle. lia.
      * by destruct (last logs).
  - set (current := match find _ (reverse logs) with
                    | Some log => stepId log | None => _ end).
    destruct (find (fun log => bool_decide (stepId log = current)) logs)
      as [log|] eqn:E.
    + left. destruct (find_split _ _ _ E) as (b & a & Hl & Hx & Hb).
      exists b, log, a. split; [done|]. split; [by apply bool_decide_eq_true in Hx|].
      split; [|done]. eapply Forall_impl; [done|]. simpl. intros l Hl'.
      by apply bool_decide_eq_false in Hl'.
    + right. split; [|done]. apply find_none in E.
      eapply Forall_impl; [done|]. simpl. intros l Hl'.
      by apply bool_decide_eq_false in Hl'.
  - f_equal. apply list_filter_iff. intros log.
    destruct (fails log); simpl; split; (done || lia).
  - intros ->. done.
Qed.

(** A store with no records, and the records [{step1: index=0}],
    [{step2: index=10}]. *)
Example buildRunnerState_empty :
  let state := buildRunnerState productionLogger None ∅ in
  RunnerState.currentStepId state = EmptyString ∧ RunnerState.stepIndex state = 0.
Proof. by vm_compute. Qed.

Example buildRunnerState_two_steps :
  let state := buildRunnerState productionLogger None twoStepStore in
  RunnerState.currentStepId state = "step2" ∧ RunnerState.stepIndex state = 10 ∧
  RunnerState.completedStepIds state = ["step1"] ∧
  RunnerState.failedStepIds state = [].
Proof. by vm_compute. Qed.

End ResumeState.

(** ** The iteration controller *)

Section LoopFacts.
Context {E T : Type}.
Variable this : LoopController.t E T.
Variable task : LoopController.Task E T.
Implicit Types (st : LoopController.State E T) (tr : list (LoopController.Event T)).

Lemma todoCalls_app tr1 tr2 : todoCalls (tr1 ++ tr2) = todoCalls tr1 ++ todoCalls tr2.
Proof. apply omap_app. Qed.

Lemma setLogCalls_app tr1 tr2 :
  setLogCalls (tr1 ++ tr2) = setLogCalls tr1 ++ setLogCalls tr2.
Proof. apply omap_app. Qed.

Lemma failureCalls_app tr1 tr2 :
  failureCalls (tr1 ++ tr2) = failureCalls tr1 ++ failureCalls tr2.
Proof. apply omap_app. Qed.

Lemma doneCalls_app tr1 tr2 : doneCalls (tr1 ++ tr2) = doneCalls tr1 ++ doneCalls tr2.
Proof. apply omap_app. Qed.

Lemma ticks_cons now times st :
  LoopController.ticks this task (now :: times) st
  = LoopController.ticks this task times (LoopController.tick this task now st).
Proof. done. Qed.

Lemma ticks_app times1 times2 st :
  LoopController.ticks this task (times1 ++ times2) st
  = LoopController.ticks this task times2 (LoopController.ticks this task times1 st).
Proof. unfold LoopController.ticks. apply fold_left_app. Qed.

(** A cleared timer fires nothing. *)
Lemma tick_idle now st :
  LoopController.intervalId st = false → LoopController.tick this task now st = st.
Proof. unfold LoopController.tick. by intros ->. Qed.

Lemma ticks_idle times st :
  LoopController.intervalId st = false → LoopController.ticks this task times st = st.
Proof.
  induction times as [|now times IH]; [done|]. intros H.
  by rewrite ticks_cons, tick_idle, IH.
Qed.

Ltac unfold_tick :=
  unfold LoopController.tick, LoopController.attempt, LoopController.capture,
    LoopController.finish, LoopController.observe, view.

Ltac crush_view :=
  simpl;
  rewrite ?todoCalls_app, ?setLogCalls_app, ?failureCalls_app, ?doneCalls_app;
  simpl; rewrite ?app_nil_r;
  try match goal with
      | H : LoopController.intervalId _ = _ |- _ => rewrite ?H
      end;
  try done.

(** A tick inside the bound: the item callback is called with the current
    index, and, the failure callback not throwing, the index moves on. *)
Lemma tick_attempt now st :
  quietFailure this →
  LoopController.intervalId st = true →
  LoopController.currentIndex st <= LoopController.adjustedLimit st →
  let st' := LoopController.tick this task now st in
  LoopController.currentIndex st' = LoopController.currentIndex st + 1 ∧
  LoopController.adjustedLimit st' = LoopController.adjustedLimit st ∧
  LoopController.intervalId st' = true ∧
  todoCalls (LoopController.trace st')
  = todoCalls (LoopController.trace st) ++ [LoopController.currentIndex st] ∧
  doneCalls (LoopController.trace st') = doneCalls (LoopController.trace st).
Proof.
  intros Hq Harmed Hle. unfold_tick. rewrite Harmed, decide_True by done.
  destruct (LoopController.todo task _ _ _) as [[e1 l1] [v|]] eqn:Et; simpl.
  - destruct (LoopController.onFailure this) as [f|] eqn:Ef; simpl.
    + rewrite (Hq f _ _ _ _ Ef). by crush_view.
    + by crush_view.
  - destruct (LoopController.setLogForCurrentStepIndex this) as [g|] eqn:Eg; simpl.
    + destruct (g _ e1).2 as [v|[]] eqn:Egv; simpl.
      * destruct (LoopController.onFailure this) as [f|] eqn:Ef; simpl.
        -- rewrite (Hq f _ _ _ _ Ef). by crush_view.
        -- by crush_view.
      * destruct (LoopController.onProgress this) as [h|] eqn:Eh; simpl.
        -- destruct (h _ _ _ _).2 as [v|[]] eqn:Ehv; simpl.
           ++ destruct (LoopController.onFailure this) as [f|] eqn:Ef; simpl.
              ** rewrite (Hq f _ _ _ _ Ef). by crush_view.
              ** by crush_view.
           ++ by crush_view.
        -- by crush_view.
    + destruct (LoopController.onProgress this) as [h|] eqn:Eh; simpl.
      * destruct (h _ _ _ _).2 as [v|[]] eqn:Ehv; simpl.
        -- destruct (LoopController.onFailure this) as [f|] eqn:Ef; simpl.
           ++ rewrite (Hq f _ _ _ _ Ef). by crush_view.
           ++ by crush_view.
        -- by crush_view.
      * by crush_view.
Qed.



(** The tick that finds the bound passed: the timer is cleared, the
    persisted index is reset, the completion callback is called. *)
Lemma tick_finish now st :
  quietObserver (LoopController.setLogForCurrentStepIndex this) →
  LoopController.intervalId st = true →
  LoopController.adjustedLimit st < LoopController.currentIndex st →
  let st' := LoopController.tick this task now st in
  view st' = finishView this (LoopController.items st) (view st) ∧
  LoopController.trace st'
  = LoopController.trace st
    ++ whenSome (LoopController.setLogForCurrentStepIndex this)
         [LoopController.CallSetLog 0]
    ++ [LoopController.CallDone (LoopController.items st)].
Proof.
  intros Hs Harmed Hgt. unfold_tick. rewrite Harmed, decide_False by lia.
  unfold finishView. simpl.
  destruct (LoopController.setLogForCurrentStepIndex this) as [g|] eqn:Eg; simpl.
  - rewrite (Hs g _ _ eq_refl). simpl.
    destruct (LoopController.done task _ _) as [[e1 l1] [v|]]; simpl;
      (split; [by crush_view|by rewrite <- app_assoc]).
  - destruct (LoopController.done task _ _) as [[e1 l1] [v|]]; simpl;
      (split; [by crush_view|done]).
Qed.

(** Ticks inside the bound call the item callback with the successive
    indices. *)
Lemma ticks_attempts (k : nat) : ∀ times st,
  quietFailure this →
  length times = k →
  LoopController.intervalId st = true →
  ((0 < k)%nat →
   LoopController.currentIndex st + Z.of_nat k <= LoopController.adjustedLimit st + 1) →
  let st' := LoopController.ticks this task times st in
  LoopController.currentIndex st' = LoopController.currentIndex st + Z.of_nat k ∧
  LoopController.adjustedLimit st' = LoopController.adjustedLimit st ∧
  LoopController.intervalId st' = true ∧
  todoCalls (LoopController.trace st')
  = todoCalls (LoopController.trace st)
    ++ seqZ (LoopController.currentIndex st) (Z.of_nat k) ∧
  doneCalls (LoopController.trace st') = doneCalls (LoopController.trace st).
Proof.
  induction k as [|k IH]; intros times st Hq Hlen Harmed Hle.
  - destruct times; [|done]. simpl. rewrite Z.add_0_r, app_nil_r. done.
  - destruct times as [|now times]; [done|]. injection Hlen as Hlen.
    specialize (Hle ltac:(lia)).
    destruct (tick_attempt now st Hq Harmed) as (H1 & H2 & H3 & H4 & H5); [lia|].
    destruct (IH times (LoopController.tick this task now st) Hq Hlen H3)
      as (G1 & G2 & G3 & G4 & G5); [lia|].
    rewrite ticks_cons. simpl. rewrite G1, G2, G3, G4, G5, H1, H2, H4, H5.
    repeat split; try done; [lia|].
    rewrite <- app_assoc. f_equal.
    rewrite (seqZ_cons _ (Z.of_nat (S k))) by lia. simpl. do 2 f_equal; lia.
Qed.

(** The state [loopDelay] arms the timer with, when no position is
    resumed. *)
Lemma loopDelay_fresh failures0 limit i list0 e :
  (LoopController.currentPosition this e).2 = None →
  let st0 := LoopController.loopDelay this failures0 limit task i list0 e in
  view st0
  = {| v_index := i; v_limit := cappedLimit this limit; v_armed := true;
       v_todo := []; v_setLog := []; v_onFailure := []; v_done := [];
       v_failures := failures0 |} ∧
  LoopController.items st0 = list0.
Proof.
  intros Hpos. unfold LoopController.loopDelay, view. simpl. rewrite Hpos. simpl.
  split; [|done]. unfold cappedLimit.
  destruct (LoopController.getCurrentStepValue this); simpl; done.
Qed.

(** The state [loopDelay] arms the timer with, when the accessor reports
    the position [p > 0]. *)
Lemma loopDelay_resumed failures0 limit i list0 e f p :
  LoopController.getCurrentStepValue this = Some f →
  (∀ e', (f e').2 = p) → 0 < p →
  let st0 := LoopController.loopDelay this failures0 limit task i list0 e in
  view st0
  = {| v_index := p; v_limit := cappedLimit this limit - p; v_armed := true;
       v_todo := []; v_setLog := []; v_onFailure := []; v_done := [];
       v_failures := failures0 |} ∧
  LoopController.items st0 = list0 ∧
  LoopController.trace st0
  = [LoopController.CallGetCurrentStepValue; LoopController.CallGetCurrentStepValue].
Proof.
  intros Hf Hp Hpos.
  unfold LoopController.loopDelay, LoopController.currentPosition, view.
  rewrite Hf. simpl. rewrite !Hp. rewrite decide_True by lia. simpl.
  rewrite ?Hp. done.
Qed.

End LoopFacts.

Section LoopClaims.
Context {E T : Type}.


End LoopClaims.

Section LoopResume.
Context {E T : Type}.

(** C10: when the accessor reports a position [p > 0] and the capped bound
    is [L], the loop starts at index [p] with [L - p] as its last index.
    With more ticks than there are indices from [p] to [L - p], the item
    callback has been called exactly with [p, p + 1, ..., L - p] in this
    order, the completion callback once, and the timer is cleared.  When
    [p > L - p] the first tick calls no item callback: it resets the
    persisted index to zero and then calls the completion callback. *)
Theorem loop_resume_shifts_bound (this : LoopController.t E T)
    (task : LoopController.Task E T)
    (failures0 : list (LoopController.LoopFailure T)) (limit i : Z)
    (list0 : list T) (e : E) (accessor : E → E * Z) (p : Z) :
  LoopController.getCurrentStepValue this = Some accessor →
  (∀ e', (accessor e').2 = p) →
  0 < p →
  quietFailure this →
  quietObserver (LoopController.setLogForCurrentStepIndex this) →
  let L := cappedLimit this limit in
  let st0 := LoopController.loopDelay this failures0 limit task i list0 e in
  LoopController.currentIndex st0 = p ∧
  LoopController.adjustedLimit st0 = L - p ∧
  (∀ times,
     (Z.to_nat (L - p - p + 1) < length times)%nat →
     let st := LoopController.ticks this task times st0 in
     todoCalls (LoopController.trace st) = seqZ p (L - p - p + 1) ∧
     (∃ l, doneCalls (LoopController.trace st) = [l]) ∧
     LoopController.intervalId st = false) ∧
  (L - p < p →
   ∀ now,
     let st1 := LoopController.tick this task now st0 in
     todoCalls (LoopController.trace st1) = [] ∧
     LoopController.trace st1
     = LoopController.trace st0
       ++ whenSome (LoopController.setLogForCurrentStepIndex this)
            [LoopController.CallSetLog 0]
       ++ [LoopController.CallDone list0]).
Proof.
  intros Hacc Hp Hpos Hq Hs L st0.
  destruct (loopDelay_resumed this task failures0 limit i list0 e accessor p
              Hacc Hp Hpos) as (V0 & Hitems & Htrace).
  fold st0 in V0, Hitems, Htrace. fold L in V0.
  assert (LoopController.currentIndex st0 = p) as Hi
    by (change (v_index (view st0) = p); by rewrite V0).
  assert (LoopController.adjustedLimit st0 = L - p) as Hl
    by (change (v_limit (view st0) = L - p); by rewrite V0).
  assert (LoopController.intervalId st0 = true) as Ha
    by (change (v_armed (view st0) = true); by rewrite V0).
  split; [done|]. split; [done|]. split.
  - intros times Hlen. cbv zeta.
    set (k := Z.to_nat (L - p - p + 1)) in *.
    rewrite <- (take_drop k times). rewrite ticks_app.
    destruct (ticks_attempts this task k (take k times) st0 Hq)
      as (G1 & G2 & G3 & G4 & G5); [rewrite length_take; lia|done|lia|].
    set (stk := LoopController.ticks this task (take k times) st0) in *.
    destruct (drop k times) as [|now rest] eqn:Hd.
    { apply (f_equal length) in Hd. rewrite length_drop in Hd. simpl in Hd. lia. }
    rewrite ticks_cons.
    destruct (tick_finish this task now stk Hs G3) as [V Htr]; [lia|].
    assert (LoopController.intervalId (LoopController.tick this task now stk) = false)
      as Hoff.
    { change (v_armed (view (LoopController.tick this task now stk)) = false).
      by rewrite V. }
    rewrite (ticks_idle this task rest _ Hoff).
    split; [|split; [|done]].
    + change (v_todo (view (LoopController.tick this task now stk))
              = seqZ p (L - p - p + 1)).
      rewrite V. simpl. rewrite G4, Hi, Htrace. simpl.
      destruct (decide (0 <= L - p - p + 1)) as [Hge|Hlt].
      * unfold k. by rewrite Z2Nat.id.
      * unfold k. rewrite Z2Nat.nonpos by lia. simpl.
        symmetry. apply seqZ_nil. lia.
    + exists (LoopController.items stk).
      change (v_done (view (LoopController.tick this task now stk))
              = [LoopController.items stk]).
      rewrite V. simpl. rewrite G5, Htrace. done.
  - intros Hlt now st1.
    destruct (tick_finish this task now st0 Hs Ha) as [V Htr]; [lia|].
    fold st1 in V, Htr. rewrite Hitems in Htr. split; [|done].
    change (v_todo (view st1) = []). by rewrite V, V0.
Qed.

End LoopResume.

Section LoopWitnesses.



(** The run of C6, evaluated. *)
Example loop_bound_5_fails_on_2 :
  let st := LoopController.ticks watchedController failsOnTwo sevenTicks
              (LoopController.loopDelay watchedController [] 5 failsOnTwo 0
                 [10; 20; 30]%nat ()) in
  todoCalls (LoopController.trace st) = [0; 1; 2; 3; 4; 5] ∧
  LoopController.failures st
  = [{| LoopController.index := 2; LoopController.error := JStr "bad item";
        LoopController.item := Some 30%nat; LoopController.timestamp := 3000 |}] ∧
  doneCalls (LoopController.trace st) = [[10; 20; 30]%nat] ∧
  setLogCalls (LoopController.trace st) = [0; 1; 3; 4; 5; 0].
Proof. by vm_compute. Qed.

Lemma resuming_quiet p :
  quietObserver (LoopController.setLogForCurrentStepIndex (resumingController p)) ∧
  quietFailure (resumingController p).
Proof.
  split.
  - by intros f a e [= <-].
  - by intros f i v item e [= <-].
Qed.

Lemma loop_resume_shifts_bound_witness :
  LoopController.getCurrentStepValue (resumingController 3)
  = Some (fun e => (e, 3)) ∧
  0 < 3 ∧
  let st0 := LoopController.loopDelay (resumingController 3) [] 20 failsOnTwo 0
               [10; 20; 30]%nat () in
  LoopController.currentIndex st0 = 3 ∧
  LoopController.adjustedLimit st0 = cappedLimit (resumingController 3) 20 - 3 ∧
  (let st := LoopController.ticks (resumingController 3) failsOnTwo sevenTicks st0 in
   todoCalls (LoopController.trace st)
   = seqZ 3 (cappedLimit (resumingController 3) 20 - 3 - 3 + 1) ∧
   (∃ l, doneCalls (LoopController.trace st) = [l]) ∧
   LoopController.intervalId st = false).
Proof.
  destruct (resuming_quiet 3) as (Hs & Hq).
  destruct (loop_resume_shifts_bound (resumingController 3) failsOnTwo [] 20 0
              [10; 20; 30]%nat () (fun e => (e, 3)) 3 eq_refl (fun _ => eq_refl)
              ltac:(lia) Hq Hs) as (H1 & H2 & H3 & _).
  split; [reflexivity|]. split; [lia|]. split; [exact H1|]. split; [exact H2|].
  apply (H3 sevenTicks). vm_compute. lia.
Defined.

(** Bound [20] capped to [10], resumed at [3]: the items [3 .. 7] are
    processed and [8, 9, 10] are not; resumed at [6]: none is. *)
Example loop_resume_at_3 :
  let st := LoopController.ticks (resumingController 3) failsOnTwo sevenTicks
              (LoopController.loopDelay (resumingController 3) [] 20 failsOnTwo 0
                 [10; 20; 30]%nat ()) in
  todoCalls (LoopController.trace st) = [3; 4; 5; 6; 7] ∧
  doneCalls (LoopController.trace st) = [[10; 20; 30]%nat].
Proof. by vm_compute. Qed.

Example loop_resume_at_6 :
  let st := LoopController.tick (resumingController 6) failsOnTwo 1000
              (LoopController.loopDelay (resumingController 6) [] 20 failsOnTwo 0
                 [10; 20; 30]%nat ()) in
  LoopController.trace st
  = [LoopController.CallGetCurrentStepValue; LoopController.CallGetCurrentStepValue;
     LoopController.CallSetLog 0; LoopController.CallDone [10; 20; 30]%nat].
Proof. by vm_compute. Qed.

End LoopWitnesses.


(** ** Dependency resolution on arbitrary input *)

Section ResolverAnyInput.
Import Resolver.

Lemma JsMap_keys_NoDup_set {V} k (v : V) (m : JsMap.t V) :
  NoDup (JsMap.keys m) → NoDup (JsMap.keys (JsMap.set k v m)).
Proof.
  intros Hm. destruct (decide (k ∈ JsMap.keys m)) as [Hin|Hout].
  - by rewrite JsMap_keys_set_present.
  - rewrite JsMap_set_absent by done. unfold JsMap.keys in *.
    rewrite map_app. simpl. apply NoDup_app. split; [done|]. split.
    + intros x Hx ->%list_elem_of_singleton. done.
    + apply NoDup_singleton.
Qed.

Lemma JsMap_get_entry {V} k (v : V) (m : JsMap.t V) :
  NoDup (JsMap.keys m) → (k, v) ∈ m → JsMap.get k m = Some v.
Proof.
  induction m as [|[k' v'] m IH]; simpl; intros Hnd Hin.
  - by apply elem_of_nil in Hin.
  - apply NoDup_cons in Hnd as [Hk' Hnd].
    apply elem_of_cons in Hin as [[= -> ->]|Hin].
    + by rewrite String.eqb_refl.
    + destruct (String.eqb_spec k k') as [->|_]; [|by apply IH].
      exfalso. apply Hk'. change (k' ∈ map fst m).
      apply list_elem_of_fmap. by exists (k', v).
Qed.

Lemma register_keyed l : ∀ m,
  keyed (stepMap m) → NoDup (JsMap.keys (stepMap m)) →
  NoDup (JsMap.keys (inDegree m)) →
  keyed (stepMap (fold_left register l m)) ∧
  NoDup (JsMap.keys (stepMap (fold_left register l m))) ∧
  NoDup (JsMap.keys (inDegree (fold_left register l m))).
Proof.
  induction l as [|step l IH]; intros m Hk Hs Hd; simpl; [done|].
  apply IH; simpl.
  - intros k s. destruct (decide (id step = k)) as [<-|Hne].
    + rewrite JsMap_get_set_eq. by intros [= <-].
    + rewrite JsMap_get_set_ne by done. apply Hk.
  - by apply JsMap_keys_NoDup_set.
  - by apply JsMap_keys_NoDup_set.
Qed.

Lemma addEdges_inDegree k ds : ∀ m m',
  addEdges k ds m = inr m' → NoDup (JsMap.keys (inDegree m)) →
  NoDup (JsMap.keys (inDegree m')).
Proof.
  induction ds as [|d ds IH]; intros m m'; simpl.
  - by intros [= <-].
  - unfold addEdge. destruct (JsMap.has d (stepMap m)); [|done].
    intros H Hnd. eapply IH; [exact H|]. simpl. by apply JsMap_keys_NoDup_set.
Qed.

Lemma linkAll_inDegree todo : ∀ m m',
  linkAll todo m = inr m' → NoDup (JsMap.keys (inDegree m)) →
  NoDup (JsMap.keys (inDegree m')).
Proof.
  induction todo as [|s todo IH]; intros m m'; simpl.
  - by intros [= <-].
  - destruct (addEdges _ _ m) as [e|m1] eqn:E; [done|].
    intros H Hnd. eapply IH; [exact H|]. by eapply addEdges_inDegree.
Qed.

Lemma initialQueue_NoDup (d : JsMap.t Z) :
  NoDup (JsMap.keys d) → NoDup (initialQueue d).
Proof.
  intros Hnd. unfold initialQueue, JsMap.entries.
  apply (sublist_NoDup _ (JsMap.keys d)); [exact Hnd|].
  unfold JsMap.keys. apply (fmap_sublist fst), sublist_filter.
Qed.

Lemma initialQueue_degree (d : JsMap.t Z) k :
  NoDup (JsMap.keys d) → k ∈ initialQueue d → degree k d = 0.
Proof.
  intros Hnd Hk. unfold initialQueue, JsMap.entries in Hk.
  apply list_elem_of_fmap in Hk as [[k' v] [-> Hin]].
  apply list_elem_of_filter in Hin as [Hv Hin]. simpl in *. subst v.
  unfold degree. by rewrite (JsMap_get_entry _ _ _ Hnd Hin).
Qed.

Lemma LoopInv_initial m :
  NoDup (JsMap.keys (inDegree m)) →
  LoopInv m {| degrees := inDegree m; queue := initialQueue (inDegree m); result := [] |}.
Proof.
  intros Hnd. split; simpl.
  - by apply initialQueue_NoDup.
  - intros k Hk. by rewrite initialQueue_degree.
  - intros s Hs. by apply elem_of_nil in Hs.
Qed.

Lemma LoopInv_iterate m st q rest :
  keyed (stepMap m) → LoopInv m st → queue st = q :: rest →
  LoopInv m (iterate m q rest st).
Proof.
  intros Hkeyed [Hnd Hlow Hknown] Hq. rewrite Hq in *.
  unfold iterate. cbv zeta.
  destruct (relax_all_queue (default [] (JsMap.get q (graph m))) (degrees st, rest))
    as (new & Hqueue & Hnew & Hiff). simpl in Hqueue, Hiff.
  set (ks := default [] (JsMap.get q (graph m))) in *.
  assert (Hdeg : ∀ k, degree k (fold_left relax ks (degrees st, rest)).1
                      = degree k (degrees st) - Z.of_nat (occ k ks))
    by (intros k; apply relax_all_degree).
  assert (Hids : ∀ k,
    k ∈ map id (match JsMap.get q (stepMap m) with
                | Some step => result st ++ [step]
                | None => result st
                end) ++ rest →
    k ∈ map id (result st) ++ q :: rest).
  { intros k. destruct (JsMap.get q (stepMap m)) as [step|] eqn:E.
    - apply Hkeyed in E. rewrite map_app. simpl. rewrite E. set_solver.
    - set_solver. }
  assert (Hnd' : NoDup (map id (match JsMap.get q (stepMap m) with
                                | Some step => result st ++ [step]
                                | None => result st
                                end) ++ rest)).
  { destruct (JsMap.get q (stepMap m)) as [step|] eqn:E.
    - apply Hkeyed in E. rewrite map_app. simpl. rewrite E, <- app_assoc. done.
    - apply NoDup_app in Hnd as (H1 & H2 & H3). apply NoDup_cons in H3 as [_ H3].
      apply NoDup_app. split; [done|]. split; [|done].
      intros x Hx Hx'. apply (H2 x Hx). by right. }
  split; simpl.
  - rewrite Hqueue, app_assoc. apply NoDup_app. split; [done|]. split; [|done].
    intros k Hk Hk'. apply Hids, Hlow in Hk. apply Hiff in Hk'. lia.
  - intros k. rewrite Hqueue, app_assoc, Hdeg. intros [Hk|Hk]%elem_of_app.
    + apply Hids, Hlow in Hk. lia.
    + apply Hiff in Hk. lia.
  - intros s. destruct (JsMap.get q (stepMap m)) as [step|] eqn:E; [|by apply Hknown].
    intros [Hs| ->%list_elem_of_singleton]%elem_of_app; [by apply Hknown|].
    rewrite (Hkeyed _ _ E). by eapply JsMap_get_Some_keys.
Qed.

Lemma LoopInv_drain m fuel : ∀ st,
  keyed (stepMap m) → LoopInv m st → LoopInv m (drain fuel m st).
Proof.
  induction fuel as [|fuel IH]; intros st Hk Hinv; simpl; [done|].
  destruct (queue st) as [|q rest] eqn:Hq; [done|].
  apply IH; [done|]. by apply LoopInv_iterate.
Qed.

(** The loop never produces more steps than there are distinct ids. *)
Lemma kahn_result_bound m :
  keyed (stepMap m) → NoDup (JsMap.keys (inDegree m)) →
  NoDup (map id (result (kahn m))) ∧
  (length (result (kahn m)) ≤ length (JsMap.keys (stepMap m)))%nat.
Proof.
  intros Hk Hnd.
  assert (Hinv : LoopInv m (kahn m)) by (by apply LoopInv_drain, LoopInv_initial).
  destruct Hinv as [Hnd' _ Hknown]. apply NoDup_app in Hnd' as (Hids & _ & _).
  split; [done|]. rewrite <- (length_map id).
  apply submseteq_length, NoDup_submseteq; [done|].
  intros k [s [-> Hs]]%list_elem_of_fmap. by apply Hknown.
Qed.

(** What resolution has established when it succeeds. *)
Lemma resolveDependencies_inr steps order :
  resolveDependencies steps = inr order →
  ∃ m, linkAll steps (registerAll steps) = inr m ∧
       stepMap m = stepMap (registerAll steps) ∧
       order = result (kahn m) ∧ length order = length steps ∧
       (∀ s d, s ∈ steps → d ∈ deps s → d ∈ map id steps).
Proof.
  unfold resolveDependencies.
  destruct (linkAll_cases steps (registerAll steps))
    as [(m & Hlink & Hsm & Hhas)|(s & d & _ & _ & _ & Hlink)]; rewrite Hlink; [|done].
  case_decide as Hlen; [|done]. intros [= <-]. exists m. repeat split; try done.
  intros s d Hs Hd. apply registerAll_has. by eapply Hhas.
Qed.

Lemma resolveDependencies_NoDup steps order :
  resolveDependencies steps = inr order → NoDup (map id steps).
Proof.
  intros (m & Hlink & Hsm & -> & Hlen & _)%resolveDependencies_inr.
  destruct (register_keyed steps
              {| stepMap := JsMap.empty; inDegree := JsMap.empty; graph := JsMap.empty |})
    as (Hkeyed & Hkeys & Hdeg); simpl; try apply NoDup_nil_2.
  { intros k s. done. }
  fold (registerAll steps) in Hkeyed, Hkeys, Hdeg.
  destruct (kahn_result_bound m) as [_ Hbound].
  { by rewrite Hsm. }
  { by eapply linkAll_inDegree. }
  rewrite Hsm, Hlen in Hbound.
  assert (Hsub : JsMap.keys (stepMap (registerAll steps)) ⊆+ map id steps).
  { apply NoDup_submseteq; [done|]. intros k Hk.
    by apply registerAll_has, JsMap_has_keys. }
  apply submseteq_length_Permutation in Hsub; [|by rewrite length_map].
  by rewrite <- Hsub.
Qed.

End ResolverAnyInput.


Section ResolverCharacterisation.
Import Resolver.

Lemma dependsOn_source steps x y : tc (dependsOn steps) x y → x ∈ map id steps.
Proof.
  intros H. destruct H as [x y (s & Hs & <- & _)|x z y (s & Hs & <- & _) _];
    apply list_elem_of_fmap; eauto.
Qed.

(** A resolution that succeeds was given a valid DAG. *)
Lemma resolveDependencies_ValidDAG steps order :
  resolveDependencies steps = inr order → ValidDAG steps.
Proof.
  intros Hres.
  pose proof (resolveDependencies_NoDup _ _ Hres) as Hnd.
  apply resolveDependencies_inr in Hres as (m & Hlink & _ & -> & Hlen & Hclosed).
  split; [done|done|].
  intros x Hx.
  destruct (Resolver_link_ok steps Hnd Hclosed) as (m' & Hlink' & Hlinked).
  rewrite Hlink in Hlink'. injection Hlink' as <-.
  pose proof (cycle_unresolved steps m x Hnd Hlinked Hx) as Hout.
  pose proof (KahnInv_kahn steps m Hnd Hlinked) as Hinv.
  apply Hout.
  assert (Hsub : map id (result (kahn m)) ⊆+ map id steps).
  { apply NoDup_submseteq.
    - destruct Hinv as [H _ _ _ _ _ _]. by apply NoDup_app in H as (H & _ & _).
    - intros k [s [-> Hs]]%list_elem_of_fmap. apply list_elem_of_fmap.
      exists s. split; [done|]. by apply (inv_steps _ _ Hinv). }
  apply submseteq_length_Permutation in Hsub; [|by rewrite !length_map, Hlen].
  rewrite Hsub. by eapply dependsOn_source.
Qed.

Lemma resolveDependencies_sound steps order :
  resolveDependencies steps = inr order →
  order ≡ₚ steps ∧ DepsBefore order ∧ NoDup (map id order).
Proof.
  intros Hres. pose proof (resolveDependencies_ValidDAG _ _ Hres) as Hdag.
  destruct (Resolver_valid_dag steps Hdag) as (order' & Hres' & Hperm & Hbefore & _).
  rewrite Hres in Hres'. injection Hres' as <-.
  split; [done|]. split; [done|]. rewrite Hperm. apply Hdag.
Qed.

(** X1: [resolveDependencies] returns an order exactly when the supplied
    steps form a valid DAG: unique ids, every declared dependency supplied,
    no cycle.  In particular two steps that share an id are always
    rejected. *)
Theorem resolution_succeeds_iff_valid_dag (steps : list PipelineStep) :
  (∃ order, resolveDependencies steps = inr order) ↔ ValidDAG steps.
Proof.
  split.
  - intros [order Hres]. by eapply resolveDependencies_ValidDAG.
  - intros Hdag. destruct (Resolver_valid_dag steps Hdag) as (order & Hres & _).
    eauto.
Qed.

End ResolverCharacterisation.


(** ** Errors thrown by callees *)

Section ThrownValues.

Lemma lastThrown_app cs1 cs2 :
  lastThrown (cs1 ++ cs2)
  = match lastThrown cs2 with
    | Some v => Some v
    | None => lastThrown cs1
    end.
Proof.
  unfold lastThrown. rewrite omap_app.
  destruct (omap c_thrown cs2) as [|v l] using rev_ind.
  - by rewrite app_nil_r.
  - by rewrite app_assoc, !last_snoc.
Qed.

Lemma lastThrown_quiet cs : Forall quiet cs → lastThrown cs = None.
Proof.
  unfold lastThrown. induction 1 as [|c cs Hc _ IH]; [done|].
  simpl. unfold quiet in Hc. by rewrite Hc.
Qed.

Lemma lastThrown_threw c v : c_thrown c = Some v → lastThrown [c] = Some v.
Proof. unfold lastThrown. simpl. by intros ->. Qed.

Lemma Fired_outcome exp cs out : Fired exp cs out → out = outcome cs.
Proof.
  unfold outcome. inversion 1 as [? _ Hq|cs0 c v _ Hq Hv]; subst.
  - by rewrite lastThrown_quiet.
  - by rewrite lastThrown_app, (lastThrown_threw c v).
Qed.

Lemma rethrown_outcome v cs1 cs2 :
  lastThrown cs1 = Some v →
  inl (rethrown (Thrown v) (outcome cs2)) = outcome (cs1 ++ cs2).
Proof.
  intros H. unfold outcome. rewrite lastThrown_app, H.
  by destruct (lastThrown cs2).
Qed.

Lemma ExecTrace_outcome this step ev cs out :
  ExecTrace this step ev cs out → out = outcome cs.
Proof.
  inversion 1 as [bs e Hb|bs rc v es out' Hb Hrc Hv He|bs rc afters out' Hb Hrc Hq Ha];
    subst.
  - by eapply Fired_outcome.
  - rewrite (Fired_outcome _ _ _ He).
    change (bs ++ rc :: es) with (bs ++ [rc] ++ es). rewrite app_assoc.
    apply rethrown_outcome. by rewrite lastThrown_app, (lastThrown_threw rc v).
  - rewrite (Fired_outcome _ _ _ Ha). unfold outcome.
    change (bs ++ rc :: afters) with (bs ++ [rc] ++ afters).
    rewrite app_assoc, lastThrown_app.
    rewrite (lastThrown_quiet (bs ++ [rc])); [by destruct (lastThrown afters)|].
    apply Forall_app. split; [by inversion Hb|by constructor].
Qed.

Lemma outcome_inr cs : inr () = outcome cs → lastThrown cs = None.
Proof. unfold outcome. by destruct (lastThrown cs). Qed.

Lemma outcome_inl cs e : inl e = outcome cs → ∃ v, lastThrown cs = Some v ∧ e = Thrown v.
Proof. unfold outcome. destruct (lastThrown cs) as [v|]; [|done]. intros [= ->]. eauto. Qed.

(** The loop ends with the value thrown by the last call that threw, and
    normally when no call threw. *)
Lemma LoopTrace_outcome this start total i todo cs completed failed out :
  LoopTrace this start total i todo cs completed failed out → out = outcome cs.
Proof.
  induction 1 as [i|i step todo cs later completed failed out HE HL IH
                  |i step todo cs e outer out HE HF].
  - done.
  - apply ExecTrace_outcome, outcome_inr in HE. subst out.
    unfold outcome. rewrite lastThrown_app, HE. by destruct (lastThrown later).
  - apply ExecTrace_outcome, outcome_inl in HE as (v & Hv & ->).
    rewrite (Fired_outcome _ _ _ HF). by apply rethrown_outcome.
Qed.

(** X2: [run] and [resume] never swallow an error, and a later error
    replaces an earlier one: when some callee threw, the promise rejects with
    the value thrown by the last callee that threw (an [onError] hook that
    throws replaces the error it was called for); when no callee threw,
    either the result is returned, or the call was rejected with one of the
    runner's own errors before any callee was called. *)
Theorem runner_rejects_with_last_thrown (this : ScrapeRunnerImpl.t) (rid : string)
    (entry : ScrapeRunnerImpl.Entry) :
  let r := ScrapeRunnerImpl.enter this rid entry in
  match lastThrown (calls r.1) with
  | Some v => r.2 = inl (Thrown v)
  | None =>
      (∃ res, r.2 = inr res)
      ∨ (∃ e, r.2 = inl e ∧ runnerOwnError e ∧ calls r.1 = [])
  end.
Proof.
  cbv zeta.
  destruct (enter_cases this rid entry)
    as [(e & -> & He)
       |(ordered & cs & completed & failed & out & Hres & _ & _ & Hcs & _ & _ & _
         & HL & Hout)].
  - simpl. right. exists e. split; [done|]. split; [|done].
    destruct (Resolver.resolveDependencies (ScrapeRunnerImpl._steps this))
      as [e'|ordered] eqn:Hres.
    + subst e'. unfold Resolver.resolveDependencies in Hres.
      destruct (linkAll_cases (ScrapeRunnerImpl._steps this)
                  (Resolver.registerAll (ScrapeRunnerImpl._steps this)))
        as [(m & Hlink & _)|(s & d & _ & _ & _ & Hlink)]; rewrite Hlink in Hres.
      * case_decide; [done|]. by injection Hres as <-.
      * by injection Hres as <-.
    + destruct entry; by destruct He as [_ ->].
  - rewrite Hcs, Hout. apply LoopTrace_outcome in HL. subst out.
    unfold outcome. destruct (lastThrown cs); [done|]. left. eauto.
Qed.

End ThrownValues.


(** ** Events and hook failures *)

Section RunnerEvents.




End RunnerEvents.


Section HookFailures.










End HookFailures.


Section HookFailureWitness.




(** The [beforeStep] hook of [B] throws: the body of [B] is not called and
    one round of [onError] hooks follows. *)
Example run_B_hook_throws :
  let r := ScrapeRunnerImpl.run guardedRunner "run-1" RunOptions.none in
  map (fun c => (callee c, id (c_step c), c_thrown c)) (calls r.1)
  = [(RunnerBeforeStep, "A", None); (StepBeforeStep, "A", None);
     (StepRun, "A", None); (RunnerAfterStep, "A", None);
     (StepAfterStep, "A", None);
     (RunnerBeforeStep, "B", None); (StepBeforeStep, "B", Some (JStr "denied"));
     (RunnerOnError, "B", None); (StepOnError, "B", None)] ∧
  r.2 = inl (Thrown (JStr "denied")) ∧
  completedSteps r.1 = ["A"] ∧ failedSteps r.1 = ["B"].
Proof. by vm_compute. Qed.

End HookFailureWitness.

(** ** Where a run starts *)

Section StartIndex.

Lemma findIndex_found {A} (p : A → bool) (before : list A) s after :
  Forall (fun x => p x = false) before → p s = true →
  findIndex p (before ++ s :: after) = Z.of_nat (length before).
Proof.
  intros Hb Hs. induction Hb as [|x before Hx _ IH]; simpl.
  - by rewrite Hs.
  - rewrite Hx, IH. case_decide; lia.
Qed.

Lemma findIndex_none {A} (p : A → bool) (l : list A) :
  Forall (fun x => p x = false) l → findIndex p l = -1.
Proof.
  induction 1 as [|x l Hx _ IH]; simpl; [done|].
  rewrite Hx, IH. by case_decide.
Qed.

Lemma findIndex_range {A} (p : A → bool) (l : list A) :
  findIndex p l = -1 ∨ 0 <= findIndex p l < Z.of_nat (length l).
Proof.
  induction l as [|x l IH]; simpl; [by left|].
  destruct (p x); [right; lia|]. case_decide; [by left|right; lia].
Qed.

Lemma NoDup_ids_before (before : list PipelineStep) s after :
  NoDup (map id (before ++ s :: after)) →
  Forall (fun x => bool_decide (id x = id s) = false) before.
Proof.
  rewrite map_app. simpl. intros (_ & Hdisj & _)%NoDup_app.
  apply Forall_forall. intros x Hx. apply bool_decide_eq_false. intros Heq.
  apply (Hdisj (id x)); [by apply list_elem_of_fmap_2|].
  rewrite Heq. apply list_elem_of_here.
Qed.

(** X5: [run] with a [startStepId]: an id that names no step makes the run
    reject with a step-not-found error before any call; otherwise the
    bodies are called from that step on, in resolved order, and the steps
    before it are not run, whether or not the start step depends on them.
    When every callee returns, the result counts all steps of the pipeline
    in [totalSteps] and lists in [completedSteps] only the steps run.  An
    empty [startStepId] is the same as none. *)
Theorem run_from_start_step (this : ScrapeRunnerImpl.t) (rid : string)
    (options : RunOptions.t) (sid : string) (ordered : list PipelineStep) :
  Resolver.resolveDependencies (ScrapeRunnerImpl._steps this) = inr ordered →
  RunOptions.startStepId options = Some sid →
  let r := ScrapeRunnerImpl.run this rid options in
  (sid ≠ EmptyString → sid ∉ map id ordered →
   r = (ScrapeRunnerImpl.newWorld
          (ScrapeContextImpl (ScrapeRunnerImpl.mergedConfig this options) rid),
        inl (StepNotFound sid)))
  ∧
  (∀ before s after,
     ordered = before ++ s :: after →
     (sid ≠ EmptyString ∧ id s = sid) ∨ (sid = EmptyString ∧ before = []) →
     bodies (calls r.1) `prefix_of` s :: after ∧
     (Forall quiet (calls r.1) →
      bodies (calls r.1) = s :: after ∧
      r.2 = inr {| RunResult.totalSteps := Z.of_nat (length ordered);
                   RunResult.completedSteps := map id (s :: after);
                   RunResult.failedSteps := [] |})).
Proof.
  intros Hres Hsid r.
  pose proof (resolveDependencies_sound _ _ Hres) as (_ & _ & Hnd).
  assert (Hstart : startIndexOf (ScrapeRunnerImpl.Run options) ordered
                   = if decide (sid = EmptyString) then 0
                     else findIndex (fun s => bool_decide (id s = sid)) ordered)
    by (simpl; by rewrite Hsid).
  destruct (enter_cases this rid (ScrapeRunnerImpl.Run options))
    as [(e & Hent & He)
       |(ordered' & cs & completed & failed & out & Hres' & Hge & _ & Hcs & _ & _ & _
         & HL & Hout)].
  - rewrite Hres in He. destruct He as [Hlt ->]. rewrite Hstart in Hlt.
    rewrite Hsid in Hent. simpl in Hent. split; [done|].
    intros before s after -> [[Hne <-]|[-> ->]]; exfalso.
    + rewrite decide_False in Hlt by done.
      rewrite findIndex_found in Hlt; [lia|by apply (NoDup_ids_before _ _ after)|].
      by apply bool_decide_eq_true.
    + rewrite decide_True in Hlt by done. lia.
  - rewrite Hres in Hres'. injection Hres' as <-. rewrite Hstart in Hge, HL.
    split.
    + intros Hne Hout'. rewrite decide_False in Hge by done.
      rewrite findIndex_none in Hge; [lia|].
      apply Forall_forall. intros x Hx. apply bool_decide_eq_false. intros <-.
      apply Hout'. by apply list_elem_of_fmap_2.
    + intros before s after -> Hcase.
      assert (Hslice : slice (if decide (sid = EmptyString) then 0
                              else findIndex (fun s0 => bool_decide (id s0 = sid))
                                     (before ++ s :: after))
                         (before ++ s :: after) = s :: after).
      { destruct Hcase as [[Hne <-]|[-> ->]].
        - rewrite decide_False by done.
          rewrite findIndex_found;
            [|by apply (NoDup_ids_before _ _ after)|by apply bool_decide_eq_true].
          unfold slice. by rewrite Nat2Z.id, drop_app_length.
        - by rewrite decide_True. }
      rewrite Hslice in HL.
      apply LoopTrace_bodies in HL as [Hpre Hall].
      change (ScrapeRunnerImpl.enter this rid (ScrapeRunnerImpl.Run options)) with r
        in Hcs, Hout.
      rewrite Hcs. split; [done|]. intros Hq.
      destruct (Hall Hq) as (-> & Hb & -> & ->). split; [done|].
      rewrite Hout. done.
Qed.

(** X6: [resume] from a valid index calls the bodies of the steps from
    that index on, in resolved order; when every callee returns, the result
    lists the completed ids of the state followed by the ids of the steps
    run (an id already in the state is listed again), keeps the failed ids of
    the state, and counts all steps of the pipeline.  Neither the
    [currentStepId] of the state nor the [startStepId] option is read. *)
Theorem resume_result (this : ScrapeRunnerImpl.t) (rid : string)
    (state : RunnerState.t) (options : RunOptions.t) (ordered : list PipelineStep) :
  Resolver.resolveDependencies (ScrapeRunnerImpl._steps this) = inr ordered →
  0 <= RunnerState.stepIndex state < Z.of_nat (length ordered) →
  let r := ScrapeRunnerImpl.resume this rid state options in
  let todo := drop (Z.to_nat (RunnerState.stepIndex state)) ordered in
  bodies (calls r.1) `prefix_of` todo ∧
  (Forall quiet (calls r.1) →
   bodies (calls r.1) = todo ∧
   r.2 = inr {| RunResult.totalSteps := Z.of_nat (length ordered);
                RunResult.completedSteps :=
                  RunnerState.completedStepIds state ++ map id todo;
                RunResult.failedSteps := RunnerState.failedStepIds state |}) ∧
  (∀ current start resumeState,
     ScrapeRunnerImpl.resume this rid
       {| RunnerState.currentStepId := current;
          RunnerState.stepIndex := RunnerState.stepIndex state;
          RunnerState.completedStepIds := RunnerState.completedStepIds state;
          RunnerState.failedStepIds := RunnerState.failedStepIds state;
          RunnerState.payload := RunnerState.payload state |}
       {| RunOptions.mode := RunOptions.mode options;
          RunOptions.maxItems := RunOptions.maxItems options;
          RunOptions.delay := RunOptions.delay options;
          RunOptions.startStepId := start;
          RunOptions.resumeState := resumeState |}
     = r).
Proof.
  intros Hres Hrange r todo.
  destruct (enter_cases this rid (ScrapeRunnerImpl.Resume state options))
    as [(e & Hent & He)
       |(ordered' & cs & completed & failed & out & Hres' & _ & _ & Hcs & _ & _ & _
         & HL & Hout)].
  { rewrite Hres in He. destruct He as [He _]. lia. }
  rewrite Hres in Hres'. injection Hres' as <-.
  change (ScrapeRunnerImpl.enter this rid (ScrapeRunnerImpl.Resume state options))
    with r in Hcs, Hout.
  simpl in HL. fold todo in HL. unfold slice in HL. fold todo in HL.
  apply LoopTrace_bodies in HL as [Hpre Hall].
  rewrite Hcs. split; [done|]. split; [|done].
  intros Hq. destruct (Hall Hq) as (-> & Hb & -> & ->). split; [done|].
  rewrite Hout. simpl. by rewrite app_nil_r.
Qed.

Lemma run_from_start_step_witness :
  Resolver.resolveDependencies (ScrapeRunnerImpl._steps sampleRunner)
  = inr ([stepA] ++ stepB :: [stepC]) ∧
  RunOptions.startStepId fromB = Some "B" ∧
  let r := ScrapeRunnerImpl.run sampleRunner "run-1" fromB in
  bodies (calls r.1) `prefix_of` [stepB; stepC] ∧
  (Forall quiet (calls r.1) →
   bodies (calls r.1) = [stepB; stepC] ∧
   r.2 = inr {| RunResult.totalSteps := 3;
                RunResult.completedSteps := ["B"; "C"];
                RunResult.failedSteps := [] |}).
Proof.
  assert (Resolver.resolveDependencies (ScrapeRunnerImpl._steps sampleRunner)
          = inr ([stepA] ++ stepB :: [stepC])) as Hres by (by vm_compute).
  split; [exact Hres|]. split; [reflexivity|].
  destruct (run_from_start_step sampleRunner "run-1" fromB "B" _ Hres eq_refl)
    as [_ H].
  apply (H [stepA] stepB [stepC] eq_refl).
  left. split; [discriminate|reflexivity].
Defined.

Lemma resume_result_witness :
  Resolver.resolveDependencies (ScrapeRunnerImpl._steps sampleRunner)
  = inr [stepA; stepB; stepC] ∧
  0 <= RunnerState.stepIndex sampleState < 3 ∧
  let r := ScrapeRunnerImpl.resume sampleRunner "run-1" sampleState RunOptions.none in
  bodies (calls r.1) `prefix_of` [stepB; stepC] ∧
  (Forall quiet (calls r.1) →
   bodies (calls r.1) = [stepB; stepC] ∧
   r.2 = inr {| RunResult.totalSteps := 3;
                RunResult.completedSteps := ["A"; "B"; "C"];
                RunResult.failedSteps := [] |}).
Proof.
  assert (Resolver.resolveDependencies (ScrapeRunnerImpl._steps sampleRunner)
          = inr [stepA; stepB; stepC]) as Hres by (by vm_compute).
  assert (0 <= RunnerState.stepIndex sampleState < Z.of_nat (length [stepA; stepB; stepC]))
    as Hrange by (simpl; lia).
  split; [exact Hres|]. split; [simpl; lia|].
  destruct (resume_result sampleRunner "run-1" sampleState RunOptions.none
              [stepA; stepB; stepC] Hres Hrange) as (H1 & H2 & _).
  split; [exact H1|exact H2].
Defined.

Example run_from_B :
  let r := ScrapeRunnerImpl.run sampleRunner "run-1" fromB in
  map id (bodies (calls r.1)) = ["B"; "C"] ∧
  r.2 = inr {| RunResult.totalSteps := 3;
               RunResult.completedSteps := ["B"; "C"];
               RunResult.failedSteps := [] |}.
Proof. by vm_compute. Qed.

End StartIndex.


(** ** The state store: files and frames *)

Section Strings.
#[local] Arguments String.append !s1 s2 / : simpl nomatch.









End Strings.

Section StoreFiles.
Import StepLogger.





Lemma JsMap_get_filter_eq {V} (name : string) (dir : list (string * V)) :
  JsMap.get name (filter (fun e : string * V => e.1 ≠ name) dir) = None.
Proof.
  induction dir as [|[k v] dir IH]; [done|].
  rewrite filter_cons. simpl. case_decide as Hk; simpl; [|done].
  destruct (String.eqb_spec name k) as [->|_]; done.
Qed.


Lemma safeReadFile_rm_eq d name fs : safeReadFile d name (rm d name fs) = None.
Proof.
  unfold safeReadFile, rm, FS in *.
  destruct (fs !! d) as [dir|] eqn:E.
  - rewrite lookup_insert_eq. simpl. apply JsMap_get_filter_eq.
  - by rewrite E.
Qed.



End StoreFiles.


(** ** The state store: what the operations guarantee *)

Section StoreOperations.
Import StepLogger.



(** X8: [setStepPayload] merges the new payload into the stored one: the
    keys of the new payload take its values, the other keys keep theirs;
    the index and the failures of the step are untouched and [updatedAt] is
    stamped. *)
Theorem store_payload_merges (this : StepLogger.t) (now later : Z) (sid : string)
    (p : gmap string JsVal) (fs : FS) :
  shouldPersist this = true →
  stepId (getLogByStep this now sid fs) = sid →
  let before := getLogByStep this now sid fs in
  let after := getLogByStep this later sid (setStepPayload this now sid p fs) in
  let stored := default ∅ (payload before) in
  (∃ merged, payload after = Some merged ∧
     (∀ k v, p !! k = Some v → merged !! k = Some v) ∧
     (∀ k, p !! k = None → merged !! k = stored !! k)) ∧
  index after = index before ∧ fails after = fails before ∧
  updatedAt after = now ∧ stepId after = sid.
Proof.
  intros Hp Hown before after stored. unfold after, setStepPayload, getLogByStep.
  rewrite Hp. simpl. rewrite readStep_writeStep by exact Hown. simpl.
  split; [|done]. exists (spread stored p). split; [done|]. unfold spread. split.
  - intros k v Hk. by apply lookup_union_Some_l.
  - intros k Hk. by apply lookup_union_r.
Qed.

(** X9: [clearStep] forgets the step: its record reads as the default
    one (index 0, no failure, no payload), and a failure recorded afterwards
    starts a new list. *)
Theorem store_clearStep_resets (this : StepLogger.t) (now later : Z) (sid : string)
    (failureId : FailureId) (fs : FS) :
  shouldPersist this = true →
  getLogByStep this now sid (clearStep this sid fs) = defaultRecord sid now ∧
  clearStep this sid (clearStep this sid fs) = clearStep this sid fs ∧
  let after := getLogByStep this later sid
                 (setLogForCurrentStepFails this now sid failureId
                    (clearStep this sid fs)) in
  fails after = [failureId] ∧ index after = 0 ∧ payload after = None.
Proof.
  intros Hp.
  assert (Hnone : safeReadFile (logDir this) (fileName this sid) (clearStep this sid fs)
                  = None).
  { unfold clearStep. rewrite Hp. simpl. apply safeReadFile_rm_eq. }
  split; [|split].
  - unfold getLogByStep. by apply readStep_absent.
  - unfold clearStep. rewrite Hp. simpl. unfold rm, FS in *.
    destruct (fs !! logDir this) as [dir|] eqn:E; [|by rewrite E].
    rewrite lookup_insert_eq, insert_insert_eq. f_equal.
    apply list_filter_filter_l. done.
  - cbv zeta. unfold setLogForCurrentStepFails, getLogByStep. rewrite Hp. simpl.
    rewrite (readStep_absent _ _ _ _ Hnone). simpl.
    rewrite readStep_writeStep by done. done.
Qed.








Lemma perform_ownRecord this now sid op fs :
  ownRecord this sid fs → ownRecord this sid (perform this now sid op fs).
Proof.
  intros Hown later. pose proof (Hown now) as Hnow. unfold getLogByStep in *.
  destruct op as [n|f|p|]; simpl;
    unfold setLogForCurrentStepIndex, setLogForCurrentStepFails, setStepPayload,
      clearStep;
    destruct (shouldPersist this); simpl; try apply Hown;
    try (by rewrite readStep_writeStep).
  rewrite readStep_absent; [done|]. apply safeReadFile_rm_eq.
Qed.


End StoreOperations.


Section ResumePayload.
Import StepLogger.

Lemma lastPayload_cons s log logs :
  lastPayload s (log :: logs)
  = match lastPayload s logs with
    | Some p => Some p
    | None => if decide (stepId log = s) then payload log else None
    end.
Proof.
  unfold lastPayload. simpl.
  destruct (decide (stepId log = s)); [|by destruct (last _)].
  destruct (payload log) as [p|]; [|by destruct (last _)].
  by rewrite last_cons.
Qed.

Lemma collectPayload_lookup logs : ∀ (acc : gmap string JsVal) s,
  fold_left
    (fun acc log =>
       match payload log with
       | Some p => <[stepId log := JObj p]> acc
       | None => acc
       end) logs acc !! s
  = match lastPayload s logs with
    | Some p => Some (JObj p)
    | None => acc !! s
    end.
Proof.
  induction logs as [|log logs IH]; intros acc s; simpl; [done|].
  rewrite IH, lastPayload_cons.
  destruct (lastPayload s logs) as [p|]; [done|].
  destruct (payload log) as [p|]; [|by case_decide].
  case_decide as Hs.
  - subst s. by rewrite lookup_insert_eq.
  - by rewrite lookup_insert_ne.
Qed.

(** X12: the [payload] of the state built by [buildRunnerState] maps a
    step id to the payload of the most recently updated record of that step
    that has one, and holds no other key; with an explicit current step the
    state names that step, whether or not a record of it exists, and its
    [stepIndex] is the index recorded for the step, [0] without a record. *)
Theorem buildRunnerState_payload_and_current (this : StepLogger.t)
    (currentStepId : option string) (fs : FS) :
  let logs := getAllLogs this fs in
  let state := buildRunnerState this currentStepId fs in
  (∃ m, RunnerState.payload state = Some m ∧
        ∀ s, m !! s = JObj <$> lastPayload s logs) ∧
  match currentStepId with
  | None => True
  | Some s =>
      RunnerState.currentStepId state = s ∧
      ((∃ before log after,
          logs = before ++ log :: after ∧ stepId log = s ∧
          Forall (fun l => stepId l ≠ s) before ∧
          RunnerState.stepIndex state = index log)
       ∨ (Forall (fun l => stepId l ≠ s) logs ∧ RunnerState.stepIndex state = 0))
  end.
Proof.
  intros logs state. split.
  - exists (collectPayload logs). split; [done|]. intros s.
    unfold collectPayload. rewrite collectPayload_lookup, lookup_empty.
    by destruct (lastPayload s logs).
  - destruct currentStepId as [s|]; [|done]. split; [done|].
    unfold state, buildRunnerState. fold logs. simpl.
    destruct (find _ logs) as [log|] eqn:E.
    + left. apply find_split in E as (before & after & Hl & Hp & Hb).
      exists before, log, after. split; [done|].
      split; [by apply bool_decide_eq_true in Hp|]. split; [|done].
      eapply Forall_impl; [exact Hb|]. intros l Hl'.
      by apply bool_decide_eq_false in Hl'.
    + right. split; [|done]. apply find_none in E.
      eapply Forall_impl; [exact E|]. intros l Hl'.
      by apply bool_decide_eq_false in Hl'.
Qed.

End ResumePayload.

Section StoreWitnesses.
Import StepLogger.



Lemma store_payload_merges_witness :
  shouldPersist productionLogger = true ∧
  stepId (getLogByStep productionLogger 4 "step-1" payloadStore) = "step-1" ∧
  let after := getLogByStep productionLogger 5 "step-1"
                 (setStepPayload productionLogger 4 "step-1"
                    {["cursor" := JStr "abc"]} payloadStore) in
  (∃ merged, payload after = Some merged ∧
     (∀ k v, ({["cursor" := JStr "abc"]} : gmap string JsVal) !! k = Some v →
             merged !! k = Some v) ∧
     (∀ k, ({["cursor" := JStr "abc"]} : gmap string JsVal) !! k = None →
           merged !! k
           = default ∅ (payload (getLogByStep productionLogger 4 "step-1" payloadStore))
               !! k)) ∧
  index after = 5 ∧ fails after = [FailNum 1] ∧ updatedAt after = 4.
Proof.
  assert (stepId (getLogByStep productionLogger 4 "step-1" payloadStore) = "step-1")
    as Hown by (by vm_compute).
  split; [reflexivity|]. split; [exact Hown|].
  destruct (store_payload_merges productionLogger 4 5 "step-1"
              {["cursor" := JStr "abc"]} payloadStore eq_refl Hown)
    as (H1 & H2 & H3 & H4 & _).
  split; [exact H1|]. split; [exact H2|]. split; [exact H3|exact H4].
Defined.

Example payload_merge_example :
  payload (getLogByStep productionLogger 5 "step-1"
             (setStepPayload productionLogger 4 "step-1"
                {["cursor" := JStr "abc"]} payloadStore))
  = Some {["cursor" := JStr "abc"; "page" := JNum 4]}.
Proof. by vm_compute. Qed.

Lemma store_clearStep_resets_witness :
  shouldPersist productionLogger = true ∧
  getLogByStep productionLogger 6 "step-1" (clearStep productionLogger "step-1" sampleStore)
  = defaultRecord "step-1" 6 ∧
  fails (getLogByStep productionLogger 7 "step-1"
           (setLogForCurrentStepFails productionLogger 6 "step-1" (FailNum 2)
              (clearStep productionLogger "step-1" sampleStore)))
  = [FailNum 2].
Proof.
  split; [reflexivity|].
  destruct (store_clearStep_resets productionLogger 6 7 "step-1" (FailNum 2)
              sampleStore eq_refl) as (H1 & _ & H3 & _).
  split; [exact H1|exact H3].
Defined.



(** Files that do not parse, and files of other names, are not listed. *)
Example getAllLogs_skips_malformed :
  map (fun r => (stepId r, index r)) (getAllLogs productionLogger payloadStore)
  = [("step-1", 5)] ∧
  safeReadDir "./logs" payloadStore = ["r-broken.json"; "notes.txt"; "r-step-1.json"].
Proof. by vm_compute. Qed.

End StoreWitnesses.


(** ** The iteration controller under arbitrary callbacks *)

Section LoopInvariants.
Context {E T : Type}.
Variable this : LoopController.t E T.
Variable task : LoopController.Task E T.
Implicit Types (st : LoopController.State E T) (tr : list (LoopController.Event T)).

Ltac added base l :=
  lazymatch l with
  | base => constr:(@nil (LoopController.Event T))
  | ?l' ++ ?x =>
      let a := added base l' in
      let r := eval simpl in (a ++ x) in r
  end.

Ltac captured_of base l :=
  lazymatch l with
  | base => constr:(@nil (LoopController.LoopFailure T))
  | base ++ ?x => x
  end.

Ltac tick_leaf st :=
  simpl;
  lazymatch goal with
  | |- ∃ new captured, TickEffect st ?st' new captured =>
      let tr := eval simpl in (LoopController.trace st') in
      let fl := eval simpl in (LoopController.failures st') in
      let new := added (LoopController.trace st) tr in
      let cap := captured_of (LoopController.failures st) fl in
      exists new, cap
  end;
  split; simpl; rewrite <- ?app_assoc, ?app_nil_r; simpl;
  [ reflexivity
  | reflexivity
  | reflexivity
  | lia
  | try done
  | first [ left; split; reflexivity
          | right; split; [reflexivity|]; split; [assumption|];
            first [ left; reflexivity | right; eexists; split; reflexivity ] ]
  | first [ left; reflexivity
          | right;
            first [ eexists [], _; split; [reflexivity|]; split; reflexivity
                  | eexists [_], _; split; [reflexivity|]; split; reflexivity ] ] ].

(** One tick, whatever the callbacks do. *)
Lemma tick_effect now st :
  ∃ new captured, TickEffect st (LoopController.tick this task now st) new captured.
Proof.
  unfold LoopController.tick.
  destruct (LoopController.intervalId st) eqn:Harmed.
  2:{ exists [], []. split; rewrite ?app_nil_r; try done; try lia; [by left|by left]. }
  case_decide as Hle.
  - unfold LoopController.attempt, LoopController.capture, LoopController.observe.
    destruct (LoopController.todo task _ _ _) as [[e1 l1] [v|]] eqn:Et; simpl.
    + destruct (LoopController.onFailure this) as [f|] eqn:Ef; simpl.
      * destruct (f _ _ _ _).2 as [v'|[]] eqn:Efv; tick_leaf st.
      * tick_leaf st.
    + destruct (LoopController.setLogForCurrentStepIndex this) as [g|] eqn:Eg; simpl.
      * destruct (g _ e1).2 as [v|[]] eqn:Egv; simpl.
        -- destruct (LoopController.onFailure this) as [f|] eqn:Ef; simpl.
           ++ destruct (f _ _ _ _).2 as [v'|[]] eqn:Efv; tick_leaf st.
           ++ tick_leaf st.
        -- destruct (LoopController.onProgress this) as [h|] eqn:Eh; simpl.
           ++ destruct (h _ _ _ _).2 as [v|[]] eqn:Ehv; simpl.
              ** destruct (LoopController.onFailure this) as [f|] eqn:Ef; simpl.
                 --- destruct (f _ _ _ _).2 as [v'|[]] eqn:Efv; tick_leaf st.
                 --- tick_leaf st.
              ** tick_leaf st.
           ++ tick_leaf st.
      * destruct (LoopController.onProgress this) as [h|] eqn:Eh; simpl.
        -- destruct (h _ _ _ _).2 as [v|[]] eqn:Ehv; simpl.
           ++ destruct (LoopController.onFailure this) as [f|] eqn:Ef; simpl.
              ** destruct (f _ _ _ _).2 as [v'|[]] eqn:Efv; tick_leaf st.
              ** tick_leaf st.
           ++ tick_leaf st.
        -- tick_leaf st.
  - unfold LoopController.finish, LoopController.observe.
    destruct (LoopController.setLogForCurrentStepIndex this) as [g|] eqn:Eg; simpl.
    + destruct (g _ _).2 as [v|[]] eqn:Egv; simpl.
      * tick_leaf st.
      * destruct (LoopController.done task _ _) as [[e1 l1] [v|]] eqn:Ed; tick_leaf st.
    + destruct (LoopController.done task _ _) as [[e1 l1] [v|]] eqn:Ed; tick_leaf st.
Qed.

End LoopInvariants.


Section LoopRuns.
Context {E T : Type}.
Variable this : LoopController.t E T.
Variable task : LoopController.Task E T.
Implicit Types (st : LoopController.State E T) (tr : list (LoopController.Event T)).

Lemma cappedLimit_bound limit :
  (LoopController.isProduction this = false →
   cappedLimit this limit <= LoopController.maxItems this) ∧
  (LoopController.isProduction this = true → cappedLimit this limit = limit) ∧
  cappedLimit this limit <= limit.
Proof.
  unfold cappedLimit. destruct (LoopController.isProduction this); simpl.
  - by repeat split.
  - case_bool_decide; repeat split; try done; lia.
Qed.

(** The state [loopDelay] arms the timer with, in general. *)
Lemma loopDelay_initial failures0 limit i list0 e :
  let st0 := LoopController.loopDelay this failures0 limit task i list0 e in
  LoopController.intervalId st0 = true ∧
  LoopController.failures st0 = failures0 ∧
  todoCalls (LoopController.trace st0) = [] ∧
  doneCalls (LoopController.trace st0) = [].
Proof.
  unfold LoopController.loopDelay, LoopController.currentPosition. simpl.
  destruct (LoopController.getCurrentStepValue this) as [f|]; simpl.
  - case_decide; simpl; by repeat split.
  - by repeat split.
Qed.

(** An accessor that never reports a negative position cannot raise the
    bound. *)
Lemma loopDelay_limit failures0 limit i list0 e :
  (∀ f e', LoopController.getCurrentStepValue this = Some f → 0 <= (f e').2) →
  LoopController.adjustedLimit
    (LoopController.loopDelay this failures0 limit task i list0 e)
  <= cappedLimit this limit.
Proof.
  intros Hpos.
  unfold LoopController.loopDelay, LoopController.currentPosition, cappedLimit. simpl.
  destruct (LoopController.getCurrentStepValue this) as [f|] eqn:Ef; simpl; [|done].
  case_decide; simpl; [|done].
  pose proof (Hpos f (f e).1 eq_refl). lia.
Qed.

(** No index beyond the bound is ever attempted. *)
Lemma ticks_within_bound times : ∀ st,
  Forall (fun k => k <= LoopController.adjustedLimit st) (todoCalls (LoopController.trace st)) →
  let st' := LoopController.ticks this task times st in
  LoopController.adjustedLimit st' = LoopController.adjustedLimit st ∧
  Forall (fun k => k <= LoopController.adjustedLimit st) (todoCalls (LoopController.trace st')).
Proof.
  induction times as [|now times IH]; intros st Hst; [done|].
  cbv zeta. rewrite ticks_cons.
  destruct (tick_effect this task now st) as (new & captured & Heff).
  destruct (IH (LoopController.tick this task now st)) as [H1 H2].
  - rewrite (te_limit _ _ _ _ Heff), (te_trace _ _ _ _ Heff), todoCalls_app.
    apply Forall_app. split; [done|].
    destruct (te_todo _ _ _ _ Heff) as [[-> _]|(-> & Hle & _)]; [constructor|].
    by repeat constructor.
  - rewrite (te_limit _ _ _ _ Heff) in H1, H2. done.
Qed.

(** X13: with an accessor that never reports a negative position (or
    none), whatever the callbacks do and however long the timer runs, the
    item callback is never called with an index beyond the capped bound;
    outside production the capped bound is at most [maxItems] (by default
    10), in production it is the bound given. *)
Theorem loop_respects_cap (failures0 : list (LoopController.LoopFailure T))
    (limit i : Z) (list0 : list T) (e : E) (times : list Z) :
  (∀ f e', LoopController.getCurrentStepValue this = Some f → 0 <= (f e').2) →
  let st := LoopController.ticks this task times
              (LoopController.loopDelay this failures0 limit task i list0 e) in
  Forall (fun k => k <= cappedLimit this limit) (todoCalls (LoopController.trace st)) ∧
  (LoopController.isProduction this = false →
   Forall (fun k => k <= LoopController.maxItems this)
     (todoCalls (LoopController.trace st))) ∧
  (LoopController.isProduction this = true → cappedLimit this limit = limit).
Proof.
  intros Hpos st.
  pose proof (loopDelay_limit failures0 limit i list0 e Hpos) as Hl.
  destruct (loopDelay_initial failures0 limit i list0 e) as (_ & _ & Ht & _).
  destruct (ticks_within_bound times
              (LoopController.loopDelay this failures0 limit task i list0 e))
    as [_ H]; [by rewrite Ht|].
  fold st in H.
  assert (Forall (fun k => k <= cappedLimit this limit)
            (todoCalls (LoopController.trace st))) as Hcap.
  { eapply Forall_impl; [exact H|]. intros k Hk. cbv beta in Hk. lia. }
  split; [done|]. split; [|apply cappedLimit_bound].
  intros Hprod. eapply Forall_impl; [exact Hcap|]. intros k Hk. cbv beta in Hk.
  pose proof (cappedLimit_bound limit) as [Hb _]. specialize (Hb Hprod). lia.
Qed.

(** The completion callback has not been called while the timer is armed;
    once it has been called it is the last call made. *)
Lemma ticks_done_once times : ∀ st,
  LoopController.intervalId st = true →
  doneCalls (LoopController.trace st) = [] →
  let st' := LoopController.ticks this task times st in
  doneCalls (LoopController.trace st') = []
  ∨ ∃ earlier l,
      LoopController.trace st' = earlier ++ [LoopController.CallDone l] ∧
      doneCalls earlier = [] ∧ LoopController.intervalId st' = false.
Proof.
  induction times as [|now times IH]; intros st Harmed Hdone; [by left|].
  cbv zeta. rewrite ticks_cons.
  destruct (tick_effect this task now st) as (new & captured & Heff).
  destruct (LoopController.intervalId (LoopController.tick this task now st)) eqn:Hi.
  - apply IH; [done|].
    destruct (te_armed _ _ _ _ Heff Hi) as [_ Hn].
    by rewrite (te_trace _ _ _ _ Heff), doneCalls_app, Hdone, Hn.
  - rewrite ticks_idle by done.
    destruct (te_done _ _ _ _ Heff) as [Hn|(earlier & l & -> & He & _)].
    + left. by rewrite (te_trace _ _ _ _ Heff), doneCalls_app, Hdone, Hn.
    + right. exists (LoopController.trace st ++ earlier), l.
      rewrite (te_trace _ _ _ _ Heff), app_assoc. split; [done|].
      split; [|done]. by rewrite doneCalls_app, Hdone, He.
Qed.

(** X14: whatever the callbacks do and however long the timer runs, the
    completion callback is called at most once; when it has been called,
    the timer is cleared and the call is the last one the controller ever
    makes. *)
Theorem loop_completes_at_most_once (failures0 : list (LoopController.LoopFailure T))
    (limit i : Z) (list0 : list T) (e : E) (times more : list Z) :
  let st := LoopController.ticks this task times
              (LoopController.loopDelay this failures0 limit task i list0 e) in
  doneCalls (LoopController.trace st) = []
  ∨ ∃ earlier l,
      LoopController.trace st = earlier ++ [LoopController.CallDone l] ∧
      doneCalls (LoopController.trace st) = [l] ∧
      LoopController.intervalId st = false ∧
      LoopController.ticks this task more st = st.
Proof.
  intros st.
  destruct (loopDelay_initial failures0 limit i list0 e) as (Ha & _ & _ & Hd).
  destruct (ticks_done_once times _ Ha Hd) as [H|(earlier & l & Htr & He & Hoff)];
    [by left|].
  right. exists earlier, l. fold st in Htr, Hoff. split; [done|].
  split; [by rewrite Htr, doneCalls_app, He|]. split; [done|].
  by apply ticks_idle.
Qed.

(** Failures are only ever appended, one per attempt at most. *)
Lemma ticks_failures times : ∀ st,
  let st' := LoopController.ticks this task times st in
  ∃ new attempts,
    LoopController.failures st' = LoopController.failures st ++ new ∧
    todoCalls (LoopController.trace st')
    = todoCalls (LoopController.trace st) ++ attempts ∧
    map LoopController.index new `sublist_of` attempts.
Proof.
  induction times as [|now times IH]; intros st.
  - exists [], []. by rewrite !app_nil_r.
  - cbv zeta. rewrite ticks_cons.
    destruct (tick_effect this task now st) as (new & captured & Heff).
    destruct (IH (LoopController.tick this task now st))
      as (new' & attempts' & Hf & Ht & Hsub).
    exists (captured ++ new'), (todoCalls new ++ attempts').
    rewrite Hf, Ht, (te_failures _ _ _ _ Heff), (te_trace _ _ _ _ Heff), todoCalls_app.
    rewrite <- !app_assoc. split; [done|]. split; [done|].
    rewrite map_app. apply sublist_app; [|done].
    destruct (te_todo _ _ _ _ Heff) as [[-> ->]|(-> & _ & [->|(f & -> & Hf')])]; simpl.
    + done.
    + apply sublist_nil_l.
    + by rewrite Hf'.
Qed.

(** X15: the failures of the controller are only ever appended to: the
    failures captured by earlier loops stay in front, in order, and every
    new failure records the index of an attempt, in the order of the
    attempts, at most one per attempt.  [getRetryQueue] returns the same list
    as [getFailures], and [clearFailures] empties it. *)
Theorem loop_failures_append_only (failures0 : list (LoopController.LoopFailure T))
    (limit i : Z) (list0 : list T) (e : E) (times : list Z) :
  let st := LoopController.ticks this task times
              (LoopController.loopDelay this failures0 limit task i list0 e) in
  (∃ new,
     LoopController.getFailures st = failures0 ++ new ∧
     map LoopController.index new `sublist_of` todoCalls (LoopController.trace st)) ∧
  LoopController.getRetryQueue st = LoopController.getFailures st ∧
  LoopController.getFailures (LoopController.clearFailures st) = [].
Proof.
  intros st.
  destruct (loopDelay_initial failures0 limit i list0 e) as (_ & Hf & Ht & _).
  destruct (ticks_failures times
              (LoopController.loopDelay this failures0 limit task i list0 e))
    as (new & attempts & Hf' & Ht' & Hsub).
  fold st in Hf', Ht'. rewrite Hf in Hf'. rewrite Ht in Ht'. simpl in Ht'.
  split; [|done]. exists new. split; [done|]. by rewrite Ht'.
Qed.

(** X16: [stop] cancels the loop for good: no later tick calls any
    callback, so the completion callback of a stopped loop is never called;
    the failures captured so far stay readable, and stopping twice is
    stopping once. *)
Theorem loop_stop_cancels (st : LoopController.State E T) (times : list Z) :
  let stopped := LoopController.stop st in
  LoopController.ticks this task times stopped = stopped ∧
  LoopController.trace stopped = LoopController.trace st ∧
  LoopController.getFailures stopped = LoopController.getFailures st ∧
  LoopController.stop stopped = stopped.
Proof.
  intros stopped.
  assert (LoopController.intervalId stopped = false) as Hoff.
  { unfold stopped, LoopController.stop.
    destruct (LoopController.intervalId st) eqn:Ha; [done|]. by rewrite Ha. }
  split; [by apply ticks_idle|].
  unfold stopped, LoopController.stop.
  destruct (LoopController.intervalId st) eqn:Ha; simpl; [done|]. by rewrite Ha.
Qed.

End LoopRuns.


Section LoopEdges.
Context {E T : Type}.
Variable this : LoopController.t E T.
Variable task : LoopController.Task E T.
Implicit Types (st : LoopController.State E T) (tr : list (LoopController.Event T)).

(** X17: an error thrown by the persist callback inside a tick is
    captured as a failure of the item, although the item callback had
    returned: the failure carries the index, the error of the persist
    callback, the item and the clock reading; the progress callback is not
    called and the remaining time is not reduced; the failure callback is
    called and the index moves on. *)
Theorem loop_persist_error_is_item_failure (now : Z) (st : LoopController.State E T)
    (g : Z → LoopController.Fn (E := E) unit) (v : JsVal) :
  LoopController.intervalId st = true →
  LoopController.currentIndex st <= LoopController.adjustedLimit st →
  quietFailure this →
  let i := LoopController.currentIndex st in
  let r := LoopController.todo task i (LoopController.items st) (LoopController.env st) in
  r.2 = None →
  LoopController.setLogForCurrentStepIndex this = Some g →
  (g i r.1.1).2 = inl v →
  let st' := LoopController.tick this task now st in
  LoopController.failures st'
  = LoopController.failures st
    ++ [{| LoopController.index := i; LoopController.error := v;
           LoopController.item := LoopController.at_index r.1.2 i;
           LoopController.timestamp := now |}] ∧
  LoopController.currentIndex st' = i + 1 ∧
  LoopController.remainingTime st' = LoopController.remainingTime st ∧
  LoopController.trace st'
  = LoopController.trace st
    ++ [LoopController.CallTodo i; LoopController.CallSetLog i]
    ++ whenSome (LoopController.onFailure this)
         [LoopController.CallOnFailure i v (LoopController.at_index r.1.2 i)].
Proof.
  intros Harmed Hle Hq i r Hok Hg Hv.
  unfold LoopController.tick, LoopController.attempt, LoopController.capture,
    LoopController.observe.
  rewrite Harmed, decide_True by done. fold i. fold r.
  destruct r as [[e1 l1] out] eqn:Er. simpl in Hok, Hv. subst out. simpl.
  rewrite Hg. simpl. rewrite Hv. simpl.
  destruct (LoopController.onFailure this) as [f|] eqn:Ef; simpl.
  - rewrite (Hq f _ _ _ _ Ef). simpl. rewrite <- !app_assoc. done.
  - rewrite <- !app_assoc. done.
Qed.

(** A tick of a stalled loop. *)
Lemma tick_stalled now st i :
  stalledAt i task this →
  LoopController.intervalId st = true →
  LoopController.currentIndex st = i →
  i <= LoopController.adjustedLimit st →
  let st' := LoopController.tick this task now st in
  LoopController.intervalId st' = true ∧
  LoopController.currentIndex st' = i ∧
  LoopController.adjustedLimit st' = LoopController.adjustedLimit st ∧
  todoCalls (LoopController.trace st') = todoCalls (LoopController.trace st) ++ [i] ∧
  doneCalls (LoopController.trace st') = doneCalls (LoopController.trace st) ∧
  length (LoopController.failures st') = S (length (LoopController.failures st)) ∧
  length (LoopController.rejections st') = S (length (LoopController.rejections st)).
Proof.
  intros [Htodo (f & Hf & Hthrow)] Harmed Hi Hle.
  unfold LoopController.tick, LoopController.attempt, LoopController.capture,
    LoopController.observe.
  rewrite Harmed, decide_True by lia. rewrite Hi.
  destruct (Htodo (LoopController.items st) (LoopController.env st)) as [v Hv].
  destruct (LoopController.todo task i _ _) as [[e1 l1] out] eqn:Et.
  simpl in Hv. subst out. simpl. rewrite Hf. simpl.
  destruct (Hthrow v (LoopController.at_index l1 i) e1) as [v' Hv']. rewrite Hi, Hv'.
  simpl. rewrite !todoCalls_app, !doneCalls_app, !length_app. simpl.
  rewrite !app_nil_r. repeat split; try done; lia.
Qed.

(** X18: when the item callback throws at an index and the failure
    callback throws too, the tick rejects and the index is not advanced: as
    long as the timer keeps firing, every later tick attempts the same index
    again, captures one more failure and rejects once more; the loop never
    reaches its completion callback and the timer stays armed. *)
Theorem loop_stalls_when_failure_callback_throws
    (failures0 : list (LoopController.LoopFailure T)) (limit i : Z) (list0 : list T)
    (e : E) (times : list Z) :
  stalledAt i task this →
  (LoopController.currentPosition this e).2 = None →
  i <= cappedLimit this limit →
  let st := LoopController.ticks this task times
              (LoopController.loopDelay this failures0 limit task i list0 e) in
  LoopController.intervalId st = true ∧
  LoopController.currentIndex st = i ∧
  todoCalls (LoopController.trace st) = replicate (length times) i ∧
  doneCalls (LoopController.trace st) = [] ∧
  length (LoopController.failures st) = (length failures0 + length times)%nat ∧
  length (LoopController.rejections st) = length times.
Proof.
  intros Hstall Hpos Hle.
  destruct (loopDelay_fresh this task failures0 limit i list0 e Hpos) as [V0 _].
  set (st0 := LoopController.loopDelay this failures0 limit task i list0 e) in *.
  assert (H0 : LoopController.intervalId st0 = true ∧
               LoopController.currentIndex st0 = i ∧
               LoopController.adjustedLimit st0 = cappedLimit this limit ∧
               todoCalls (LoopController.trace st0) = [] ∧
               doneCalls (LoopController.trace st0) = [] ∧
               LoopController.failures st0 = failures0).
  { split_and!.
    - change (v_armed (view st0) = true). by rewrite V0.
    - change (v_index (view st0) = i). by rewrite V0.
    - change (v_limit (view st0) = cappedLimit this limit). by rewrite V0.
    - change (v_todo (view st0) = []). by rewrite V0.
    - change (v_done (view st0) = []). by rewrite V0.
    - change (v_failures (view st0) = failures0). by rewrite V0. }
  assert (Hr0 : LoopController.rejections st0 = []) by done.
  destruct H0 as (Ha & Hi & Hl & Ht & Hd & Hf).
  assert (Hgen : ∀ times st,
    LoopController.intervalId st = true → LoopController.currentIndex st = i →
    LoopController.adjustedLimit st = cappedLimit this limit →
    let st' := LoopController.ticks this task times st in
    LoopController.intervalId st' = true ∧
    LoopController.currentIndex st' = i ∧
    todoCalls (LoopController.trace st')
    = todoCalls (LoopController.trace st) ++ replicate (length times) i ∧
    doneCalls (LoopController.trace st') = doneCalls (LoopController.trace st) ∧
    length (LoopController.failures st')
    = (length (LoopController.failures st) + length times)%nat ∧
    length (LoopController.rejections st')
    = (length (LoopController.rejections st) + length times)%nat).
  { clear -Hstall Hle.
    induction times as [|now times IH]; intros st Ha Hi Hl.
    - simpl. rewrite app_nil_r, !Nat.add_0_r. done.
    - cbv zeta. rewrite ticks_cons.
      destruct (tick_stalled now st i Hstall Ha Hi) as (G1 & G2 & G3 & G4 & G5 & G6 & G7);
        [lia|].
      destruct (IH (LoopController.tick this task now st) G1 G2) as (K1 & K2 & K3 & K4 & K5 & K6);
        [lia|].
      rewrite K3, K4, K5, K6, G4, G5, G6, G7. simpl.
      rewrite <- app_assoc. repeat split; try done; lia. }
  destruct (Hgen times st0 Ha Hi Hl) as (K1 & K2 & K3 & K4 & K5 & K6).
  rewrite Ht in K3. rewrite Hd in K4. rewrite Hf in K5. rewrite Hr0 in K6.
  done.
Qed.


End LoopEdges.


Section LoopEdgeWitnesses.

Lemma resuming_accessor p :
  0 <= p →
  ∀ (f : unit → unit * Z) (e' : unit),
    LoopController.getCurrentStepValue (resumingController p) = Some f → 0 <= (f e').2.
Proof. intros Hp f e' [= <-]. done. Qed.

Lemma loop_respects_cap_witness :
  (∀ (f : unit → unit * Z) (e' : unit),
     LoopController.getCurrentStepValue (resumingController 3) = Some f →
     0 <= (f e').2) ∧
  LoopController.isProduction (resumingController 3) = false ∧
  Forall (fun k => k <= 10)
    (todoCalls
       (LoopController.trace
          (LoopController.ticks (resumingController 3) failsOnTwo sevenTicks
             (LoopController.loopDelay (resumingController 3) [] 20 failsOnTwo 0
                [10; 20; 30]%nat ())))).
Proof.
  assert (0 <= 3) as H3 by lia.
  split; [exact (resuming_accessor 3 H3)|]. split; [reflexivity|].
  destruct (loop_respects_cap (resumingController 3) failsOnTwo [] 20 0 [10; 20; 30]%nat ()
              sevenTicks (resuming_accessor 3 H3)) as (_ & H & _).
  exact (H eq_refl).
Defined.

Lemma brittle_quiet : quietFailure brittleController.
Proof. intros f i v item e [= <-]. done. Qed.

Lemma loop_persist_error_is_item_failure_witness :
  let st := LoopController.loopDelay brittleController [] 5 failsOnTwo 0
              [10; 20; 30]%nat () in
  LoopController.intervalId st = true ∧
  LoopController.currentIndex st <= LoopController.adjustedLimit st ∧
  quietFailure brittleController ∧
  let st' := LoopController.tick brittleController failsOnTwo 1000 st in
  LoopController.failures st'
  = [] ++ [{| LoopController.index := 0; LoopController.error := JStr "disk full";
              LoopController.item := Some 10%nat;
              LoopController.timestamp := 1000 |}] ∧
  LoopController.currentIndex st' = 0 + 1 ∧
  LoopController.remainingTime st' = LoopController.remainingTime st.
Proof.
  intros st.
  assert (LoopController.currentIndex st <= LoopController.adjustedLimit st) as Hle
    by (by vm_compute).
  split; [reflexivity|]. split; [exact Hle|]. split; [exact brittle_quiet|].
  destruct (loop_persist_error_is_item_failure brittleController failsOnTwo 1000 st
              (fun _ e => (e, inl (JStr "disk full"))) (JStr "disk full")
              eq_refl Hle brittle_quiet eq_refl eq_refl eq_refl)
    as (H1 & H2 & H3 & _).
  split; [exact H1|]. split; [exact H2|exact H3].
Defined.

Lemma stubborn_stalled : stalledAt 2 failsOnTwo stubbornController.
Proof.
  split.
  - intros l e. by exists (JStr "bad item").
  - eexists. split; [reflexivity|]. intros v item e. by exists (JStr "again").
Qed.

Lemma loop_stalls_when_failure_callback_throws_witness :
  stalledAt 2 failsOnTwo stubbornController ∧
  (LoopController.currentPosition stubbornController ()).2 = None ∧
  2 <= cappedLimit stubbornController 5 ∧
  let st := LoopController.ticks stubbornController failsOnTwo sevenTicks
              (LoopController.loopDelay stubbornController [] 5 failsOnTwo 2
                 [10; 20; 30]%nat ()) in
  LoopController.intervalId st = true ∧
  LoopController.currentIndex st = 2 ∧
  todoCalls (LoopController.trace st) = replicate (length sevenTicks) 2 ∧
  doneCalls (LoopController.trace st) = [] ∧
  length (LoopController.failures st) = (length ([] : list (LoopController.LoopFailure nat))
                                         + length sevenTicks)%nat.
Proof.
  assert (2 <= cappedLimit stubbornController 5) as Hle by (by vm_compute).
  split; [exact stubborn_stalled|]. split; [reflexivity|]. split; [exact Hle|].
  destruct (loop_stalls_when_failure_callback_throws stubbornController failsOnTwo
              [] 5 2 [10; 20; 30]%nat () sevenTicks stubborn_stalled eq_refl Hle)
    as (H1 & H2 & H3 & H4 & H5 & _).
  split; [exact H1|]. split; [exact H2|]. split; [exact H3|]. split; [exact H4|exact H5].
Defined.


(** The bound is inclusive: bound 3 from index 1 attempts 1, 2 and 3. *)
Example loop_bound_is_inclusive :
  let st := LoopController.ticks watchedController failsOnTwo sevenTicks
              (LoopController.loopDelay watchedController [] 3 failsOnTwo 1
                 [10; 20; 30]%nat ()) in
  todoCalls (LoopController.trace st) = [1; 2; 3] ∧
  map LoopController.index (LoopController.failures st) = [2].
Proof. by vm_compute. Qed.

End LoopEdgeWitnesses.


(** ** The command line *)

Section CommandLine.
Import StepLogger.


Lemma createStepLogger_persists options generated :
  shouldPersist (Cli.createStepLogger options generated) = true.
Proof. done. Qed.

(** X20: a logger created by the CLI persists in every mode: progress
    written in a development run is read back; a logger constructed with
    default options persists nothing. *)
Theorem cli_logger_always_persists (options : Options.t) (generated : string)
    (now later : Z) (sid : string) (n : Z) (fs : FS) :
  let logger := Cli.createStepLogger options generated in
  shouldPersist logger = true ∧
  isProduction logger = default false (Options.isProduction options) ∧
  (stepId (getLogByStep logger now sid fs) = sid →
   index (getLogByStep logger later sid (setLogForCurrentStepIndex logger now sid n fs))
   = n) ∧
  shouldPersist (StepLogger.new noLoggerOptions generated) = false ∧
  setLogForCurrentStepIndex (StepLogger.new noLoggerOptions generated) now sid n fs = fs.
Proof.
  intros logger. split; [done|]. split; [done|]. split; [|done].
  intros Hown. subst logger. unfold setLogForCurrentStepIndex, getLogByStep in *.
  rewrite createStepLogger_persists. simpl.
  by rewrite readStep_writeStep.
Qed.

(** X21: the configuration the CLI builds from its flags wins over the
    configuration of the pipeline field by field (a flag that is absent
    keeps the value of the pipeline; [resumeFromLog] and the other fields
    are kept), and the runner, given that configuration and the same values
    again as run options, hands exactly it to the steps. *)
Theorem cli_override_then_merge (pipelineConfig : RunnerConfig) (overrides : Cli.Overrides)
    (m : Mode) (steps : list PipelineStep) (lifecycle : option Lifecycle.t)
    (rid : string) (start : option string) :
  let runnerConfig :=
    Cli.overrideConfig pipelineConfig
      {| Cli.o_mode := Some m; Cli.o_delay := Cli.o_delay overrides;
         Cli.o_maxItems := Cli.o_maxItems overrides |} in
  let runner :=
    {| ScrapeRunnerImpl.config := runnerConfig; ScrapeRunnerImpl._steps := steps;
       ScrapeRunnerImpl.lifecycle := lifecycle |} in
  let options :=
    {| RunOptions.mode := Some m; RunOptions.maxItems := maxItems runnerConfig;
       RunOptions.delay := Some (delay runnerConfig);
       RunOptions.startStepId := start; RunOptions.resumeState := None |} in
  mode runnerConfig = m ∧
  delay runnerConfig = default (delay pipelineConfig) (Cli.o_delay overrides) ∧
  maxItems runnerConfig
  = match Cli.o_maxItems overrides with Some n => Some n | None => maxItems pipelineConfig end ∧
  resumeFromLog runnerConfig = resumeFromLog pipelineConfig ∧
  rest runnerConfig = rest pipelineConfig ∧
  ScrapeRunnerImpl.mergedConfig runner options = runnerConfig ∧
  config (initialContext runner rid (ScrapeRunnerImpl.Run options))
  = runnerConfig.
Proof.
  intros runnerConfig runner options.
  assert (ScrapeRunnerImpl.mergedConfig runner options = runnerConfig) as Hm.
  { unfold ScrapeRunnerImpl.mergedConfig, runner, options, runnerConfig,
      Cli.overrideConfig. simpl.
    destruct (Cli.o_delay overrides), (Cli.o_maxItems overrides); simpl; try done;
      by destruct (maxItems pipelineConfig). }
  split_and!; done.
Qed.



Lemma prepareResume_Ready logger startStep steps fs state :
  Cli.prepareResume logger startStep steps fs = Cli.Ready state →
  getAllLogs logger fs ≠ [] ∧
  Cli.inferResumeStepId (getAllLogs logger fs) startStep steps
  = inr (RunnerState.currentStepId state) ∧
  RunnerState.stepIndex state
  = Z.max (findIndex (fun step => bool_decide (id step = RunnerState.currentStepId state))
             steps) 0 ∧
  RunnerState.completedStepIds state
  = map stepId (filter (fun log => index log = 0) (getAllLogs logger fs)) ∧
  RunnerState.failedStepIds state
  = map stepId (filter (fun log => fails log ≠ []) (getAllLogs logger fs)) ∧
  RunnerState.payload state = Some (collectPayload (getAllLogs logger fs)).
Proof.
  unfold Cli.prepareResume. cbv zeta. case_decide as Hlen; [done|].
  destruct (Cli.inferResumeStepId _ _ _) as [e|inferred] eqn:Hinf; [done|].
  intros [= <-]. simpl. split_and!; try done.
  - intros Hnil. by rewrite Hnil in Hlen.
  - f_equal. apply list_filter_iff. intros log.
    destruct (fails log); simpl; split; try done; lia.
Qed.

(** X22: the state the [resume] command passes to [runner.resume] names
    the inferred step, and its [stepIndex] is the position of that step in
    the pipeline as supplied, [0] when no supplied step has that id.  For a
    pipeline that is not empty and resolves, the index is always valid, so
    [runner.resume] starts, at the step that has this position in the
    resolved order; when the supplied order is the resolved order and the
    inferred id is a step of the pipeline, that is the inferred step. *)
Theorem cli_resume_index (logger : StepLogger.t) (startStep : option string)
    (fs : FS) (state : RunnerState.t) (this : ScrapeRunnerImpl.t) (rid : string)
    (options : RunOptions.t) (ordered : list PipelineStep) :
  Cli.prepareResume logger startStep (ScrapeRunnerImpl._steps this) fs = Cli.Ready state →
  Resolver.resolveDependencies (ScrapeRunnerImpl._steps this) = inr ordered →
  ScrapeRunnerImpl._steps this ≠ [] →
  let steps := ScrapeRunnerImpl._steps this in
  let r := ScrapeRunnerImpl.resume this rid state options in
  0 <= RunnerState.stepIndex state < Z.of_nat (length ordered) ∧
  (RunnerState.currentStepId state ∉ map id steps → RunnerState.stepIndex state = 0) ∧
  (∀ s, steps !! Z.to_nat (RunnerState.stepIndex state) = Some s →
        RunnerState.currentStepId state ∈ map id steps →
        id s = RunnerState.currentStepId state) ∧
  (∃ c later,
     calls r.1 = c :: later ∧
     ordered !! Z.to_nat (RunnerState.stepIndex state) = Some (c_step c) ∧
     (ordered = steps → RunnerState.currentStepId state ∈ map id steps →
      id (c_step c) = RunnerState.currentStepId state)).
Proof.
  intros Hready Hres Hne steps r.
  apply prepareResume_Ready in Hready as (_ & _ & Hidx & _). fold steps in Hidx.
  pose proof (resolveDependencies_sound _ _ Hres) as (Hperm & _ & _).
  assert (length ordered = length steps) as Hlen by (by rewrite Hperm).
  set (p := fun step => bool_decide (id step = RunnerState.currentStepId state)) in *.
  assert (Hrange : 0 <= RunnerState.stepIndex state < Z.of_nat (length ordered)).
  { rewrite Hidx, Hlen. destruct (findIndex_range p steps) as [->|H]; [|lia].
    simpl. fold steps in Hne. destruct steps; [done|]. simpl. lia. }
  assert (Hfound : ∀ s, steps !! Z.to_nat (RunnerState.stepIndex state) = Some s →
                        RunnerState.currentStepId state ∈ map id steps →
                        id s = RunnerState.currentStepId state).
  { intros s Hs [x [Hx Hin]]%list_elem_of_fmap.
    assert (∃ before y after, steps = before ++ y :: after ∧ p y = true ∧
                              Forall (fun z => p z = false) before)
      as (before & y & after & Hsplit & Hy & Hb).
    { destruct (find p steps) as [y|] eqn:Hf.
      - apply find_split in Hf as (before & after & ? & ? & ?). by exists before, y, after.
      - apply find_none in Hf. eapply Forall_forall in Hf; [|exact Hin].
        unfold p in Hf. by rewrite Hx, bool_decide_eq_false in Hf. }
    rewrite Hidx, Hsplit, findIndex_found in Hs by done.
    rewrite Z.max_l, Nat2Z.id in Hs by lia.
    rewrite lookup_app_r, Nat.sub_diag in Hs by lia. simpl in Hs.
    injection Hs as <-. by apply bool_decide_eq_true in Hy. }
  split; [done|]. split; [|split; [done|]].
  - intros Hout. rewrite Hidx, findIndex_none; [done|].
    apply Forall_forall. intros x Hx. apply bool_decide_eq_false. intros Heq.
    apply Hout. rewrite <- Heq. by apply list_elem_of_fmap_2.
  - destruct (enter_cases this rid (ScrapeRunnerImpl.Resume state options))
      as [(e & Hent & He)
         |(ordered' & cs & completed & failed & out & Hres' & _ & _ & Hcs & _ & _ & _
           & HL & _)].
    { rewrite Hres in He. destruct He as [He _]. lia. }
    rewrite Hres in Hres'. injection Hres' as <-. simpl in HL, Hcs.
    destruct (slice (RunnerState.stepIndex state) ordered) as [|step todo] eqn:Hsl.
    { apply (f_equal length) in Hsl. unfold slice in Hsl.
      rewrite length_drop in Hsl. simpl in Hsl. lia. }
    apply LoopTrace_first in HL as (c & cs' & -> & Hstep & _).
    assert (ordered !! Z.to_nat (RunnerState.stepIndex state) = Some step) as Hat.
    { pose proof (lookup_slice (RunnerState.stepIndex state) ordered 0) as Hl.
      rewrite Hsl in Hl. simpl in Hl. rewrite Z.add_0_r in Hl. symmetry. apply Hl. lia. }
    exists c, cs'. split; [done|]. rewrite Hstep. split; [done|].
    intros -> Hin. by apply Hfound.
Qed.

(** X23: which step the [resume] command resumes from: with no record of
    the run it does nothing; otherwise a start step given explicitly (and
    not empty) wins; failing that, the step in progress whose record was
    updated first (while [buildRunnerState] alone names the one updated
    last); failing that, the first step of the pipeline as supplied, and an
    error when the pipeline has no step.  The completed and failed ids and
    the payload of the state are those of [buildRunnerState]. *)
Theorem cli_infers_resume_step (logger : StepLogger.t) (startStep : option string)
    (steps : list PipelineStep) (fs : FS) :
  let logs := getAllLogs logger fs in
  match Cli.prepareResume logger startStep steps fs with
  | Cli.NothingToResume => logs = []
  | Cli.Failed e =>
      e = Cli.NoStepsToResume ∧ steps = [] ∧ logs ≠ [] ∧ Forall idle logs ∧
      truthy startStep = None
  | Cli.Ready state =>
      logs ≠ [] ∧
      match truthy startStep with
      | Some s => RunnerState.currentStepId state = s
      | None =>
          (∃ before log after,
             logs = before ++ log :: after ∧ 0 < index log ∧ Forall idle before ∧
             RunnerState.currentStepId state = stepId log)
          ∨ (Forall idle logs ∧
             ∃ firstStep later, steps = firstStep :: later ∧
                                RunnerState.currentStepId state = id firstStep)
      end ∧
      RunnerState.completedStepIds state
      = RunnerState.completedStepIds (buildRunnerState logger None fs) ∧
      RunnerState.failedStepIds state
      = RunnerState.failedStepIds (buildRunnerState logger None fs) ∧
      RunnerState.payload state = RunnerState.payload (buildRunnerState logger None fs)
  end.
Proof.
  intros logs. unfold Cli.prepareResume. cbv zeta. fold logs.
  case_decide as Hlen; [by destruct logs|].
  assert (logs ≠ []) as Hne by (intros H; by rewrite H in Hlen).
  assert (Hidle : ∀ l, Forall (fun y => bool_decide (index y > 0) = false) l →
                       Forall idle l).
  { intros l H. eapply Forall_impl; [exact H|]. intros y Hy.
    apply bool_decide_eq_false in Hy. unfold idle. lia. }
  unfold Cli.inferResumeStepId.
  destruct (truthy startStep) as [s|] eqn:Ht; [by split_and!|].
  destruct (find _ logs) as [log|] eqn:Hf.
  - split; [done|]. split; [|done]. left.
    apply find_split in Hf as (before & after & Hl & Hp & Hb).
    exists before, log, after. split; [done|].
    split; [apply bool_decide_eq_true in Hp; lia|]. split; [by apply Hidle|done].
  - apply find_none in Hf. destruct steps as [|firstStep later].
    + split_and!; try done. by apply Hidle.
    + split; [done|]. split; [|done]. right. split; [by apply Hidle|]. eauto.
Qed.


End CommandLine.


Section CommandLineWitnesses.
Import StepLogger.

Lemma chain_prepared :
  Cli.prepareResume cliLogger None (ScrapeRunnerImpl._steps (runnerOf chainPipeline))
    interruptedStore
  = Cli.Ready resumedState.
Proof. by vm_compute. Qed.

Lemma chain_resolved :
  Resolver.resolveDependencies (ScrapeRunnerImpl._steps (runnerOf chainPipeline))
  = inr chainPipeline.
Proof. by vm_compute. Qed.

Lemma cli_resume_index_witness :
  Cli.prepareResume cliLogger None (ScrapeRunnerImpl._steps (runnerOf chainPipeline))
    interruptedStore
  = Cli.Ready resumedState ∧
  Resolver.resolveDependencies (ScrapeRunnerImpl._steps (runnerOf chainPipeline))
  = inr chainPipeline ∧
  ScrapeRunnerImpl._steps (runnerOf chainPipeline) ≠ [] ∧
  0 <= RunnerState.stepIndex resumedState < Z.of_nat (length chainPipeline) ∧
  ∃ c later,
    calls (ScrapeRunnerImpl.resume (runnerOf chainPipeline) "run-1" resumedState
             RunOptions.none).1 = c :: later ∧
    chainPipeline !! Z.to_nat (RunnerState.stepIndex resumedState) = Some (c_step c).
Proof.
  assert (ScrapeRunnerImpl._steps (runnerOf chainPipeline) ≠ []) as Hne by discriminate.
  split; [exact chain_prepared|]. split; [exact chain_resolved|]. split; [exact Hne|].
  destruct (cli_resume_index cliLogger None interruptedStore resumedState
              (runnerOf chainPipeline) "run-1" RunOptions.none chainPipeline
              chain_prepared chain_resolved Hne) as (H1 & _ & _ & c & later & H2 & H3 & _).
  split; [exact H1|]. exists c, later. split; [exact H2|exact H3].
Defined.

(** With the pipeline supplied as [A, B, C'], where [C'] has no
    dependency, the resolved order is [A, C', B]: the record of [B] in
    progress gives index 1, and [resume] starts at [C']. *)
Example cli_resume_fork :
  Resolver.resolveDependencies forkPipeline
  = inr [stepA; plainStep "C" [] noop; stepB] ∧
  Cli.prepareResume cliLogger None forkPipeline interruptedStore
  = Cli.Ready resumedState ∧
  map id (bodies (calls (ScrapeRunnerImpl.resume (runnerOf forkPipeline) "run-1"
                           resumedState RunOptions.none).1))
  = ["C"; "B"].
Proof. by vm_compute. Qed.


End CommandLineWitnesses.


(** ** The fetchers *)

Section Fetchers.

(** X25: the retry decision of [fetch] and the [isRetryable] flag of
    [createError] agree on every caught value, except on an axios error
    whose response has a status below 400, which [fetch] retries while
    [createError] reports it as not retryable.  A retryable error is thrown
    again as it is; any other aborts the retries, with the error itself or,
    for a value that is not an [Error], with a new error. *)
Theorem fetch_retry_agrees_with_createError (error : Caught) :
  (ApiFetcher.e_isRetryable (ApiFetcher.createError error) = ApiFetcher.isRetryable error
   ∨ ∃ message code r,
       error = IsAxiosError message code (Some r) ∧ status r < 400 ∧
       ApiFetcher.isRetryable error = true ∧
       ApiFetcher.e_isRetryable (ApiFetcher.createError error) = false) ∧
  (ApiFetcher.e_isRetryable (ApiFetcher.createError error) = true →
   ApiFetcher.isRetryable error = true) ∧
  match ApiFetcher.onCaught error with
  | ApiFetcher.Rethrow thrown => thrown = error ∧ ApiFetcher.isRetryable error = true
  | ApiFetcher.Abort reason =>
      ApiFetcher.isRetryable error = false ∧
      (reason = error ∨
       ∃ v, error = NotAnError v ∧ reason = IsError "API fetcher aborted")
  end.
Proof.
  assert (Hcase :
    ApiFetcher.e_isRetryable (ApiFetcher.createError error) = ApiFetcher.isRetryable error
    ∨ ∃ message code r,
        error = IsAxiosError message code (Some r) ∧ status r < 400 ∧
        ApiFetcher.isRetryable error = true ∧
        ApiFetcher.e_isRetryable (ApiFetcher.createError error) = false).
  { destruct error as [message code [r|]|message|v]; simpl; try by left.
    unfold ApiFetcher.isRetryable, Fetcher.isRetryable.
    destruct (decide (status r < 400)) as [Hlow|Hhigh].
    - right. exists message, code, r. split; [done|]. split; [done|]. split.
      + rewrite (bool_decide_eq_false_2 (status r >= 400)) by lia.
        by rewrite andb_false_r.
      + rewrite (bool_decide_eq_false_2 (status r >= 500)) by lia.
        rewrite (bool_decide_eq_false_2 (status r = 429)) by lia. done.
    - left. repeat case_bool_decide; simpl; try done; lia. }
  split; [done|]. split.
  - destruct Hcase as [<-|(? & ? & ? & _ & _ & H & _)]; done.
  - unfold ApiFetcher.onCaught.
    destruct (ApiFetcher.isRetryable error) eqn:E; [done|]. split; [done|].
    destruct error; eauto.
Qed.

Lemma truthy_Some value s : truthy value = Some s ↔ value = Some s ∧ s ≠ EmptyString.
Proof.
  unfold truthy. destruct value as [v|]; [|naive_solver].
  destruct (String.eqb_spec v EmptyString); naive_solver.
Qed.

Lemma applyAuth_cases headers a :
  ApiFetcher.applyAuth headers a = headers
  ∨ ∃ k v, ApiFetcher.applyAuth headers a = <[k := v]> headers.
Proof.
  unfold ApiFetcher.applyAuth.
  destruct (ApiFetcher.type a);
    repeat (match goal with |- context [truthy ?x] => destruct (truthy x) end);
    eauto.
Qed.

(** X26: the headers of the request configuration: a header of the
    request wins over a default header of the same name, and the default
    headers it does not name are kept; the authentication changes at most
    one header and removes none; a bearer token that is not empty gives
    [authorization: Bearer <token>], over any [authorization] of the
    request; basic credentials give [authorization: Basic <base64 of
    user:password>] when both are present and not empty, and leave the
    headers as they are otherwise; the method defaults to [GET]. *)
Theorem request_headers_precedence (options : Fetcher.Options)
    (request : ApiFetcher.ApiFetcherRequest) :
  let cfg := ApiFetcher.buildRequestConfig options request in
  let own := default ∅ (ApiFetcher.headers request) in
  let defaults := default ∅ (Fetcher.axiosHeaders options) in
  (ApiFetcher.auth request = None →
   ∀ k, ApiFetcher.c_headers cfg !! k
        = match own !! k with Some v => Some v | None => defaults !! k end) ∧
  (∀ k, is_Some (own !! k) ∨ is_Some (defaults !! k) →
        is_Some (ApiFetcher.c_headers cfg !! k)) ∧
  (∃ changed, ∀ k, k ≠ changed →
     ApiFetcher.c_headers cfg !! k
     = match own !! k with Some v => Some v | None => defaults !! k end) ∧
  (∀ a t, ApiFetcher.auth request = Some a → ApiFetcher.type a = ApiFetcher.bearer →
          ApiFetcher.token a = Some t → t ≠ EmptyString →
          ApiFetcher.c_headers cfg !! "authorization" = Some ("Bearer " ++ t)%string) ∧
  (∀ a, ApiFetcher.auth request = Some a → ApiFetcher.type a = ApiFetcher.basic →
        match truthy (ApiFetcher.username a), truthy (ApiFetcher.password a) with
        | Some u, Some p =>
            ApiFetcher.c_headers cfg !! "authorization"
            = Some ("Basic " ++ Base64.encode (u ++ ":" ++ p))%string
        | _, _ => ApiFetcher.c_headers cfg = own ∪ defaults
        end) ∧
  ApiFetcher.c_method cfg = default ApiFetcher.GET (ApiFetcher.method request) ∧
  ApiFetcher.c_url cfg = ApiFetcher.url request.
Proof.
  intros cfg own defaults.
  assert (Hplain : ∀ k, (own ∪ defaults) !! k
                        = match own !! k with Some v => Some v | None => defaults !! k end).
  { intros k. rewrite lookup_union. by destruct (own !! k), (defaults !! k). }
  unfold cfg, ApiFetcher.buildRequestConfig. simpl. fold own. fold defaults.
  split_and!; try done.
  - intros ->. exact Hplain.
  - intros k Hk.
    assert (is_Some ((own ∪ defaults) !! k)) as Hin.
    { rewrite Hplain. destruct (own !! k); [by eexists|]. by destruct Hk as [[? ?]|?]. }
    destruct (ApiFetcher.auth request) as [a|]; [|done].
    destruct (applyAuth_cases (own ∪ defaults) a) as [->|(k' & v & ->)]; [done|].
    destruct (decide (k' = k)) as [->|Hne].
    + rewrite lookup_insert_eq. by eexists.
    + by rewrite lookup_insert_ne.
  - destruct (ApiFetcher.auth request) as [a|]; [|by exists EmptyString].
    destruct (applyAuth_cases (own ∪ defaults) a) as [->|(k' & v & ->)].
    + by exists EmptyString.
    + exists k'. intros k Hne. by rewrite lookup_insert_ne.
  - intros a t -> Ha Ht Hne. unfold ApiFetcher.applyAuth. rewrite Ha.
    assert (truthy (ApiFetcher.token a) = Some t) as -> by (by apply truthy_Some).
    by rewrite lookup_insert_eq.
  - intros a -> Ha. unfold ApiFetcher.applyAuth. rewrite Ha.
    destruct (truthy (ApiFetcher.username a)) as [u|]; [|done].
    destruct (truthy (ApiFetcher.password a)) as [p|]; [|done].
    by rewrite lookup_insert_eq.
Qed.

Example basic_auth_header :
  ApiFetcher.c_headers
    (ApiFetcher.buildRequestConfig sampleFetcherOptions
       (sampleRequest (Some (basicAuth (Some "user") (Some "pass")))))
  = {["accept" := "text/plain"; "authorization" := "Basic dXNlcjpwYXNz";
      "x-trace" := "1"]} ∧
  ApiFetcher.c_headers
    (ApiFetcher.buildRequestConfig sampleFetcherOptions
       (sampleRequest (Some (basicAuth (Some "user") None))))
  = {["accept" := "text/plain"; "authorization" := "none"; "x-trace" := "1"]} ∧
  Base64.encode "a" = "YQ==" ∧ Base64.encode "ab" = "YWI=" ∧
  Base64.encode "Scrapar!" = "U2NyYXBhciE=".
Proof. by vm_compute. Qed.

Lemma wait_positive last now bound : Forall waits (Fetcher.wait last now bound).
Proof.
  unfold Fetcher.wait. destruct last as [t|]; [|constructor].
  destruct bound; repeat case_decide; repeat constructor. simpl. lia.
Qed.

Lemma wait_elapsed t now bound :
  elapsed bound (now - t) → Fetcher.wait (Some t) now bound = [].
Proof.
  unfold Fetcher.wait, elapsed. destruct bound; try done.
  intros H. rewrite decide_False by lia. done.
Qed.

(** X27: the pacing of requests.  A fetcher that has made no request, on a
    context that carries no time of a last request under the key of the
    fetcher, sets no timer.  Every timer is set for a positive number of
    milliseconds ([Infinity] when the rate limit allows zero requests), and
    none is set once the interval of the rate limit and the minimal delay
    have both elapsed since the last request.  The time a fetcher has marked itself takes
    precedence over the one in the context; a fetcher that has not made a
    request reads the time another fetcher of the same kind has marked in
    the shared context; the two kinds of fetchers use different keys and do
    not see the marks of each other. *)
Theorem fetcher_pacing (key : string) (options : Fetcher.Options)
    (now t : Z) (ctx : ScrapeContext) :
  (∀ lastRequestAt,
     Forall waits (Fetcher.applyDelays key options lastRequestAt now ctx)) ∧
  ((∀ n, metadata ctx !! key ≠ Some (JNum n)) →
   Fetcher.applyDelays key options None now ctx = []) ∧
  (∀ ctx', config ctx' = config ctx →
     Fetcher.applyDelays key options (Some t) now ctx'
     = Fetcher.applyDelays key options (Some t) now ctx) ∧
  Fetcher.applyDelays key options None now (Fetcher.markRequest key t ctx).2
  = Fetcher.applyDelays key options (Fetcher.markRequest key t ctx).1 now ctx ∧
  ((∀ r, Fetcher.rateLimit options = Some r ∨
         (Fetcher.rateLimit options = None ∧ configRateLimit (config ctx) = Some r) →
         elapsed (Fetcher.ceilDiv (perMilliseconds r) (requests r)) (now - t)) →
   (∀ m, Fetcher.minDelayMs options = Some m → m <= now - t) →
   Fetcher.applyDelays key options (Some t) now ctx = []) ∧
  HtmlFetcher.applyDelays options None now (ApiFetcher.markRequest t ctx).2
  = HtmlFetcher.applyDelays options None now ctx ∧
  ApiFetcher.applyDelays options None now (HtmlFetcher.markRequest t ctx).2
  = ApiFetcher.applyDelays options None now ctx.
Proof.
  split_and!.
  - intros lastRequestAt. unfold Fetcher.applyDelays. cbv zeta. apply Forall_app. split.
    + destruct (match Fetcher.rateLimit options with
                | Some r => Some r
                | None => configRateLimit (config ctx)
                end); [apply wait_positive|constructor].
    + destruct (Fetcher.minDelayMs options) as [m|]; [|constructor].
      case_decide; [apply wait_positive|constructor].
  - intros Hfresh. unfold Fetcher.applyDelays, Fetcher.lastRequest. cbv zeta.
    assert (match metadata ctx !! key with
            | Some (JNum t0) => Some t0
            | _ => None
            end = None) as ->.
    { destruct (metadata ctx !! key) as [[| |n| |]|] eqn:E; try done.
      by destruct (Hfresh n). }
    simpl.
    destruct (match Fetcher.rateLimit options with
              | Some r => Some r
              | None => configRateLimit (config ctx)
              end); simpl;
      destruct (Fetcher.minDelayMs options) as [m|]; try done; by case_decide.
  - intros ctx' Hcfg. unfold Fetcher.applyDelays. cbv zeta. by rewrite Hcfg.
  - unfold Fetcher.applyDelays, Fetcher.markRequest, Fetcher.lastRequest. simpl.
    by rewrite lookup_insert_eq.
  - intros Hrate Hmin. unfold Fetcher.applyDelays, Fetcher.lastRequest. cbv zeta.
    assert (Hm : match Fetcher.minDelayMs options with
                 | Some m => if decide (m ≠ 0 ∧ m > 0)
                             then Fetcher.wait (Some t) now (Fetcher.Finite m) else []
                 | None => []
                 end = []).
    { destruct (Fetcher.minDelayMs options) as [m|] eqn:Em; [|done].
      case_decide; [|done]. apply wait_elapsed. simpl. by apply Hmin. }
    rewrite Hm, app_nil_r.
    destruct (Fetcher.rateLimit options) as [r|] eqn:Er.
    + apply wait_elapsed, Hrate. by left.
    + destruct (configRateLimit (config ctx)) as [r|] eqn:Ec; [|done].
      apply wait_elapsed, Hrate. by right.
  - unfold HtmlFetcher.applyDelays, ApiFetcher.markRequest, Fetcher.applyDelays,
      Fetcher.markRequest, Fetcher.lastRequest. simpl.
    by rewrite lookup_insert_ne.
  - unfold ApiFetcher.applyDelays, HtmlFetcher.markRequest, Fetcher.applyDelays,
      Fetcher.markRequest, Fetcher.lastRequest. simpl.
    by rewrite lookup_insert_ne.
Qed.

(** Four requests per second and a minimal delay of 100 ms: 40 ms after a
    request the fetcher waits 210 ms, then 60 ms more. *)
Example pacing_example :
  ApiFetcher.applyDelays sampleFetcherOptions (Some 1000) 1040
    (ScrapeContextImpl sampleConfig "run-1") = [Fetcher.Ms 210; Fetcher.Ms 60] ∧
  ApiFetcher.applyDelays sampleFetcherOptions (Some 1000) 1250
    (ScrapeContextImpl sampleConfig "run-1") = [] ∧
  ApiFetcher.applyDelays sampleFetcherOptions None 1040
    (ScrapeContextImpl sampleConfig "run-1") = [].
Proof. by vm_compute. Qed.

Example not_modified_is_retried :
  ApiFetcher.isRetryable notModified = true ∧
  ApiFetcher.e_isRetryable (ApiFetcher.createError notModified) = false.
Proof. by vm_compute. Qed.

End Fetchers.
